(** * A shallow embedding of the parallel build coordinator

    The first part follows the Python sources module by module:
    [Scheduler] (scheduler.py), [Merge] (merge.py), [LinearStatus]
    (linear_status.py), [Progress] (parallel_progress.py), [Parallel]
    (parallel.py) and [QueueRunner] (queue_runner.py).  Pure functions
    are Rocq functions; code that raises returns a [result]; code that
    talks to git, to worker processes, to the tracker or to the file
    system takes the answers of the outside world from an environment
    and threads the state of that world through its calls.  Console
    output is not modelled.

    The second part states and proves the properties, module by
    module, and checks them on the scenarios of [Scenarios]. *)

From stdpp Require Import gmap strings list fin_maps sorting pretty.
From Stdlib Require Import ZArith.

Set Warnings "-register-all,-clear-no-such-hyp".

(** ** Python values shared by all modules *)

Module Py.

(** The exceptions the modelled code can raise or catch.  Everything but
    [KeyboardInterrupt] derives from Python's [Exception]. *)
Inductive exn : Type :=
  | KeyError (key : string)
  | TypeError (msg : string)
  | ValueError (msg : string)
  | AttributeError (msg : string)
  | OSError (msg : string)
  | RuntimeError (msg : string)
  | KeyboardInterrupt.

Definition is_Exception (e : exn) : bool :=
  match e with
  | KeyboardInterrupt => false
  | _ => true
  end.

(** [str(e)] for the message carried by an exception. *)
Definition exn_str (e : exn) : string :=
  match e with
  | KeyError k => "'" +:+ k +:+ "'"
  | TypeError m | ValueError m | AttributeError m
  | OSError m | RuntimeError m => m
  | KeyboardInterrupt => ""
  end.

(** A computation that returns a value or raises. *)
Definition result (A : Type) : Type := (exn + A)%type.

Abbreviation ok := (@inr exn _).
Abbreviation raise := (@inl exn _).

#[global] Instance result_ret : MRet result := λ A a, ok a.
#[global] Instance result_bind : MBind result := λ A B f m,
  match m with
  | inl e => inl e
  | inr a => f a
  end.
#[global] Instance result_fmap : FMap result := λ A B f m,
  match m with
  | inl e => inl e
  | inr a => inr (f a)
  end.

(** The values [json.load] produces.  A [dict] is a finite map: Python
    compares dictionaries by their key/value pairs, whatever the
    insertion order.  A float is kept as its literal text. *)
Inductive json : Type :=
  | JNull
  | JBool (b : bool)
  | JInt (z : Z)
  | JFloat (lit : string)
  | JStr (s : string)
  | JList (l : list json)
  | JDict (d : gmap string json).

(** [d[k]] on a dictionary. *)
Definition getitem {V} (d : gmap string V) (k : string) : result V :=
  match d !! k with
  | Some v => ok v
  | None => raise (KeyError k)
  end.

(** Subscription [v[k]] of a JSON value by a string key. *)
Definition json_getitem (v : json) (k : string) : result json :=
  match v with
  | JDict d => getitem d k
  | _ => raise (TypeError "indices must be integers")
  end.

(** [v.get(k, dflt)]: only dictionaries have the method. *)
Definition json_get (v : json) (k : string) (dflt : json) : result json :=
  match v with
  | JDict d => ok (default dflt (d !! k))
  | _ => raise (AttributeError "object has no attribute 'get'")
  end.

(** Typed views of a JSON value, for the fields of the dataclasses.
    Python stores whatever it is given; the records of this
    development are typed, so an ill-typed document is reported as a
    [TypeError]. *)
Definition as_int (v : json) : result Z :=
  match v with JInt z => ok z | _ => raise (TypeError "int expected") end.
Definition as_str (v : json) : result string :=
  match v with JStr s => ok s | _ => raise (TypeError "str expected") end.
Definition as_bool (v : json) : result bool :=
  match v with JBool b => ok b | _ => raise (TypeError "bool expected") end.
Definition as_list (v : json) : result (list json) :=
  match v with JList l => ok l | _ => raise (TypeError "list expected") end.

(** [[f(x) for x in l]] where [f] may raise: the first exception wins. *)
Fixpoint traverse {A B} (f : A → result B) (l : list A) : result (list B) :=
  match l with
  | [] => ok []
  | x :: l' => y ← f x; ys ← traverse f l'; ok (y :: ys)
  end.

(** [str.lower] on the ASCII letters. *)
Definition ascii_lower (c : Ascii.ascii) : Ascii.ascii :=
  let n := Ascii.nat_of_ascii c in
  if (65 <=? n)%nat && (n <=? 90)%nat then Ascii.ascii_of_nat (n + 32) else c.

Fixpoint lower_ascii (s : string) : string :=
  match s with
  | EmptyString => EmptyString
  | String c s' => String (ascii_lower c) (lower_ascii s')
  end.

(** [needle in hay] on strings. *)
Fixpoint contains (needle hay : string) : bool :=
  String.prefix needle hay ||
  match hay with
  | EmptyString => false
  | String _ hay' => contains needle hay'
  end.

(** [p / name] on paths. *)
Definition path_join (p name : string) : string := p +:+ "/" +:+ name.

(** [str.splitlines] on text whose only line boundary is the line feed
    (code 10). *)
Fixpoint lines_lf_aux (cur : string) (s : string) : list string :=
  match s with
  | EmptyString => match cur with EmptyString => [] | _ => [cur] end
  | String c s' =>
      if (Ascii.nat_of_ascii c =? 10)%nat then cur :: lines_lf_aux EmptyString s'
      else lines_lf_aux (cur +:+ String c EmptyString) s'
  end.

Definition lines_lf (s : string) : list string := lines_lf_aux EmptyString s.

Definition LF : string := String (Ascii.ascii_of_nat 10) EmptyString.

End Py.

Import Py.

(** ** scheduler.py *)

Module Scheduler.

Local Open Scope Z_scope.

(** Category-to-tier mapping. Categories not listed default to tier 4. *)
Definition CATEGORY_TIERS : gmap string Z :=
  list_to_map
    [("setup", 1); ("backend", 2); ("frontend", 3); ("a2ui-catalog", 3);
     ("feature", 4); ("styling", 5); ("testing", 6); ("integration", 7)].

(** Tiers that run one issue at a time. *)
Definition SEQUENTIAL_TIERS : gset Z := {[ 1; 7 ]}.

Definition TIER_DESCRIPTIONS : gmap Z string :=
  list_to_map
    [(1, "setup (project foundation)");
     (2, "backend (API and data layer)");
     (3, "frontend + a2ui-catalog (UI components)");
     (4, "feature (integration features)");
     (5, "styling (visual polish)");
     (6, "testing (validation)");
     (7, "integration (cross-cutting)")].

Definition DEFAULT_TIER : Z := 4.

Record ExecutionTier : Type := mkExecutionTier {
  tier : Z;
  issue_ids : list string;
  description : string;
  sequential : bool
}.

Definition size (t : ExecutionTier) : Z := Z.of_nat (length (issue_ids t)).

Record ParallelPlan : Type := mkPlanRecord {
  tiers : list ExecutionTier;
  max_parallelism : Z;
  created_at : string;
  total_issues : Z
}.

(** [sum(t.size for t in tiers)]. *)
Definition sum_sizes (ts : list ExecutionTier) : Z :=
  foldr (λ t acc, size t + acc) 0 ts.

(** The dataclass constructor: [__post_init__] overwrites
    [total_issues] with the sum of the tier sizes. *)
Definition mkParallelPlan (ts : list ExecutionTier) (mp : Z)
    (created : string) : ParallelPlan :=
  {| tiers := ts; max_parallelism := mp; created_at := created;
     total_issues := sum_sizes ts |}.

(** The invariant the constructor establishes. *)
Definition plan_wf (p : ParallelPlan) : Prop :=
  total_issues p = sum_sizes (tiers p).

#[global] Instance ExecutionTier_eq_dec : EqDecision ExecutionTier.
Proof. solve_decision. Defined.

(** *** Serialisation *)

Definition tier_to_dict (t : ExecutionTier) : json :=
  JDict (list_to_map
    [("tier", JInt (tier t));
     ("description", JStr (description t));
     ("sequential", JBool (sequential t));
     ("issue_ids", JList (JStr <$> issue_ids t))]).

Definition to_dict (p : ParallelPlan) : json :=
  JDict (list_to_map
    [("created_at", JStr (created_at p));
     ("max_parallelism", JInt (max_parallelism p));
     ("total_issues", JInt (total_issues p));
     ("tiers", JList (tier_to_dict <$> tiers p))]).

Definition tier_from_dict (t : json) : result ExecutionTier :=
  n ← json_getitem t "tier" ≫= as_int;
  ids ← (json_getitem t "issue_ids" ≫= as_list) ≫= traverse as_str;
  d ← json_getitem t "description" ≫= as_str;
  s ← json_get t "sequential" (JBool false) ≫= as_bool;
  ok (mkExecutionTier n ids d s).

Definition from_dict (data : json) : result ParallelPlan :=
  ts ← (json_getitem data "tiers" ≫= as_list) ≫= traverse tier_from_dict;
  mp ← json_getitem data "max_parallelism" ≫= as_int;
  created ← json_get data "created_at" (JStr "") ≫= as_str;
  ok (mkParallelPlan ts mp created).

(** The project directory as far as the scheduler sees it: the JSON
    documents stored under their paths.  [json.dump] followed by
    [json.load] gives the document back, so a file is identified with
    the document it holds. *)
Definition save_plan (p : ParallelPlan) (project_dir : string)
    (fs : gmap string json) : string * gmap string json :=
  let plan_path := path_join project_dir ".parallel_plan.json" in
  (plan_path, <[plan_path := to_dict p]> fs).

Definition load_plan (project_dir : string) (fs : gmap string json)
    : result (option ParallelPlan) :=
  let plan_path := path_join project_dir ".parallel_plan.json" in
  match fs !! plan_path with
  | None => ok None
  | Some data => Some <$> from_dict data
  end.

(** *** Readiness *)

Fixpoint get_ready_tiers (ts : list ExecutionTier) (completed : gset string)
    : list string * option ExecutionTier :=
  match ts with
  | [] => ([], None)
  | t :: rest =>
      let remaining := filter (λ iid, iid ∉ completed) (issue_ids t) in
      match remaining with
      | [] => get_ready_tiers rest completed
      | _ :: _ => (remaining, Some t)
      end
  end.

Definition get_ready_issues (plan : ParallelPlan) (completed : gset string)
    : list string * option ExecutionTier :=
  get_ready_tiers (tiers plan) completed.

(** *** Planning *)

Section BuildPlan.

(** [str.lower]: a builtin of the language, taken as a parameter.
    [Py.lower_ascii] is its restriction to ASCII text. *)
Variable str_lower : string → string.

(** [CATEGORY_TIERS.get(issue.get("category", "").lower(), DEFAULT_TIER)]. *)
Definition tier_of (issue : gmap string string) : Z :=
  let category := str_lower (default "" (issue !! "category")) in
  default DEFAULT_TIER (CATEGORY_TIERS !! category).

(** The grouping loop.  [setdefault(tier_num, []).append(issue["id"])]
    extends the list stored under [tier_num], starting from the empty
    list when the key is new; a missing ["id"] raises [KeyError]. *)
Fixpoint group_by_tier (issues : list (gmap string string))
    (tier_groups : gmap Z (list string)) : result (gmap Z (list string)) :=
  match issues with
  | [] => ok tier_groups
  | issue :: rest =>
      let tier_num := tier_of issue in
      iid ← getitem issue "id";
      group_by_tier rest
        (<[tier_num := default [] (tier_groups !! tier_num) ++ [iid]]> tier_groups)
  end.

(** [sorted(tier_groups.keys())]. *)
Definition sorted_keys (tier_groups : gmap Z (list string)) : list Z :=
  merge_sort Z.le (elements (dom tier_groups)).

Definition make_tier (tier_groups : gmap Z (list string)) (tier_num : Z)
    : ExecutionTier :=
  {| tier := tier_num;
     issue_ids := default [] (tier_groups !! tier_num);
     description :=
       default ("tier " +:+ pretty tier_num) (TIER_DESCRIPTIONS !! tier_num);
     sequential := bool_decide (tier_num ∈ SEQUENTIAL_TIERS) |}.

(** [now] is the reading of the clock that [created_at] defaults to. *)
Definition build_plan (issues : list (gmap string string))
    (max_parallelism : Z) (now : string) : result ParallelPlan :=
  tier_groups ← group_by_tier issues ∅;
  ok (mkParallelPlan (make_tier tier_groups <$> sorted_keys tier_groups)
        max_parallelism now).

(** The identifiers of the issues that [tier_of] sends to tier [n], in
    the order of the input. *)
Definition ids_in_tier (n : Z) (issues : list (gmap string string))
    : list string :=
  omap (λ issue, issue !! "id") (filter (λ issue, tier_of issue = n) issues).

End BuildPlan.

(** [[issue["id"] for issue in issues]] for issues that all have one. *)
Definition issue_id_list (issues : list (gmap string string)) : list string :=
  omap (λ issue : gmap string string, issue !! "id") issues.

End Scheduler.

(** ** The outside world of the coordinator

    git, the file system under the project directory and the worker
    processes are not part of the program.  Their answers are given by
    an environment that sees everything the program has done so far;
    the program's requests are recorded, in order, in a history. *)

Module World.

(** A worker to be awaited by [asyncio.gather]: the arguments of one
    [_spawn_worker] call. *)
Record spawn_task : Type := mkSpawnTask {
  task_cmd : list string;
  task_issue_id : string;
  task_worker_index : Z
}.

Inductive event : Type :=
  | EvGit (cwd : string) (args : list string)
  | EvExists (path : string)
  | EvMkdir (path : string)
  | EvRmtree (path : string)
  | EvGather (tasks : list spawn_task)
  | EvLoadResult (path : string).

Record Env : Type := mkEnv {
  (** [sys.executable]. *)
  sys_executable : string;
  (** What [_run_git] returns: exit code, decoded and stripped standard
      output and standard error; or the exception of a failed spawn. *)
  git_reply : list event → string → list string → result (Z * string * string);
  (** [Path.exists]. *)
  exists_reply : list event → string → bool;
  (** [shutil.rmtree]: [Some msg] when it raises [OSError msg]. *)
  rmtree_reply : list event → string → option string;
  (** The outcome of one awaited worker: its exit code, or the
      exception [gather] hands back in its place. *)
  worker_reply : list event → spawn_task → result Z;
  (** [load_worker_result]: the descriptor read from a path, [None]
      when the file is missing or unreadable. *)
  result_reply : list event → string → option (gmap string json)
}.

(** Computations over the history that may raise. *)
Definition M (A : Type) : Type := list event → result A * list event.

#[global] Instance M_ret : MRet M := λ A a h, (ok a, h).
#[global] Instance M_bind : MBind M := λ A B f m h,
  match m h with
  | (inl e, h') => (inl e, h')
  | (inr a, h') => f a h'
  end.

Definition lift {A} (r : result A) : M A := λ h, (r, h).

Definition request {A} (ev : event) (reply : list event → result A) : M A :=
  λ h, (reply h, h ++ [ev]).

(** Specifications of computations: whatever the history [m] starts
    from, the events it adds all satisfy [P], and the value it returns,
    when it returns one, satisfies [Q]. *)
Definition hoare {A} (P : event → Prop) (m : M A) (Q : A → Prop) : Prop :=
  ∀ h r h', m h = (r, h') →
    (∃ new, h' = h ++ new ∧ Forall P new) ∧ (∀ a, r = ok a → Q a).

(** The waves recorded in a history: the worker indices of the tasks
    awaited together, wave by wave. *)
Definition waves_started (h : list event) : list (list Z) :=
  omap (λ ev, match ev with
              | EvGather tasks => Some (task_worker_index <$> tasks)
              | _ => None
              end) h.

(** The same waves with the issue each worker was started for: per
    wave, the pairs of issue identifier and worker index of the tasks
    awaited together, in the order of the tasks. *)
Definition waves_awaited (h : list event) : list (list (string * Z)) :=
  omap (λ ev, match ev with
              | EvGather tasks =>
                  Some ((λ t, (task_issue_id t, task_worker_index t)) <$> tasks)
              | _ => None
              end) h.

(** The merge commands recorded in a history. *)
Definition merges_attempted (h : list event) : list (list string) :=
  omap (λ ev, match ev with
              | EvGit _ ("merge" :: "--no-ff" :: args) => Some args
              | _ => None
              end) h.

(** The workers recorded in a history: the identifiers of the issues
    of the tasks awaited, in the order in which they were started. *)
Definition workers_started (h : list event) : list string :=
  concat (omap (λ ev, match ev with
                      | EvGather tasks => Some (task_issue_id <$> tasks)
                      | _ => None
                      end) h).

(** The world [env] with other outcomes of the workers. *)
Definition with_worker_reply (f : list event → spawn_task → result Z)
    (env : Env) : Env :=
  {| sys_executable := sys_executable env;
     git_reply := git_reply env;
     exists_reply := exists_reply env;
     rmtree_reply := rmtree_reply env;
     worker_reply := f;
     result_reply := result_reply env |}.

(** Events other than the start of a wave of workers. *)
Definition no_gather (ev : event) : Prop :=
  match ev with
  | EvGather _ => False
  | _ => True
  end.

End World.

Import World.

(** ** merge.py *)

Module Merge.

Local Open Scope Z_scope.

Definition WORKERS_DIR_NAME : string := ".workers".
Definition RESULTS_DIR_NAME : string := "results".

Record MergeResult : Type := mkMergeResult {
  branch : string;
  success : bool;
  conflict : bool;
  error : string
}.

(** The directory a path lies in: the text before its last ["/"]. *)
Fixpoint parent_aux (p : string) : option string :=
  match p with
  | EmptyString => None
  | String c p' =>
      match parent_aux p' with
      | Some d => Some (String c d)
      | None =>
          (* 47 is the code of the separator *)
          if (Ascii.nat_of_ascii c =? 47)%nat then Some EmptyString else None
      end
  end.

Definition path_parent (p : string) : string := default "." (parent_aux p).

Definition get_workers_dir (project_dir : string) : string :=
  path_join project_dir WORKERS_DIR_NAME.

Definition get_results_dir (project_dir : string) : string :=
  path_join (get_workers_dir project_dir) RESULTS_DIR_NAME.

Definition get_worktree_dir (project_dir : string) (worker_index : Z) : string :=
  path_join (get_workers_dir project_dir) ("w" +:+ pretty worker_index).

(** [line.split(" ", 1)[1]]: the text after the first blank of a line
    that has one (32 is the code of the blank). *)
Fixpoint after_blank (line : string) : string :=
  match line with
  | EmptyString => EmptyString
  | String c rest =>
      if (Ascii.nat_of_ascii c =? 32)%nat then rest else after_blank rest
  end.

(** The directories clean-up may delete, given the listing of the
    worktrees: the workers directory, and the path on a line of the
    listing that begins with [worktree ] and mentions the name of the
    workers directory. *)
Definition removable (path_text : string → string) (workers_dir : string)
    (lines : list string) (p : string) : Prop :=
  p = workers_dir ∨
  ∃ line, line ∈ lines ∧ String.prefix "worktree " line = true ∧
          contains WORKERS_DIR_NAME line = true ∧
          p = path_text (after_blank line).

(** Events that delete nothing but what [ok] allows: a forced removal
    of a worktree or a removal of a directory tree is of a path in
    [ok]. *)
Definition deletes_only (ok : string → Prop) (ev : event) : Prop :=
  match ev with
  | EvGit _ ["worktree"; "remove"; "--force"; p] => ok p
  | EvRmtree p => ok p
  | _ => True
  end.

Section Driver.

Variable str_lower : string → string.
Variable env : Env.

Definition _run_git (cwd : string) (args : list string) : M (Z * string * string) :=
  request (EvGit cwd args) (λ h, git_reply env h cwd args).

Definition path_exists (p : string) : M bool :=
  request (EvExists p) (λ h, ok (exists_reply env h p)).

Definition mkdir_parents (p : string) : M () :=
  request (EvMkdir p) (λ _, ok ()).

(** [shutil.rmtree] inside [try ... except OSError]: the message of the
    error when there is one. *)
Definition try_rmtree (p : string) : M (option string) :=
  request (EvRmtree p) (λ h, ok (rmtree_reply env h p)).

Definition remove_worktree (project_dir worktree_dir : string) : M bool :=
  present ← path_exists worktree_dir;
  if negb present then mret true
  else
    '(rc, _, _) ← _run_git project_dir
                    ["worktree"; "remove"; "--force"; worktree_dir];
    if bool_decide (rc ≠ 0) then
      failed ← try_rmtree worktree_dir;
      match failed with
      | Some _ => mret false
      | None =>
          _ ← _run_git project_dir ["worktree"; "prune"];
          mret true
      end
    else mret true.

Definition create_worktree (project_dir worktree_dir branch : string) : M bool :=
  _ ← mkdir_parents (path_parent worktree_dir);
  present ← path_exists worktree_dir;
  _ ← (if present : bool
       then remove_worktree project_dir worktree_dir
       else (mret true : M bool));
  _ ← _run_git project_dir ["branch"; "-D"; branch];
  '(rc, _, _) ← _run_git project_dir
                  ["worktree"; "add"; "-b"; branch; worktree_dir];
  mret (bool_decide (rc = 0)).

(** The arguments of the merge command. *)
Definition merge_args (branch : string) : list string :=
  ["merge"; "--no-ff"; "-m"; "Merge parallel branch: " +:+ branch; branch].

Definition merge_branch (project_dir branch : string) : M MergeResult :=
  '(rc, stdout, stderr) ← _run_git project_dir (merge_args branch);
  if bool_decide (rc = 0) then
    mret (mkMergeResult branch true false "")
  else if contains "conflict" (str_lower stderr)
          || contains "conflict" (str_lower stdout) then
    _ ← _run_git project_dir ["merge"; "--abort"];
    mret (mkMergeResult branch false true "")
  else
    _ ← _run_git project_dir ["merge"; "--abort"];
    mret (mkMergeResult branch false false stderr).

Definition delete_branch (project_dir branch : string) : M () :=
  _ ← _run_git project_dir ["branch"; "-d"; branch];
  mret ().

(** [str.splitlines] and the text of [Path(s)]: a builtin of the
    language and the normalisation of pathlib, taken as parameters. *)
Variable splitlines : string → list string.
Variable path_text : string → string.

(** The loop over the lines of the listing. *)
Fixpoint remove_listed (project_dir : string) (lines : list string) : M () :=
  match lines with
  | [] => mret ()
  | line :: rest =>
      if String.prefix "worktree " line && contains WORKERS_DIR_NAME line then
        _ ← remove_worktree project_dir (path_text (after_blank line));
        remove_listed project_dir rest
      else remove_listed project_dir rest
  end.

Definition cleanup_worktrees (project_dir : string) : M () :=
  let workers_dir := get_workers_dir project_dir in
  present ← path_exists workers_dir;
  if negb present then mret ()
  else
    '(rc, stdout, _) ← _run_git project_dir ["worktree"; "list"; "--porcelain"];
    _ ← (if bool_decide (rc = 0)
         then remove_listed project_dir (splitlines stdout)
         else mret ());
    _ ← _run_git project_dir ["worktree"; "prune"];
    (* [except OSError: pass] *)
    _ ← try_rmtree workers_dir;
    mret ().

Definition ensure_git_initialized (project_dir : string) : M bool :=
  '(rc, _, _) ← _run_git project_dir ["rev-parse"; "--git-dir"];
  mret (bool_decide (rc = 0)).

End Driver.

End Merge.

(** ** linear_status.py *)

Module LinearStatus.

(** Linear workflow state types that count as completed, and as
    cancelled. *)
Definition COMPLETED_STATE_TYPES : gset string := {[ "completed" ]}.
Definition CANCELLED_STATE_TYPES : gset string := {[ "canceled" ]}.

(** The tracker as the client sees it during one sweep.
    [ARCADE_API_KEY] comes from the configuration module; [execute n id]
    is the value of [result.output.value] for the tool call
    [Linear_GetIssue] on [id] when [n] calls have been made on the
    client before, or the exception raised on the way there.  The
    tracker is asked once per element of the list, and two calls for
    the same identifier need not get the same answer. *)
Record Tracker : Type := mkTracker {
  ARCADE_API_KEY : option string;
  execute : nat → string → result json
}.

(** [not ARCADE_API_KEY] holds for [None] and for the empty string. *)
Definition _create_arcade_client (t : Tracker) : result () :=
  match ARCADE_API_KEY t with
  | None | Some EmptyString =>
      raise (ValueError "ARCADE_API_KEY not set. Cannot check Linear issue statuses.")
  | Some _ => ok ()
  end.

(** The dictionary [get_issue_status] returns, one field per key. *)
Record IssueStatus : Type := mkIssueStatus {
  identifier : json;
  title : json;
  state_name : json;
  state_type : json;
  completed_at : json
}.

Definition unknown_status (issue_identifier : string) : IssueStatus :=
  {| identifier := JStr issue_identifier;
     title := JStr "";
     state_name := JStr "Unknown";
     state_type := JStr "unknown";
     completed_at := JNull |}.

(** The body of the [try] block, for the call number [n] (from 0) on
    the client. *)
Definition fetch_issue_status (t : Tracker) (n : nat)
    (issue_identifier : string) : result IssueStatus :=
  value ← execute t n issue_identifier;
  issue ← json_get value "issue" (JDict ∅);
  state ← json_get issue "state" (JDict ∅);
  ident ← json_get issue "identifier" (JStr issue_identifier);
  ttl ← json_get issue "title" (JStr "");
  sname ← json_get state "name" (JStr "Unknown");
  stype ← json_get state "type" (JStr "unknown");
  done_at ← json_get issue "completed_at" JNull;
  ok (mkIssueStatus ident ttl sname stype done_at).

(** [except Exception] catches everything but a user interrupt. *)
Definition get_issue_status (t : Tracker) (n : nat)
    (issue_identifier : string) : result IssueStatus :=
  match fetch_issue_status t n issue_identifier with
  | inr st => ok st
  | inl e =>
      if is_Exception e then ok (unknown_status issue_identifier)
      else raise e
  end.

(** [v in s] for a set of strings: a list or a dictionary is not
    hashable, any other value that is not a string is simply absent. *)
Definition in_state_types (v : json) (s : gset string) : result bool :=
  match v with
  | JStr x => ok (bool_decide (x ∈ s))
  | JList _ | JDict _ => raise (TypeError "unhashable type")
  | _ => ok false
  end.

(** The loop of the sweep from its element number [i] on: one call to
    the tracker per element of the list, the call for element [i]
    being call number [i] on the client, which the sweep has made for
    itself. *)
Fixpoint check_loop (t : Tracker) (i : nat) (issue_identifiers : list string)
    (completed cancelled : gset string) (status_map : gmap string IssueStatus)
    : result (gset string * gset string * gmap string IssueStatus) :=
  match issue_identifiers with
  | [] => ok (completed, cancelled, status_map)
  | identifier :: rest =>
      status ← get_issue_status t i identifier;
      let status_map := <[identifier := status]> status_map in
      is_completed ← in_state_types (state_type status) COMPLETED_STATE_TYPES;
      if is_completed : bool then
        check_loop t (S i) rest ({[ identifier ]} ∪ completed) cancelled
          status_map
      else
        is_cancelled ← in_state_types (state_type status) CANCELLED_STATE_TYPES;
        if is_cancelled : bool then
          check_loop t (S i) rest completed ({[ identifier ]} ∪ cancelled)
            status_map
        else
          check_loop t (S i) rest completed cancelled status_map
  end.

Definition check_issue_statuses (t : Tracker) (issue_identifiers : list string)
    : result (gset string * gset string * gmap string IssueStatus) :=
  _ ← _create_arcade_client t;
  check_loop t 0 issue_identifiers ∅ ∅ ∅.

(** What a dictionary key and [sorted] ask of a state name: a text, a
    number or [None] can be hashed, a list or a dictionary cannot;
    texts compare with texts and numbers with numbers, and [<] is
    supported between no other two values. *)
Inductive name_kind : Type :=
  | TextName
  | NumberName
  | NoName.

#[global] Instance name_kind_eq_dec : EqDecision name_kind.
Proof. solve_decision. Defined.

Definition name_kind_of (v : json) : option name_kind :=
  match v with
  | JStr _ => Some TextName
  | JBool _ | JInt _ | JFloat _ => Some NumberName
  | JNull => Some NoName
  | JList _ | JDict _ => None
  end.

(** [print_status_summary]: what it prints is not modelled, what it
    raises is.  The loop over the status map groups the identifiers by
    state name with [by_state.setdefault(state_name, [])], which hashes
    every state name; [sorted(by_state.keys())] then compares the
    distinct names, which goes through when they are all texts or all
    numbers, and when there is one name only, as there is when they
    are all [None].  The identifiers sorted and joined are texts.  The
    messages of the two errors name the types met; they are cut short
    here. *)
Definition print_status_summary (status_map : gmap string IssueStatus)
    (completed cancelled : gset string) : result () :=
  let names := (λ kv : string * IssueStatus, state_name kv.2)
                 <$> map_to_list status_map in
  if bool_decide (Forall (λ v, is_Some (name_kind_of v)) names) then
    if bool_decide (Forall (λ v, name_kind_of v = Some TextName) names)
       || bool_decide (Forall (λ v, name_kind_of v = Some NumberName) names)
       || bool_decide (Forall (λ v, name_kind_of v = Some NoName) names)
    then ok ()
    else raise (TypeError "'<' not supported between instances")
  else raise (TypeError "unhashable type").

(** Vocabulary for the properties: values a set can be asked about,
    and the test that a state type is a given string. *)
Definition hashable (v : json) : Prop :=
  match v with
  | JList _ | JDict _ => False
  | _ => True
  end.

Definition is_state (s : string) (v : json) : bool :=
  match v with
  | JStr x => bool_decide (x = s)
  | _ => false
  end.

(** The element number [k] of the list is the last one that is
    [issue_identifier]: the call for it is the one whose answer the
    status map keeps. *)
Definition last_call (issue_identifiers : list string) (k : nat)
    (issue_identifier : string) : Prop :=
  issue_identifiers !! k = Some issue_identifier ∧
  ∀ k', (k < k')%nat → issue_identifiers !! k' ≠ Some issue_identifier.

End LinearStatus.

(** ** parallel_progress.py: the progress model

    The clock readings kept for the display ([start_time], [end_time])
    are left out; nothing but the pretty-printers reads them. *)

Module Progress.

Local Open Scope Z_scope.

Record WorkerState : Type := mkWorkerState {
  worker_index : Z;
  issue_id : string;
  issue_title : string;
  status : string
}.

Record TierProgress : Type := mkTierProgress {
  tier_num : Z;
  description : string;
  tier_total_issues : Z;
  completed_ids : gset string;
  failed_ids : gset string;
  workers : gmap Z WorkerState
}.

Record ParallelProgress : Type := mkParallelProgress {
  total_issues : Z;
  completed_issues : gset string;
  failed_issues : gset string;
  requeued_issues : gset string;
  current_tier : option TierProgress;
  tiers_completed : Z;
  total_tiers : Z
}.

(** Field updates. *)
Definition set_status (s : string) (w : WorkerState) : WorkerState :=
  mkWorkerState (worker_index w) (issue_id w) (issue_title w) s.

Definition set_workers (f : gmap Z WorkerState → gmap Z WorkerState)
    (t : TierProgress) : TierProgress :=
  mkTierProgress (tier_num t) (description t) (tier_total_issues t)
    (completed_ids t) (failed_ids t) (f (workers t)).

Definition add_completed_id (iid : string) (t : TierProgress) : TierProgress :=
  mkTierProgress (tier_num t) (description t) (tier_total_issues t)
    ({[ iid ]} ∪ completed_ids t) (failed_ids t) (workers t).

Definition add_failed_id (iid : string) (t : TierProgress) : TierProgress :=
  mkTierProgress (tier_num t) (description t) (tier_total_issues t)
    (completed_ids t) ({[ iid ]} ∪ failed_ids t) (workers t).

(** An update of the object [progress.current_tier] refers to; nothing
    happens when there is none. *)
Definition on_current_tier (f : TierProgress → TierProgress)
    (p : ParallelProgress) : ParallelProgress :=
  mkParallelProgress (total_issues p) (completed_issues p) (failed_issues p)
    (requeued_issues p) (f <$> current_tier p) (tiers_completed p)
    (total_tiers p).

Definition set_current_tier (t : TierProgress) (p : ParallelProgress)
    : ParallelProgress :=
  mkParallelProgress (total_issues p) (completed_issues p) (failed_issues p)
    (requeued_issues p) (Some t) (tiers_completed p) (total_tiers p).

Definition add_completed_issue (iid : string) (p : ParallelProgress)
    : ParallelProgress :=
  mkParallelProgress (total_issues p) ({[ iid ]} ∪ completed_issues p)
    (failed_issues p) (requeued_issues p) (current_tier p)
    (tiers_completed p) (total_tiers p).

Definition add_failed_issue (iid : string) (p : ParallelProgress)
    : ParallelProgress :=
  mkParallelProgress (total_issues p) (completed_issues p)
    ({[ iid ]} ∪ failed_issues p) (requeued_issues p) (current_tier p)
    (tiers_completed p) (total_tiers p).

Definition add_requeued_issue (iid : string) (p : ParallelProgress)
    : ParallelProgress :=
  mkParallelProgress (total_issues p) (completed_issues p) (failed_issues p)
    ({[ iid ]} ∪ requeued_issues p) (current_tier p) (tiers_completed p)
    (total_tiers p).

Definition discard_requeued_issue (iid : string) (p : ParallelProgress)
    : ParallelProgress :=
  mkParallelProgress (total_issues p) (completed_issues p) (failed_issues p)
    (requeued_issues p ∖ {[ iid ]}) (current_tier p) (tiers_completed p)
    (total_tiers p).

Definition incr_tiers_completed (p : ParallelProgress) : ParallelProgress :=
  mkParallelProgress (total_issues p) (completed_issues p) (failed_issues p)
    (requeued_issues p) (current_tier p) (tiers_completed p + 1)
    (total_tiers p).

End Progress.

(** ** parallel.py *)

Module Parallel.

Local Open Scope Z_scope.
Import Progress.

(** Branch name prefix for parallel workers. *)
Definition BRANCH_PREFIX : string := "parallel".

Definition _make_branch_name (issue_id : string) : string :=
  BRANCH_PREFIX +:+ "/" +:+ issue_id.

(** A dictionary whose iteration order matters ([all_results],
    [merge_results]): the entries in insertion order.  Assigning to a
    key that is present keeps its place. *)
Definition dict_set {V} (k : string) (v : V) (d : list (string * V))
    : list (string * V) :=
  if bool_decide (k ∈ d.*1)
  then (λ kv : string * V, if bool_decide (kv.1 = k) then (k, v) else kv) <$> d
  else d ++ [(k, v)].

(** The keys of a dictionary after an assignment to [k]. *)
Definition add_key (ks : list string) (k : string) : list string :=
  if bool_decide (k ∈ ks) then ks else ks ++ [k].

Fixpoint dict_get {V} (k : string) (d : list (string * V)) : option V :=
  match d with
  | [] => None
  | (k', v) :: d' => if bool_decide (k' = k) then Some v else dict_get k d'
  end.

(** [range(start, stop, step)]. *)
Definition py_range (start stop step : Z) : result (list Z) :=
  if bool_decide (step = 0) then
    raise (ValueError "range() arg 3 must not be zero")
  else
    let n := if bool_decide (0 < step)
             then (stop - start + step - 1) `div` step
             else (start - stop - step - 1) `div` (- step) in
    ok ((λ k : nat, start + Z.of_nat k * step) <$> seq 0 (Z.to_nat n)).

(** [l[a:a + n]] for indices that are not negative. *)
Definition slice {A} (l : list A) (a n : Z) : list A :=
  take (Z.to_nat n) (drop (Z.to_nat a) l).

(** The synthesized descriptor of a worker that produced none. *)
Definition error_result (issue_id branch err : string) : gmap string json :=
  list_to_map
    [("issue_id", JStr issue_id); ("status", JStr "error");
     ("branch", JStr branch); ("files_changed", JList []);
     ("duration_seconds", JInt 0); ("error", JStr err)].

(** [result.get("status") == "success"]. *)
Definition reported_success (res : gmap string json) : bool :=
  match res !! "status" with
  | Some (JStr s) => bool_decide (s = "success")
  | _ => false
  end.

(** [result.get("branch", _make_branch_name(issue_id))], as the
    argument git is given: spawning a process with an argument that is
    not a string raises [TypeError]. *)
Definition result_branch (issue_id : string) (res : gmap string json)
    : result string :=
  match res !! "branch" with
  | None => ok (_make_branch_name issue_id)
  | Some (JStr b) => ok b
  | Some _ => raise (TypeError "expected str, bytes or os.PathLike object")
  end.

(** The state [run_parallel_agent] carries through its phases: the
    local set [completed], the progress model, and the list [requeued]
    of issues to retry.  In the merge phase the local [tier_progress]
    is the object [progress.current_tier] refers to, so its updates are
    updates of [current_tier]. *)
Record Coord : Type := mkCoord {
  completed : gset string;
  progress : ParallelProgress;
  requeued : list (gmap string string)
}.

(** What the start of a wave must satisfy, for the issues of a tier and
    a bound on the workers: at most [max_workers] workers are awaited
    together, all with indices in one window of that width, and the
    index of each is the position of its issue in the tier. *)
Definition wave_event (tier_issues : list (gmap string string))
    (max_workers : Z) (ev : event) : Prop :=
  match ev with
  | EvGather tasks =>
      Z.of_nat (length tasks) ≤ max_workers ∧
      ∃ j : nat, ∀ t, t ∈ tasks →
        Z.of_nat j * max_workers ≤ task_worker_index t
          < (Z.of_nat j + 1) * max_workers ∧
        ∃ issue,
          tier_issues !! Z.to_nat (task_worker_index t) = Some issue ∧
          issue !! "id" = Some (task_issue_id t)
  | _ => True
  end.

(** The three sets of the progress model are the same in [p] and [p']. *)
Definition same_sets (p p' : ParallelProgress) : Prop :=
  completed_issues p = completed_issues p' ∧
  failed_issues p = failed_issues p' ∧
  requeued_issues p = requeued_issues p'.

(** The sets of the coordinator only grow from [st] to [st'], and the
    list of issues to retry is only extended. *)
Definition grows (st st' : Coord) : Prop :=
  completed st ⊆ completed st' ∧
  completed_issues (progress st) ⊆ completed_issues (progress st') ∧
  failed_issues (progress st) ⊆ failed_issues (progress st') ∧
  requeued_issues (progress st) ⊆ requeued_issues (progress st') ∧
  requeued st `prefix_of` requeued st'.

(** A retry never re-queues and never fails an issue: the completed
    sets grow, the re-queued set shrinks. *)
Definition retried (st st' : Coord) : Prop :=
  completed st ⊆ completed st' ∧
  completed_issues (progress st) ⊆ completed_issues (progress st') ∧
  requeued_issues (progress st') ⊆ requeued_issues (progress st).

(** How a run of the coordinator ends when it does not raise. *)
Inductive RunOutcome : Type :=
  | NoIssues
  | NotARepository
  | AllDone
  | Finished (st : Coord).

(** A merge of the branch [br] that exited with 0, run after the
    history [h] and recorded in [h']. *)
Definition merge_succeeded (env : Env) (project_dir : string)
    (h h' : list event) (br : string) : Prop :=
  ∃ h1 out err,
    h `prefix_of` h1 ∧
    (h1 ++ [EvGit project_dir (Merge.merge_args br)]) `prefix_of` h' ∧
    git_reply env h1 project_dir (Merge.merge_args br) = ok (0, out, err).

(** The issues of [iids] are completed in [st], locally or in the
    progress model, only if they were in [known] or a merge succeeded
    between [h] and [h']. *)
Definition completed_by_merge (env : Env) (project_dir : string)
    (known : gset string) (h h' : list event) (st : Coord) : Prop :=
  ∀ iid, iid ∈ completed st ∨ iid ∈ completed_issues (progress st) →
    iid ∈ known ∨ ∃ br, merge_succeeded env project_dir h h' br.

(** The invariant of a run that started at [h0]: the history has only
    been extended, and nothing is completed that was not in [known] or
    merged. *)
Definition tracks_merges (env : Env) (project_dir : string)
    (known : gset string) (h0 h : list event) (st : Coord) : Prop :=
  h0 `prefix_of` h ∧ completed_by_merge env project_dir known h0 h st.

(** The start of a wave that respects the order of the tiers of
    [plan]: the workers awaited together all work on issues of one
    tier, none of them in [skip], and the issues of the tiers before
    it are all in [closed]. *)
Definition tier_barrier (plan : Scheduler.ParallelPlan)
    (skip closed : gset string) (ev : event) : Prop :=
  match ev with
  | EvGather tasks =>
      ∃ T before after,
        Scheduler.tiers plan = before ++ T :: after ∧
        (∀ t iid, t ∈ before → iid ∈ Scheduler.issue_ids t → iid ∈ closed) ∧
        ∀ task, task ∈ tasks →
          task_issue_id task ∈ Scheduler.issue_ids T ∧
          task_issue_id task ∉ skip
  | _ => True
  end.

Section Coordinator.

Variable str_lower : string → string.
Variable env : Env.

Definition _build_worker_command (issue : gmap string string)
    (worktree_dir branch project_dir model result_path : string)
    : result (list string) :=
  iid ← getitem issue "id";
  ok [sys_executable env; "-m"; "worker";
      "--issue-id"; iid;
      "--issue-title"; default "" (issue !! "title");
      "--issue-category"; default "" (issue !! "category");
      "--issue-priority"; default "Medium" (issue !! "priority");
      "--worktree-dir"; worktree_dir;
      "--branch"; branch;
      "--project-dir"; project_dir;
      "--model"; model;
      "--result-path"; result_path].

(** [asyncio.gather] over the spawn tasks with [return_exceptions=True]:
    one outcome per task, in the order of the tasks. *)
Definition gather (tasks : list spawn_task) : M (list (result Z)) :=
  request (EvGather tasks) (λ h, ok (worker_reply env h <$> tasks)).

Definition load_worker_result (result_path : string)
    : M (option (gmap string json)) :=
  request (EvLoadResult result_path) (λ h, ok (result_reply env h result_path)).

(** The first loop over a wave: worktrees and commands.  [i] is the
    position [enumerate] gives the head of [wave]. *)
Fixpoint setup_wave (project_dir model results_dir : string) (wave_start i : Z)
    (wave : list (gmap string string)) (progress : ParallelProgress)
    (all_results : list (string * gmap string json))
    (spawn_tasks : list spawn_task)
    : M (ParallelProgress * list (string * gmap string json) * list spawn_task) :=
  match wave with
  | [] => mret (progress, all_results, spawn_tasks)
  | issue :: rest =>
      let worker_index := wave_start + i in
      iid ← lift (getitem issue "id");
      let branch := _make_branch_name iid in
      let worktree_dir := Merge.get_worktree_dir project_dir worker_index in
      let result_path := path_join results_dir (iid +:+ ".json") in
      created ← Merge.create_worktree env project_dir worktree_dir branch;
      if negb created then
        setup_wave project_dir model results_dir wave_start (i + 1) rest progress
          (dict_set iid (error_result iid branch "Failed to create worktree")
             all_results)
          spawn_tasks
      else
        let progress :=
          on_current_tier
            (set_workers
               (insert worker_index
                  (mkWorkerState worker_index iid
                     (default "" (issue !! "title")) "starting")))
            progress in
        cmd ← lift (_build_worker_command issue worktree_dir branch project_dir
                      model result_path);
        setup_wave project_dir model results_dir wave_start (i + 1) rest progress
          all_results (spawn_tasks ++ [mkSpawnTask cmd iid worker_index])
  end.

(** [isinstance(wr, Exception)], with the exception when it holds. *)
Definition caught_exception (wr : result Z) : option exn :=
  match wr with
  | inl e => if is_Exception e then Some e else None
  | inr _ => None
  end.

(** The second loop over a wave: [zip(wave, worker_results)] pairs the
    issues with the outcomes position by position and stops at the
    shorter of the two. *)
Fixpoint collect_wave (project_dir results_dir : string) (wave_start i : Z)
    (pairs : list (gmap string string * result Z))
    (progress : ParallelProgress)
    (all_results : list (string * gmap string json))
    : M (ParallelProgress * list (string * gmap string json)) :=
  match pairs with
  | [] => mret (progress, all_results)
  | (issue, wr) :: rest =>
      let worker_index := wave_start + i in
      iid ← lift (getitem issue "id");
      let result_path := path_join results_dir (iid +:+ ".json") in
      let worktree_dir := Merge.get_worktree_dir project_dir worker_index in
      entry ←
        match caught_exception wr with
        | Some e => mret (error_result iid (_make_branch_name iid) (exn_str e))
        | None =>
            loaded ← load_worker_result result_path;
            mret (match loaded with
                  | Some r =>
                      (* [if result:] an empty dictionary is falsy *)
                      if bool_decide (r = ∅)
                      then error_result iid (_make_branch_name iid)
                             "No result file produced"
                      else r
                  | None => error_result iid (_make_branch_name iid)
                              "No result file produced"
                  end)
        end;
      let all_results := dict_set iid entry all_results in
      _ ← Merge.remove_worktree env project_dir worktree_dir;
      let progress :=
        on_current_tier
          (set_workers
             (alter
                (set_status
                   (if reported_success (default ∅ (dict_get iid all_results))
                    then "done" else "failed"))
                worker_index))
          progress in
      collect_wave project_dir results_dir wave_start (i + 1) rest progress
        all_results
  end.

(** The loop over the waves of a tier. *)
Fixpoint run_waves (tier_issues : list (gmap string string))
    (project_dir model results_dir : string) (max_workers : Z)
    (starts : list Z) (progress : ParallelProgress)
    (all_results : list (string * gmap string json))
    : M (ParallelProgress * list (string * gmap string json)) :=
  match starts with
  | [] => mret (progress, all_results)
  | wave_start :: rest =>
      let wave := slice tier_issues wave_start max_workers in
      '(progress, all_results, spawn_tasks) ←
        setup_wave project_dir model results_dir wave_start 0 wave progress
          all_results [];
      match spawn_tasks with
      | [] =>
          run_waves tier_issues project_dir model results_dir max_workers rest
            progress all_results
      | _ :: _ =>
          worker_results ← gather spawn_tasks;
          '(progress, all_results) ←
            collect_wave project_dir results_dir wave_start 0
              (zip wave worker_results) progress all_results;
          run_waves tier_issues project_dir model results_dir max_workers rest
            progress all_results
      end
  end.

Definition _run_tier_parallel (tier_issues : list (gmap string string))
    (project_dir model : string) (max_workers : Z)
    (progress : ParallelProgress)
    : M (ParallelProgress * list (string * gmap string json)) :=
  let results_dir := Merge.get_results_dir project_dir in
  _ ← Merge.mkdir_parents results_dir;
  starts ← lift (py_range 0 (Z.of_nat (length tier_issues)) max_workers);
  run_waves tier_issues project_dir model results_dir max_workers starts
    progress [].

Definition _run_tier_sequential (tier_issues : list (gmap string string))
    (project_dir model : string) (progress : ParallelProgress)
    : M (ParallelProgress * list (string * gmap string json)) :=
  _run_tier_parallel tier_issues project_dir model 1 progress.

(** *** Phase 4: merging the branches of a tier *)

Definition merge_step (project_dir : string)
    (issue_lookup : gmap string (gmap string string))
    (entry : string * gmap string json) (st : Coord)
    (merge_results : list (string * bool))
    : M (Coord * list (string * bool)) :=
  let '(iid, res) := entry in
  if reported_success res then
    branch ← lift (result_branch iid res);
    mr ← Merge.merge_branch str_lower env project_dir branch;
    if Merge.success mr then
      _ ← Merge.delete_branch env project_dir branch;
      mret (mkCoord ({[ iid ]} ∪ completed st)
              (on_current_tier (add_completed_id iid)
                 (add_completed_issue iid (progress st)))
              (requeued st),
            dict_set iid true merge_results)
    else if Merge.conflict mr then
      issue ← lift (getitem issue_lookup iid);
      mret (mkCoord (completed st)
              (add_requeued_issue iid (progress st))
              (requeued st ++ [issue]),
            dict_set iid false merge_results)
    else
      mret (mkCoord (completed st)
              (on_current_tier (add_failed_id iid)
                 (add_failed_issue iid (progress st)))
              (requeued st),
            dict_set iid false merge_results)
  else
    (* Worker failed *)
    mret (mkCoord (completed st)
            (on_current_tier (add_failed_id iid)
               (add_failed_issue iid (progress st)))
            (requeued st),
          merge_results).

Fixpoint merge_phase (project_dir : string)
    (issue_lookup : gmap string (gmap string string))
    (results : list (string * gmap string json)) (st : Coord)
    (merge_results : list (string * bool))
    : M (Coord * list (string * bool)) :=
  match results with
  | [] => mret (st, merge_results)
  | entry :: rest =>
      '(st, merge_results) ←
        merge_step project_dir issue_lookup entry st merge_results;
      merge_phase project_dir issue_lookup rest st merge_results
  end.

(** *** Phase 3: the loop over the tiers

    The loop runs once per tier of the plan and asks the scheduler
    anew in every round. *)

Definition with_progress (f : ParallelProgress → ParallelProgress)
    (st : Coord) : Coord :=
  mkCoord (completed st) (f (progress st)) (requeued st).

Fixpoint execute_tiers (rounds : list Scheduler.ExecutionTier)
    (plan : Scheduler.ParallelPlan) (project_dir model : string)
    (max_workers : Z) (issue_lookup : gmap string (gmap string string))
    (st : Coord) : M Coord :=
  match rounds with
  | [] => mret st
  | _ :: rest =>
      match Scheduler.get_ready_issues plan (completed st) with
      | (_ :: _, Some current_tier) =>
          let tier_issue_ids :=
            filter (λ iid, iid ∉ completed st)
              (Scheduler.issue_ids current_tier) in
          let tier_issues := omap (λ iid, issue_lookup !! iid) tier_issue_ids in
          match tier_issues with
          | [] =>
              execute_tiers rest plan project_dir model max_workers
                issue_lookup (with_progress incr_tiers_completed st)
          | _ :: _ =>
              let tier_progress :=
                mkTierProgress (Scheduler.tier current_tier)
                  (Scheduler.description current_tier)
                  (Z.of_nat (length tier_issues)) ∅ ∅ ∅ in
              let pr := set_current_tier tier_progress (progress st) in
              '(pr, results) ←
                (if Scheduler.sequential current_tier
                    || bool_decide (length tier_issues = 1%nat)
                 then _run_tier_sequential tier_issues project_dir model pr
                 else _run_tier_parallel tier_issues project_dir model
                        max_workers pr);
              '(st, _) ←
                merge_phase project_dir issue_lookup results
                  (mkCoord (completed st) pr (requeued st)) [];
              execute_tiers rest plan project_dir model max_workers
                issue_lookup (with_progress incr_tiers_completed st)
          end
      | _ => mret st
      end
  end.

(** *** Phase 5: the sequential retry of the re-queued issues *)

Definition retry_step (project_dir model : string)
    (issue : gmap string string) (st : Coord) : M Coord :=
  iid ← lift (getitem issue "id");
  '(pr, result_dict) ←
    _run_tier_sequential [issue] project_dir model (progress st);
  let res := default ∅ (dict_get iid result_dict) in
  if reported_success res then
    branch ← lift (result_branch iid res);
    mr ← Merge.merge_branch str_lower env project_dir branch;
    if Merge.success mr then
      _ ← Merge.delete_branch env project_dir branch;
      mret (mkCoord ({[ iid ]} ∪ completed st)
              (discard_requeued_issue iid (add_completed_issue iid pr))
              (requeued st))
    else mret (mkCoord (completed st) pr (requeued st))
  else mret (mkCoord (completed st) pr (requeued st)).

Fixpoint retry_loop (project_dir model : string)
    (todo : list (gmap string string)) (st : Coord) : M Coord :=
  match todo with
  | [] => mret st
  | issue :: rest =>
      st ← retry_step project_dir model issue st;
      retry_loop project_dir model rest st
  end.

Definition sequential_retry (project_dir model : string) (st : Coord)
    : M Coord :=
  match requeued st with
  | [] => mret st
  | _ :: _ =>
      let retry_progress :=
        mkTierProgress 99 "sequential retry (merge conflicts)"
          (Z.of_nat (length (requeued st))) ∅ ∅ ∅ in
      retry_loop project_dir model (requeued st)
        (with_progress (set_current_tier retry_progress) st)
  end.

(** [str.splitlines] and the text of [Path(s)], as in the VCS driver. *)
Variable splitlines : string → list string.
Variable path_text : string → string.

(** Phase 2: the plan of an earlier run is used when there is one;
    otherwise a plan is built from the issues and saved. *)
Definition obtain_plan (issues : list (gmap string string)) (max_workers : Z)
    (now project_dir : string) (fs : gmap string json)
    : result (Scheduler.ParallelPlan * gmap string json) :=
  loaded ← Scheduler.load_plan project_dir fs;
  match loaded with
  | Some plan => ok (plan, fs)
  | None =>
      plan ← Scheduler.build_plan str_lower issues max_workers now;
      ok (plan, (Scheduler.save_plan plan project_dir fs).2)
  end.

(** [{issue["id"]: issue for issue in issues}]: of two issues with the
    same identifier the later one stays. *)
Fixpoint make_issue_lookup (issues : list (gmap string string))
    (acc : gmap string (gmap string string))
    : result (gmap string (gmap string string)) :=
  match issues with
  | [] => ok acc
  | issue :: rest =>
      iid ← getitem issue "id";
      make_issue_lookup rest (<[iid := issue]> acc)
  end.

(** The state the loop over the tiers starts from: the issues the
    tracker reports as closed, in the local set and in a copy of it in
    the progress model. *)
Definition initial_state (plan : Scheduler.ParallelPlan)
    (closed : gset string) : Coord :=
  mkCoord closed
    (mkParallelProgress (Scheduler.total_issues plan) closed ∅ ∅ None 0
       (Z.of_nat (length (Scheduler.tiers plan))))
    [].

(** [run_parallel_agent] from the issues of the project state on.
    Phase 1, which makes sure through the modules [progress] and
    [agent] that the project is initialised, is represented by what it
    yields: the list [issues] of the project state.  [fs] holds the
    plan documents, [t] is the tracker, [now] the reading of the clock
    a new plan is stamped with.  After the sweep of the tracker comes
    the call of [print_status_summary], which can raise.  The plan
    document a run has written before it raises is not reported. *)
Definition run_parallel_agent (issues : list (gmap string string))
    (project_dir model : string) (max_workers : Z) (now : string)
    (fs : gmap string json) (t : LinearStatus.Tracker)
    : M (RunOutcome * gmap string json) :=
  if bool_decide (max_workers < 1 ∨ 5 < max_workers) then
    lift (raise (ValueError ("max_workers must be 1-5, got "
                             +:+ pretty max_workers)))
  else
    _ ← Merge.mkdir_parents project_dir;
    match issues with
    | [] => mret (NoIssues, fs)
    | _ :: _ =>
        is_repo ← Merge.ensure_git_initialized env project_dir;
        if negb is_repo then mret (NotARepository, fs)
        else
          '(plan, fs) ← lift (obtain_plan issues max_workers now project_dir fs);
          issue_lookup ← lift (make_issue_lookup issues ∅);
          all_identifiers ←
            lift (traverse (λ issue : gmap string string, getitem issue "id")
                    issues);
          '(finished, cancelled, status_map) ←
            lift (LinearStatus.check_issue_statuses t all_identifiers);
          _ ← lift (LinearStatus.print_status_summary status_map finished
                      cancelled);
          (* Also skip cancelled issues *)
          let completed := finished ∪ cancelled in
          let remaining_count :=
            Scheduler.total_issues plan - Z.of_nat (size completed) in
          if bool_decide (remaining_count = 0) then mret (AllDone, fs)
          else
            st ← execute_tiers (Scheduler.tiers plan) plan
                   project_dir model max_workers issue_lookup
                   (initial_state plan completed);
            st ← sequential_retry project_dir model st;
            _ ← Merge.cleanup_worktrees env splitlines path_text project_dir;
            mret (Finished st, fs)
    end.

End Coordinator.

(** A descriptor the merge phase takes up: it reports success, and the
    branch it names, if it names one, is a text. *)
Definition mergeable (res : gmap string json) : Prop :=
  reported_success res = true ∧
  match res !! "branch" with
  | Some (JStr _) | None => True
  | Some _ => False
  end.

(** A world in which nothing goes wrong under [project_dir]: every git
    command exits with 0, no worker is handed back as an exception,
    and every result file holds a descriptor that can be merged. *)
Definition everything_works (env : Env) (project_dir : string) : Prop :=
  (∀ h args, ∃ out err, git_reply env h project_dir args = ok (0, out, err)) ∧
  (∀ h task, caught_exception (worker_reply env h task) = None) ∧
  (∀ h path, ∃ res, result_reply env h path = Some res ∧ mergeable res).

End Parallel.

(** ** queue_runner.py *)

Module QueueRunner.

Local Open Scope Z_scope.

Inductive JobStatus : Type :=
  | pending
  | running
  | completed
  | failed
  | interrupted.

#[global] Instance JobStatus_eq_dec : EqDecision JobStatus.
Proof. solve_decision. Defined.

(** [duration_seconds] is a float; it is kept as the text of the
    rounded reading. *)
Record QueueJob : Type := mkQueueJob {
  id : string;
  spec_path : string;
  model : string;
  max_iterations : Z;
  parallel : bool;
  max_workers : Z;
  status : JobStatus;
  project_dir : option string;
  exit_code : option Z;
  error : option string;
  created_at : string;
  started_at : option string;
  completed_at : option string;
  duration_seconds : option string
}.

Record QueueState : Type := mkQueueState {
  version : Z;
  jobs : list QueueJob
}.

(** What a child process does: it exits with a code after some time,
    or [subprocess.run] raises (a user interrupt included). *)
Inductive child_outcome : Type :=
  | Exited (returncode : Z) (elapsed : string)
  | Raised (e : exn).

(** The world of the queue driver: the files by canonical name with
    their bytes, the document stored in the queue file (if the file
    exists), and the number of readings taken of the wall clock. *)
Record QWorld : Type := mkQWorld {
  files : gmap string string;
  queue_file : option QueueState;
  clock : nat
}.

Record QEnv : Type := mkQEnv {
  (** [Path(__file__).parent] and [sys.executable]. *)
  HARNESS_DIR : string;
  sys_executable : string;
  (** [Path.resolve]: the canonical name of the file a path denotes. *)
  resolve : string → string;
  (** The text of the n-th reading of the wall clock. *)
  utcnow : nat → string;
  (** [subprocess.run(cmd, cwd=HARNESS_DIR)]: how the child ends and
      the files it leaves, from the files it finds. *)
  run_child : list string → gmap string string → child_outcome * gmap string string
}.

(** Field updates of a job. *)
Definition set_failed (msg : string) (j : QueueJob) : QueueJob :=
  mkQueueJob (id j) (spec_path j) (model j) (max_iterations j) (parallel j)
    (max_workers j) failed (project_dir j) (exit_code j) (Some msg)
    (created_at j) (started_at j) (completed_at j) (duration_seconds j).

Definition set_status (s : JobStatus) (j : QueueJob) : QueueJob :=
  mkQueueJob (id j) (spec_path j) (model j) (max_iterations j) (parallel j)
    (max_workers j) s (project_dir j) (exit_code j) (error j)
    (created_at j) (started_at j) (completed_at j) (duration_seconds j).

Definition set_project_dir (d : string) (j : QueueJob) : QueueJob :=
  mkQueueJob (id j) (spec_path j) (model j) (max_iterations j) (parallel j)
    (max_workers j) (status j) (Some d) (exit_code j) (error j)
    (created_at j) (started_at j) (completed_at j) (duration_seconds j).

Definition set_started_at (t : string) (j : QueueJob) : QueueJob :=
  mkQueueJob (id j) (spec_path j) (model j) (max_iterations j) (parallel j)
    (max_workers j) (status j) (project_dir j) (exit_code j) (error j)
    (created_at j) (Some t) (completed_at j) (duration_seconds j).

Definition set_completed_at (t : string) (j : QueueJob) : QueueJob :=
  mkQueueJob (id j) (spec_path j) (model j) (max_iterations j) (parallel j)
    (max_workers j) (status j) (project_dir j) (exit_code j) (error j)
    (created_at j) (started_at j) (Some t) (duration_seconds j).

Definition set_exit (rc : Z) (elapsed : string) (j : QueueJob) : QueueJob :=
  mkQueueJob (id j) (spec_path j) (model j) (max_iterations j) (parallel j)
    (max_workers j) (status j) (project_dir j) (Some rc) (error j)
    (created_at j) (started_at j) (completed_at j) (Some elapsed).

(** [Path.is_absolute] on a POSIX path. *)
Definition is_absolute (p : string) : bool := String.prefix "/" p.

Section Driver.

Variable env : QEnv.

Definition QUEUE_DIR : string := path_join (HARNESS_DIR env) "data".
Definition QUEUE_FILE : string := path_join QUEUE_DIR "queue.json".
Definition APP_SPEC_PATH : string :=
  path_join (path_join (HARNESS_DIR env) "prompts") "app_spec.txt".

(** [APP_SPEC_PATH.with_suffix(".txt.bak")]. *)
Definition backup_path : string :=
  path_join (path_join (HARNESS_DIR env) "prompts") "app_spec.txt.bak".

(** *** The file system *)

Definition path_exists (p : string) (fs : gmap string string) : bool :=
  bool_decide (is_Some (fs !! resolve env p)).

(** [shutil.copy2]: the source must exist and be another file than the
    destination. *)
Definition copy2 (src dst : string) (fs : gmap string string)
    : result (gmap string string) :=
  match fs !! resolve env src with
  | None => raise (OSError "No such file or directory")
  | Some bytes =>
      if bool_decide (resolve env src = resolve env dst)
      then raise (OSError "are the same file")
      else ok (<[resolve env dst := bytes]> fs)
  end.

(** [shutil.move] of a file that exists. *)
Definition move (src dst : string) (fs : gmap string string)
    : gmap string string :=
  match fs !! resolve env src with
  | None => fs
  | Some bytes =>
      if bool_decide (resolve env src = resolve env dst) then fs
      else <[resolve env dst := bytes]> (delete (resolve env src) fs)
  end.

(** [Path.unlink(missing_ok=True)]. *)
Definition unlink (p : string) (fs : gmap string string) : gmap string string :=
  delete (resolve env p) fs.

(** [datetime.now(timezone.utc).isoformat()]. *)
Definition now_iso (w : QWorld) : string * QWorld :=
  (utcnow env (clock w), mkQWorld (files w) (queue_file w) (S (clock w))).

Definition with_files (fs : gmap string string) (w : QWorld) : QWorld :=
  mkQWorld fs (queue_file w) (clock w).

(** *** Persistence *)

Definition load_queue (w : QWorld) : QueueState :=
  match queue_file w with
  | None => mkQueueState 1 []
  | Some state => state
  end.

Definition save_queue (state : QueueState) (w : QWorld) : QWorld :=
  mkQWorld (files w) (Some state) (clock w).

(** *** Helpers *)

Definition processable (j : QueueJob) : bool :=
  bool_decide (status j ∈ [pending; interrupted; running]).

(** The jobs eligible for processing.  The Python list holds references
    to the job objects of [state.jobs]; here they are the positions of
    those jobs. *)
Definition _get_processable_jobs (state : QueueState) : list nat :=
  (λ ij : nat * QueueJob, ij.1) <$>
    filter (λ ij : nat * QueueJob, processable ij.2 = true)
      (imap (λ i j, (i, j)) (jobs state)).

Definition _build_command (job : QueueJob) : list string :=
  [sys_executable env;
   path_join (HARNESS_DIR env) "autonomous_agent_demo.py";
   "--project-dir"; id job;
   "--model"; model job;
   "--max-iterations"; pretty (max_iterations job)]
  ++ (if parallel job
      then ["--parallel"; "--max-workers"; pretty (max_workers job)]
      else []).

Definition spec_source_of (path : string) : string :=
  if is_absolute path then path else path_join (HARNESS_DIR env) path.

(** *** Running one job *)

(** The swap at the head of the [try] block: what was raised if
    anything, the files as they are left, and [spec_swapped]. *)
Definition swap_spec (spec_source : string) (fs : gmap string string)
    : option exn * gmap string string * bool :=
  if bool_decide (resolve env spec_source ≠ resolve env APP_SPEC_PATH) then
    match (if path_exists APP_SPEC_PATH fs
           then copy2 APP_SPEC_PATH backup_path fs else ok fs) with
    | inl e => (Some e, fs, false)
    | inr fs1 =>
        match copy2 spec_source APP_SPEC_PATH fs1 with
        | inl e => (Some e, fs1, false)
        | inr fs2 => (None, fs2, true)
        end
    end
  else (None, fs, false).

(** The [finally] block. *)
Definition restore_spec (spec_swapped : bool) (fs : gmap string string)
    : gmap string string :=
  if spec_swapped && path_exists backup_path fs then
    move backup_path APP_SPEC_PATH fs
  else if spec_swapped && negb (path_exists backup_path fs) then
    unlink APP_SPEC_PATH fs
  else fs.

(** The two [except] clauses: the job as it is left, and the exception
    that is raised again. *)
Definition handle_exception (e : exn) (job : QueueJob) (w : QWorld)
    : QueueJob * option exn * QWorld :=
  let '(t, w) := now_iso w in
  if is_Exception e then
    (set_completed_at t (set_failed (exn_str e) job), None, w)
  else
    (set_completed_at t (set_status interrupted job), Some e, w).

(** The end of the [try] block after a normal exit of the child. *)
Definition record_exit (rc : Z) (elapsed : string) (job : QueueJob) (w : QWorld)
    : QueueJob * QWorld :=
  let '(t, w) := now_iso w in
  let job := set_completed_at t (set_exit rc elapsed job) in
  let job :=
    if bool_decide (rc = 0) then set_status completed job
    else if bool_decide (rc = 130) then set_status interrupted job
    else set_failed ("Process exited with code " +:+ pretty rc) job in
  (job, w).

Definition _run_job (job : QueueJob) (dry_run : bool) (w : QWorld)
    : QueueJob * option exn * QWorld :=
  let spec_source := spec_source_of (spec_path job) in
  if negb (path_exists spec_source (files w)) then
    (set_failed ("Spec file not found: " +:+ spec_source) job, None, w)
  else
    let job :=
      set_project_dir
        (path_join (path_join (HARNESS_DIR env) "generations") (id job)) job in
    let cmd := _build_command job in
    if dry_run then (job, None, w)
    else
      let '(swap_raised, fs, spec_swapped) := swap_spec spec_source (files w) in
      let w := with_files fs w in
      let '(job, raised, w) :=
        match swap_raised with
        | Some e => handle_exception e job w
        | None =>
            let '(t, w) := now_iso w in
            let job := set_started_at t (set_status running job) in
            match run_child env cmd (files w) with
            | (Exited rc elapsed, fs') =>
                let '(job, w) := record_exit rc elapsed job (with_files fs' w) in
                (job, None, w)
            | (Raised e, fs') => handle_exception e job (with_files fs' w)
            end
        end in
      (job, raised, with_files (restore_spec spec_swapped (files w)) w).

(** *** Commands *)

Record AddArgs : Type := mkAddArgs {
  arg_spec_path : string;
  arg_id : string;
  arg_model : string;
  arg_max_iterations : Z;
  arg_parallel : bool;
  arg_max_workers : Z
}.

Definition cmd_add (args : AddArgs) (w : QWorld) : Z * QWorld :=
  let spec := spec_source_of (arg_spec_path args) in
  if negb (path_exists spec (files w)) then (1, w)
  else
    let state := load_queue w in
    let existing_ids : gset string := list_to_set (id <$> jobs state) in
    if bool_decide (arg_id args ∈ existing_ids) then (1, w)
    else
      let '(t, w) := now_iso w in
      let job :=
        mkQueueJob (arg_id args) (arg_spec_path args) (arg_model args)
          (arg_max_iterations args) (arg_parallel args) (arg_max_workers args)
          pending None None None t None None None in
      (0, save_queue (mkQueueState (version state) (jobs state ++ [job])) w).

(** One round of the loop of [cmd_start] on the job at position [i]:
    the job is run and replaced in place, and the [finally] clause
    saves the queue unless this is a dry run. *)
Definition start_step (dry_run : bool) (i : nat) (state : QueueState)
    (w : QWorld) : QueueState * option exn * QWorld :=
  match jobs state !! i with
  | None => (state, None, w)
  | Some job =>
      let '(job, raised, w) := _run_job job dry_run w in
      let state := mkQueueState (version state) (<[i := job]> (jobs state)) in
      (state, raised, if dry_run then w else save_queue state w)
  end.

Fixpoint start_loop (dry_run : bool) (todo : list nat) (state : QueueState)
    (w : QWorld) : QueueState * option exn * QWorld :=
  match todo with
  | [] => (state, None, w)
  | i :: rest =>
      match start_step dry_run i state w with
      | (state, None, w) => start_loop dry_run rest state w
      | stopped => stopped
      end
  end.

(** The exit code, or the exception that leaves the command. *)
Definition cmd_start (dry_run : bool) (w : QWorld) : result Z * QWorld :=
  let state := load_queue w in
  match _get_processable_jobs state with
  | [] => (ok 0, w)
  | todo =>
      match start_loop dry_run todo state w with
      | (_, None, w) => (ok 0, w)
      | (_, Some KeyboardInterrupt, w) => (ok 130, w)
      | (_, Some e, w) => (raise e, w)
      end
  end.

(** The arguments of [status]: [--id] and [--json]. *)
Record StatusArgs : Type := mkStatusArgs {
  status_id : option string;
  status_json : bool
}.

(** The ["summary"] object of the JSON output. *)
Record Summary : Type := mkSummary {
  sum_total : Z;
  sum_pending : Z;
  sum_running : Z;
  sum_completed : Z;
  sum_failed : Z;
  sum_interrupted : Z
}.

(** [sum(1 for j in jobs if j.status == s)]. *)
Definition count_status (s : JobStatus) (js : list QueueJob) : Z :=
  Z.of_nat (length (filter (λ j, status j = s) js)).

(** What [status] prints: the JSON document, or the text listing with
    its head line and one entry per job shown. *)
Inductive StatusOutput : Type :=
  | EmptyJson
  | EmptyText
  | NotFound (job_id : string)
  | JsonDocument (shown : list QueueJob) (summary : Summary)
  | TextListing (total : Z) (shown : list QueueJob).

Definition cmd_status (args : StatusArgs) (w : QWorld) : Z * StatusOutput :=
  let state := load_queue w in
  match jobs state with
  | [] => (0, if status_json args then EmptyJson else EmptyText)
  | _ :: _ =>
      (* [if args.id:] holds for an identifier that is not empty *)
      let filtered :=
        match status_id args with
        | None | Some EmptyString => None
        | Some job_id => Some (job_id, filter (λ j, id j = job_id) (jobs state))
        end in
      match filtered with
      | Some (job_id, []) => (1, NotFound job_id)
      | _ =>
          let shown := default (jobs state) (snd <$> filtered) in
          if status_json args then
            (0, JsonDocument shown
                  {| sum_total := Z.of_nat (length (jobs state));
                     sum_pending := count_status pending (jobs state);
                     sum_running := count_status running (jobs state);
                     sum_completed := count_status completed (jobs state);
                     sum_failed := count_status failed (jobs state);
                     sum_interrupted := count_status interrupted (jobs state) |})
          else (0, TextListing (Z.of_nat (length (jobs state))) shown)
      end
  end.

(** The statuses a job can be left with when it has been run. *)
Definition settled (job : QueueJob) : Prop :=
  status job = completed ∨ status job = failed ∨ status job = interrupted.

(** The sub-command chosen on the command line, with its arguments. *)
Inductive Command : Type :=
  | Add (args : AddArgs)
  | Start (dry_run : bool)
  | Status (args : StatusArgs).

(** [main] after the parse: the exit code of the process, or the
    exception that ends it, and the world it leaves. *)
Definition main (c : Command) (w : QWorld) : result Z * QWorld :=
  match c with
  | Add args => let '(rc, w) := cmd_add args w in (ok rc, w)
  | Start dry_run => cmd_start dry_run w
  | Status args => (ok (cmd_status args w).1, w)
  end.

(** One invocation of the program after the other, each on the world
    the one before has left. *)
Definition run_commands (cs : list Command) (w : QWorld) : QWorld :=
  foldl (λ w c, (main c w).2) w cs.

End Driver.

End QueueRunner.

(** ** Concrete inputs

    The scenarios of the specification and the inputs at which the
    properties below are exercised. *)

Module Scenarios.

Local Open Scope Z_scope.

Definition issue (iid category : string) : gmap string string :=
  <["id" := iid]> (<["category" := category]> ∅).

(** S1: plain tier sequencing. *)
Definition s1_issues : list (gmap string string) :=
  [issue "T-1" "setup"; issue "T-2" "setup"; issue "T-3" "backend";
   issue "T-4" "frontend"; issue "T-5" "a2ui-catalog";
   issue "T-6" "integration"].

Definition s1_plan : Scheduler.ParallelPlan :=
  Scheduler.mkParallelPlan
    [Scheduler.mkExecutionTier 1 ["T-1"; "T-2"]
       "setup (project foundation)" true;
     Scheduler.mkExecutionTier 2 ["T-3"] "backend (API and data layer)" false;
     Scheduler.mkExecutionTier 3 ["T-4"; "T-5"]
       "frontend + a2ui-catalog (UI components)" false;
     Scheduler.mkExecutionTier 7 ["T-6"] "integration (cross-cutting)" true]
    2 "2026-01-01T00:00:00+00:00".

(** Two issues that share an identifier; the category of the first is
    capitalised. *)
Definition shared_id_issues : list (gmap string string) :=
  [issue "A" "Setup"; issue "A" "backend"].

Definition shared_id_plan : Scheduler.ParallelPlan :=
  Scheduler.mkParallelPlan
    [Scheduler.mkExecutionTier 1 ["A"] "setup (project foundation)" true;
     Scheduler.mkExecutionTier 2 ["A"] "backend (API and data layer)" false]
    2 "2026-01-01T00:00:00+00:00".

(** A git whose commands all fail without a word, as a merge does when
    a hook rejects it silently or the process is killed. *)
Definition silent_git : Env :=
  {| sys_executable := "python";
     git_reply := λ _ _ _, ok (1, "", "");
     exists_reply := λ _ _, false;
     rmtree_reply := λ _ _, None;
     worker_reply := λ _ _, ok 0;
     result_reply := λ _ _, None |}.

(** A world in which everything works: git succeeds, no worktree is
    left over, and every worker writes a descriptor that reports
    success. *)
Definition success_descriptor : gmap string json :=
  {[ "status" := JStr "success" ]}.

Definition working_env : Env :=
  {| sys_executable := "python";
     git_reply := λ _ _ _, ok (0, "", "");
     exists_reply := λ _ _, false;
     rmtree_reply := λ _ _, None;
     worker_reply := λ _ _, ok 0;
     result_reply := λ _ _, Some success_descriptor |}.

(** S3: the same world, except that the first merge of a run meets a
    conflicting change on the main line. *)
Definition s3_env : Env :=
  {| sys_executable := "python";
     git_reply := λ h _ args,
       match args, merges_attempted h with
       | "merge" :: "--no-ff" :: _, [] =>
           ok (1, "CONFLICT (content): Merge conflict in README.md", "")
       | _, _ => ok (0, "", "")
       end;
     exists_reply := λ _ _, false;
     rmtree_reply := λ _ _, None;
     worker_reply := λ _ _, ok 0;
     result_reply := λ _ _, Some success_descriptor |}.

Definition issue_tx : gmap string string := issue "T-X" "feature".

Definition s3_start : Parallel.Coord :=
  Parallel.mkCoord ∅
    (Progress.mkParallelProgress 1 ∅ ∅ ∅
       (Some (Progress.mkTierProgress 4 "feature (integration features)" 1
                ∅ ∅ ∅))
       0 1)
    [].

(** A world in which the worktree of F-1 cannot be created. *)
Definition no_worktree_for_f1 : Env :=
  {| sys_executable := "python";
     git_reply := λ _ _ args,
       match args with
       | ["worktree"; "add"; "-b"; br; _] =>
           if bool_decide (br = "parallel/F-1")
           then ok (1, "", "fatal: could not create work tree dir")
           else ok (0, "", "")
       | _ => ok (0, "", "")
       end;
     exists_reply := λ _ _, false;
     rmtree_reply := λ _ _, None;
     worker_reply := λ _ _, ok 0;
     result_reply := λ _ path,
       if bool_decide (path = "proj/.workers/results/F-2.json")
       then Some success_descriptor else None |}.

(** Two issues of one tier, for the world above. *)
Definition f_issues : list (gmap string string) :=
  [issue "F-1" "frontend"; issue "F-2" "frontend"].

(** S4: a tier of five issues. *)
Definition s4_issues : list (gmap string string) :=
  [issue "F-1" "frontend"; issue "F-2" "frontend"; issue "F-3" "frontend";
   issue "F-4" "frontend"; issue "F-5" "frontend"].

(** A tracker that knows T-1 as done and T-4 as cancelled, fails on
    T-2, and reports T-3 as not started. *)
Definition tracker_reply (state_name state_type : string) : json :=
  JDict {[ "issue" :=
    JDict {[ "state" :=
      JDict (<["name" := JStr state_name]> {[ "type" := JStr state_type ]}) ]} ]}.

Definition s2_tracker : LinearStatus.Tracker :=
  {| LinearStatus.ARCADE_API_KEY := Some "key";
     LinearStatus.execute := λ _ iid,
       if bool_decide (iid = "T-1") then ok (tracker_reply "Done" "completed")
       else if bool_decide (iid = "T-4") then ok (tracker_reply "Canceled" "canceled")
       else if bool_decide (iid = "T-2") then raise (RuntimeError "API error")
       else ok (tracker_reply "Todo" "unstarted") |}.

(** The queue driver in a harness directory [/h], without symbolic
    links, whose child process exits with a given code and leaves the
    files as it found them. *)
Definition queue_env (rc : Z) : QueueRunner.QEnv :=
  {| QueueRunner.HARNESS_DIR := "/h";
     QueueRunner.sys_executable := "python";
     QueueRunner.resolve := λ p, p;
     QueueRunner.utcnow := λ n, "t" +:+ pretty n;
     QueueRunner.run_child := λ _ fs, (QueueRunner.Exited rc "1.0", fs) |}.

Definition job_b : QueueRunner.QueueJob :=
  QueueRunner.mkQueueJob "app-b" "specs/b.txt" "haiku" 20 false 2
    QueueRunner.pending None None None "t" None None None.

(** S6: the canonical spec holds A, the job's spec holds B. *)
Definition s6_world : QueueRunner.QWorld :=
  QueueRunner.mkQWorld
    (<["/h/prompts/app_spec.txt" := "A"]> {[ "/h/specs/b.txt" := "B" ]})
    (Some (QueueRunner.mkQueueState 1 [job_b])) 0.

(** No canonical spec, but a backup file left behind by an earlier
    run. *)
Definition stale_backup_world : QueueRunner.QWorld :=
  QueueRunner.mkQWorld
    (<["/h/prompts/app_spec.txt.bak" := "stale"]> {[ "/h/specs/b.txt" := "B" ]})
    (Some (QueueRunner.mkQueueState 1 [job_b])) 0.

(** A tracker that reports a list where the state type should be. *)
Definition list_state_tracker : LinearStatus.Tracker :=
  {| LinearStatus.ARCADE_API_KEY := Some "key";
     LinearStatus.execute := λ _ _,
       ok (JDict {[ "issue" :=
             JDict {[ "state" := JDict {[ "type" := JList [] ]} ]} ]}) |}.

(** A tracker that answers the first call with a finished issue and
    fails at every later call. *)
Definition flaky_tracker : LinearStatus.Tracker :=
  {| LinearStatus.ARCADE_API_KEY := Some "key";
     LinearStatus.execute := λ n _,
       match n with
       | O => ok (tracker_reply "Done" "completed")
       | S _ => raise (RuntimeError "API error")
       end |}.

(** A tracker whose first call the user interrupts. *)
Definition interrupted_tracker : LinearStatus.Tracker :=
  {| LinearStatus.ARCADE_API_KEY := Some "key";
     LinearStatus.execute := λ _ _, raise KeyboardInterrupt |}.


(** The issues of S1 by their identifiers. *)
Definition s1_lookup : gmap string (gmap string string) :=
  list_to_map
    [("T-1", issue "T-1" "setup"); ("T-2", issue "T-2" "setup");
     ("T-3", issue "T-3" "backend"); ("T-4", issue "T-4" "frontend");
     ("T-5", issue "T-5" "a2ui-catalog"); ("T-6", issue "T-6" "integration")].

(** A repository with the main worktree and one worker worktree left
    over; every directory asked about exists. *)
Definition leftover_env : Env :=
  {| sys_executable := "python";
     git_reply := λ _ _ args,
       match args with
       | ["worktree"; "list"; "--porcelain"] =>
           ok (0, "worktree /repo" +:+ LF +:+ "HEAD 1a2b" +:+ LF +:+ LF
                  +:+ "worktree /repo/.workers/w0" +:+ LF +:+ "HEAD 3c4d", "")
       | _ => ok (0, "", "")
       end;
     exists_reply := λ _ _, true;
     rmtree_reply := λ _ _, None;
     worker_reply := λ _ _, ok 0;
     result_reply := λ _ _, None |}.

End Scenarios.

(** * Properties *)

(** ** Python values *)

Module PyFacts.

Lemma traverse_fmap {A B} (f : A → result B) (g : B → A) (l : list B) :
  (∀ x, f (g x) = ok x) → traverse f (g <$> l) = ok l.
Proof.
  intros Hfg. induction l as [|x l IH]; [done|].
  cbn. rewrite Hfg. cbn. by rewrite IH.
Qed.

Lemma bind_ok {A B} (m : result A) (f : A → result B) (b : B) :
  m ≫= f = ok b → ∃ a, m = ok a ∧ f a = ok b.
Proof. destruct m as [e|a]; [done|]. intros H. by exists a. Qed.

End PyFacts.

(** ** The scheduler *)

Module SchedulerFacts.

Import Scheduler PyFacts.
Local Open Scope Z_scope.

(** *** Readiness *)

Lemma filter_not_completed_nil (C : gset string) (ids : list string) :
  filter (λ iid, iid ∉ C) ids = [] ↔ ∀ iid, iid ∈ ids → iid ∈ C.
Proof.
  split.
  - intros Hnil iid Hin. destruct (decide (iid ∈ C)) as [|Hout]; [done|].
    by destruct (filter_nil_not_elem_of _ _ iid Hnil Hout).
  - intros Hall. induction ids as [|iid ids IH]; [done|].
    rewrite filter_cons. destruct (decide (iid ∉ C)) as [Hout|_].
    + destruct Hout. apply Hall. by left.
    + apply IH. intros iid' Hin. apply Hall. by right.
Qed.

Lemma get_ready_tiers_spec (ts : list ExecutionTier) (C : gset string) :
  match get_ready_tiers ts C with
  | (ready, Some T) =>
      ∃ before after,
        ts = before ++ T :: after ∧
        (∀ t, t ∈ before → ∀ iid, iid ∈ issue_ids t → iid ∈ C) ∧
        ready = filter (λ iid, iid ∉ C) (issue_ids T) ∧
        ready ≠ []
  | (ready, None) =>
      ready = [] ∧ ∀ t, t ∈ ts → ∀ iid, iid ∈ issue_ids t → iid ∈ C
  end.
Proof.
  induction ts as [|t ts IH]; cbn.
  - split; [done|]. intros t Ht. by apply elem_of_nil in Ht.
  - destruct (filter (λ iid, iid ∉ C) (issue_ids t)) as [|iid rest] eqn:Hf.
    + pose proof (proj1 (filter_not_completed_nil _ _) Hf) as Hin.
      destruct (get_ready_tiers ts C) as [ready [T|]].
      * destruct IH as (before & after & -> & Hbefore & Hready & Hne).
        exists (t :: before), after. split_and!; [done| |done|done].
        intros t' [->|Ht']%elem_of_cons; [done|by apply Hbefore].
      * destruct IH as [-> Hall]. split; [done|].
        intros t' [->|Ht']%elem_of_cons; [done|by apply Hall].
    + exists [], ts. split_and!; [done| |by rewrite Hf|done].
      intros t' Ht'. by apply elem_of_nil in Ht'.
Qed.

(** C3.  [get_ready_issues] returns the first tier, in the order of the
    plan, that has an identifier outside the completed set [C],
    together with exactly the identifiers of that tier outside [C], in
    the tier's order; every tier before it lies within [C]; when the
    tiers of the plan are in index order, so does every tier of smaller
    index; and it returns the empty list and no tier exactly when every
    tier lies within [C]. *)
Theorem get_ready_issues_spec (plan : ParallelPlan) (C : gset string) :
  match get_ready_issues plan C with
  | (ready, Some T) =>
      (∃ before after,
         tiers plan = before ++ T :: after ∧
         ∀ t, t ∈ before → ∀ iid, iid ∈ issue_ids t → iid ∈ C) ∧
      (∃ iid, iid ∈ issue_ids T ∧ iid ∉ C) ∧
      ready = filter (λ iid, iid ∉ C) (issue_ids T) ∧
      (StronglySorted Z.le (tier <$> tiers plan) →
       ∀ t, t ∈ tiers plan → tier t < tier T →
            ∀ iid, iid ∈ issue_ids t → iid ∈ C)
  | (ready, None) =>
      ready = [] ∧ ∀ t, t ∈ tiers plan → ∀ iid, iid ∈ issue_ids t → iid ∈ C
  end ∧
  ((∀ t, t ∈ tiers plan → ∀ iid, iid ∈ issue_ids t → iid ∈ C) →
   get_ready_issues plan C = ([], None)).
Proof.
  unfold get_ready_issues.
  pose proof (get_ready_tiers_spec (tiers plan) C) as H.
  destruct (get_ready_tiers (tiers plan) C) as [ready [T|]].
  - destruct H as (before & after & Hts & Hbefore & Hready & Hne).
    assert (∃ iid, iid ∈ issue_ids T ∧ iid ∉ C) as Hex.
    { destruct ready as [|iid ready]; [done|]. exists iid.
      apply and_comm, (list_elem_of_filter (λ iid, iid ∉ C)).
      rewrite <- Hready. by left. }
    split.
    + split_and!; [by exists before, after|done|done|].
      intros Hsorted t Ht Hlt iid Hiid.
      rewrite Hts in Ht, Hsorted.
      apply elem_of_app in Ht as [Ht|Ht]; [by apply (Hbefore t)|].
      rewrite fmap_app, fmap_cons in Hsorted.
      apply StronglySorted_app_1_r in Hsorted.
      apply StronglySorted_inv in Hsorted as [_ Hall].
      apply elem_of_cons in Ht as [->|Ht]; [lia|].
      rewrite Forall_forall in Hall.
      assert (tier T ≤ tier t); [|lia].
      apply Hall, list_elem_of_fmap. by exists t.
    + intros Hall. destruct Hex as (iid & Hin & Hout). destruct Hout.
      apply (Hall T); [|done]. rewrite Hts. apply elem_of_app. right. by left.
  - destruct H as [-> Hall]. by split.
Qed.

Lemma get_ready_tiers_skip (before after : list ExecutionTier) (C : gset string) :
  (∀ t, t ∈ before → ∀ iid, iid ∈ issue_ids t → iid ∈ C) →
  get_ready_tiers (before ++ after) C = get_ready_tiers after C.
Proof.
  induction before as [|t before IH]; intros Hdone; [done|].
  cbn. rewrite (proj2 (filter_not_completed_nil C (issue_ids t))).
  - apply IH. intros t' Ht'. apply Hdone. by right.
  - apply Hdone. by left.
Qed.

(** X1.  The scheduler stays at a tier until the identifiers it handed out
    are completed, and moves past it once they are. *)
Theorem get_ready_issues_advance (plan : ParallelPlan) (C : gset string)
    (ready : list string) (T : ExecutionTier) :
  get_ready_issues plan C = (ready, Some T) →
  ∃ before after,
    tiers plan = before ++ T :: after ∧
    (∀ C', C ⊆ C' → (∃ iid, iid ∈ ready ∧ iid ∉ C') →
       get_ready_issues plan C'
       = (filter (λ iid, iid ∉ C') (issue_ids T), Some T) ∧
       filter (λ iid, iid ∉ C') (issue_ids T) ⊆ ready) ∧
    (∀ C', C ∪ list_to_set ready ⊆ C' →
       get_ready_issues plan C' = get_ready_tiers after C').
Proof.
  unfold get_ready_issues. intros Hrun.
  pose proof (get_ready_tiers_spec (tiers plan) C) as H. rewrite Hrun in H.
  destruct H as (before & after & Hts & Hbefore & Hready & Hne).
  exists before, after. split; [done|].
  assert (∀ C', C ⊆ C' →
            get_ready_tiers (tiers plan) C' = get_ready_tiers (T :: after) C')
    as Hskip.
  { intros C' Hsub. rewrite Hts. apply get_ready_tiers_skip.
    intros t Ht iid Hiid. apply Hsub. by apply (Hbefore t). }
  split.
  - intros C' Hsub (iid & Hin & Hout). rewrite (Hskip C' Hsub). cbn.
    assert (iid ∈ filter (λ iid, iid ∉ C') (issue_ids T)) as Hfilter.
    { apply list_elem_of_filter. split; [done|].
      rewrite Hready in Hin. by apply list_elem_of_filter in Hin as [_ ?]. }
    destruct (filter (λ iid, iid ∉ C') (issue_ids T)) as [|i rest] eqn:Hf;
      [by apply elem_of_nil in Hfilter|].
    split; [done|]. rewrite <- Hf, Hready. intros i'.
    rewrite !list_elem_of_filter. set_solver.
  - intros C' Hsub. rewrite (Hskip C') by set_solver. cbn.
    rewrite (proj2 (filter_not_completed_nil C' (issue_ids T))); [done|].
    intros iid Hiid. destruct (decide (iid ∈ C)) as [|Hout]; [set_solver|].
    apply Hsub, elem_of_union. right. apply elem_of_list_to_set.
    rewrite Hready. by apply list_elem_of_filter.
Qed.

(** *** Planning *)

Lemma StronglySorted_le_lt (l : list Z) :
  StronglySorted Z.le l → NoDup l → StronglySorted Z.lt l.
Proof.
  induction 1 as [|x l Hsorted IH Hall]; intros Hnd; [constructor|].
  apply NoDup_cons in Hnd as [Hx Hnd]. constructor; [by apply IH|].
  rewrite Forall_forall in Hall |- *. intros y Hy.
  specialize (Hall y Hy). assert (x ≠ y) by (by intros ->). lia.
Qed.

Lemma omap_NoDup_inj {A B} (f : A → option B) (l : list A) (x y : A) (v : B) :
  NoDup (omap f l) → x ∈ l → y ∈ l → f x = Some v → f y = Some v → x = y.
Proof.
  induction l as [|a l IH]; intros Hnd Hx Hy Hfx Hfy.
  - by apply elem_of_nil in Hx.
  - assert (∀ z, z ∈ l → f z = Some v → v ∈ omap f l) as Hin.
    { intros z Hz Hfz. apply list_elem_of_omap. by exists z. }
    cbn in Hnd. apply elem_of_cons in Hx as [->|Hx];
      apply elem_of_cons in Hy as [->|Hy]; [done| | |].
    + rewrite Hfx in Hnd. apply NoDup_cons in Hnd as [Hv _].
      destruct Hv. by apply (Hin y).
    + rewrite Hfy in Hnd. apply NoDup_cons in Hnd as [Hv _].
      destruct Hv. by apply (Hin x).
    + apply IH; [|done..]. destruct (f a); [|done].
      by apply NoDup_cons in Hnd as [_ ?].
Qed.

Lemma concat_fmap_app_perm {A B} (f g : A → list B) (ks : list A) :
  concat ((λ k, f k ++ g k) <$> ks) ≡ₚ concat (f <$> ks) ++ concat (g <$> ks).
Proof.
  induction ks as [|k ks IH]; [done|]. cbn. rewrite IH.
  rewrite <- !(assoc_L (++)). f_equiv.
  rewrite !(assoc_L (++)). f_equiv. apply Permutation_app_comm.
Qed.

Lemma concat_fmap_single {B} (k0 : Z) (X : list B) (ks : list Z) :
  NoDup ks → k0 ∈ ks →
  concat ((λ k, if decide (k0 = k) then X else []) <$> ks) = X.
Proof.
  induction ks as [|k ks IH]; intros Hnd Hin; [by apply elem_of_nil in Hin|].
  apply NoDup_cons in Hnd as [Hk Hnd]. cbn.
  assert (k0 ∉ ks → concat ((λ k, if decide (k0 = k) then X else []) <$> ks) = [])
    as Hnone.
  { clear. induction ks as [|k ks IH]; [done|]. intros Hnin.
    apply not_elem_of_cons in Hnin as [Hne Hnin]. cbn.
    rewrite decide_False by done. by apply IH. }
  destruct (decide (k0 = k)) as [->|Hne].
  - rewrite Hnone by done. by rewrite app_nil_r.
  - apply elem_of_cons in Hin as [?|Hin]; [done|]. by apply IH.
Qed.

Lemma sum_sizes_concat (ts : list ExecutionTier) :
  sum_sizes ts = Z.of_nat (length (concat (issue_ids <$> ts))).
Proof.
  induction ts as [|t ts IH]; [done|].
  change (sum_sizes (t :: ts)) with (size t + sum_sizes ts).
  rewrite IH, fmap_cons. cbn [concat]. rewrite length_app. unfold size. lia.
Qed.

Section BuildPlanFacts.

Variable str_lower : string → string.

Lemma ids_in_tier_cons n issue issues :
  ids_in_tier str_lower n (issue :: issues) =
  (if decide (tier_of str_lower issue = n)
   then option_list (issue !! "id") else [])
  ++ ids_in_tier str_lower n issues.
Proof.
  unfold ids_in_tier. rewrite filter_cons.
  destruct (decide (tier_of str_lower issue = n)); [|done].
  cbn. by destruct (issue !! "id").
Qed.

Lemma elem_of_ids_in_tier n issues iid :
  iid ∈ ids_in_tier str_lower n issues ↔
  ∃ issue, issue ∈ issues ∧ issue !! "id" = Some iid
           ∧ tier_of str_lower issue = n.
Proof.
  unfold ids_in_tier. rewrite list_elem_of_omap. split.
  - intros (issue & [Htier Hin]%list_elem_of_filter & Hid). by exists issue.
  - intros (issue & Hin & Hid & Htier). exists issue. split; [|done].
    by apply list_elem_of_filter.
Qed.

Lemma concat_ids_in_tier (ks : list Z) issues :
  NoDup ks →
  (∀ issue, issue ∈ issues → tier_of str_lower issue ∈ ks) →
  concat ((λ n, ids_in_tier str_lower n issues) <$> ks) ≡ₚ issue_id_list issues.
Proof.
  intros Hnd. induction issues as [|issue issues IH]; intros Hks.
  - unfold ids_in_tier, issue_id_list. cbn. clear.
    induction ks as [|k ks IH]; [done|]. by cbn.
  - rewrite (list_fmap_ext _ _ ks (λ _ n _, ids_in_tier_cons n issue issues)).
    rewrite concat_fmap_app_perm, concat_fmap_single;
      [|done|apply Hks; by left].
    rewrite IH by (intros ??; apply Hks; by right).
    unfold issue_id_list. cbn. by destruct (issue !! "id").
Qed.

Lemma group_by_tier_ok issues g :
  (∀ issue, issue ∈ issues → is_Some (issue !! "id")) →
  ∃ g', group_by_tier str_lower issues g = ok g'.
Proof.
  revert g. induction issues as [|issue issues IH]; intros g Hids.
  - by exists g.
  - destruct (Hids issue) as [iid Hid]; [by left|].
    cbn. unfold getitem. rewrite Hid. cbn.
    apply IH. intros ??. apply Hids. by right.
Qed.

Lemma group_by_tier_spec issues g g' :
  group_by_tier str_lower issues g = ok g' →
  (∀ n, default [] (g' !! n)
        = default [] (g !! n) ++ ids_in_tier str_lower n issues) ∧
  dom g' = dom g ∪ list_to_set (tier_of str_lower <$> issues).
Proof.
  revert g. induction issues as [|issue issues IH]; intros g Hrun.
  - injection Hrun as <-. split.
    + intros n. unfold ids_in_tier. cbn. by rewrite app_nil_r.
    + cbn. set_solver.
  - cbn in Hrun. unfold getitem in Hrun.
    destruct (issue !! "id") as [iid|] eqn:Hid; [|done]. cbn in Hrun.
    apply IH in Hrun as [Hlookup Hdom]. split.
    + intros n. rewrite Hlookup, ids_in_tier_cons, Hid.
      destruct (decide (tier_of str_lower issue = n)) as [->|Hne].
      * rewrite lookup_insert_eq. cbn. by rewrite <- (assoc_L (++)).
      * by rewrite lookup_insert_ne.
    + rewrite Hdom, dom_insert_L. cbn. set_solver.
Qed.

Lemma sorted_keys_spec (g : gmap Z (list string)) :
  StronglySorted Z.lt (sorted_keys g) ∧ NoDup (sorted_keys g) ∧
  ∀ n, n ∈ sorted_keys g ↔ n ∈ dom g.
Proof.
  unfold sorted_keys.
  assert (NoDup (merge_sort Z.le (elements (dom g)))) as Hnd.
  { rewrite merge_sort_Permutation. apply NoDup_elements. }
  split_and!; [|done|].
  - apply StronglySorted_le_lt; [|done].
    apply StronglySorted_merge_sort; apply _.
  - intros n. by rewrite merge_sort_Permutation, elem_of_elements.
Qed.

Lemma build_plan_ok issues mp now :
  (∀ issue, issue ∈ issues → is_Some (issue !! "id")) →
  ∃ g, group_by_tier str_lower issues ∅ = ok g ∧
       build_plan str_lower issues mp now
       = ok (mkParallelPlan (make_tier g <$> sorted_keys g) mp now).
Proof.
  intros Hids. destruct (group_by_tier_ok issues ∅ Hids) as [g Hg].
  exists g. split; [done|]. unfold build_plan. by rewrite Hg.
Qed.

(** C2, as the code has it.  For every issue list whose issues carry an
    identifier, [build_plan] returns a plan such that: the tier indices
    are strictly ascending; a tier holds exactly the identifiers of the
    issues whose category, lower-cased, the table sends to it (tier 4
    when the lower-cased category is not in the table), in input order,
    so every issue is placed once and the tiers together hold the input
    identifiers; when the identifiers are pairwise distinct, each lies
    in exactly one tier; and a tier is sequential exactly when its
    index is 1 or 7. *)
Theorem build_plan_tiers (issues : list (gmap string string)) (mp : Z)
    (now : string) :
  (∀ issue, issue ∈ issues → is_Some (issue !! "id")) →
  ∃ plan,
    build_plan str_lower issues mp now = ok plan ∧
    StronglySorted Z.lt (tier <$> tiers plan) ∧
    (∀ t, t ∈ tiers plan →
          issue_ids t = ids_in_tier str_lower (tier t) issues) ∧
    (∀ issue iid, issue ∈ issues → issue !! "id" = Some iid →
       ∃ t, t ∈ tiers plan ∧ iid ∈ issue_ids t ∧
            tier t = default 4
                       (CATEGORY_TIERS
                          !! str_lower (default "" (issue !! "category")))) ∧
    (∀ t iid, t ∈ tiers plan → iid ∈ issue_ids t →
       ∃ issue, issue ∈ issues ∧ issue !! "id" = Some iid ∧
                tier t = default 4
                           (CATEGORY_TIERS
                              !! str_lower (default "" (issue !! "category")))) ∧
    concat (issue_ids <$> tiers plan) ≡ₚ issue_id_list issues ∧
    (NoDup (issue_id_list issues) →
     ∀ t t' iid, t ∈ tiers plan → t' ∈ tiers plan →
                 iid ∈ issue_ids t → iid ∈ issue_ids t' → t = t') ∧
    (∀ t, t ∈ tiers plan → (sequential t = true ↔ tier t = 1 ∨ tier t = 7)) ∧
    map_to_list CATEGORY_TIERS ≡ₚ
      [("setup", 1); ("backend", 2); ("frontend", 3); ("a2ui-catalog", 3);
       ("feature", 4); ("styling", 5); ("testing", 6); ("integration", 7)] ∧
    max_parallelism plan = mp ∧
    total_issues plan = Z.of_nat (length issues).
Proof.
  intros Hids.
  destruct (build_plan_ok issues mp now Hids) as (g & Hg & Hplan).
  destruct (group_by_tier_spec issues ∅ g Hg) as [Hlookup Hdom].
  destruct (sorted_keys_spec g) as (Hsorted & Hnd & Hkeys).
  assert (∀ n, default [] (g !! n) = ids_in_tier str_lower n issues) as Hg_n.
  { intros n. by rewrite Hlookup, lookup_empty. }
  assert (∀ n, n ∈ sorted_keys g ↔ ∃ issue, issue ∈ issues
                                     ∧ tier_of str_lower issue = n) as Hkeys'.
  { intros n. rewrite Hkeys, Hdom, dom_empty_L, (left_id_L ∅ (∪)).
    rewrite elem_of_list_to_set, list_elem_of_fmap. naive_solver. }
  assert (∀ t, t ∈ make_tier g <$> sorted_keys g →
               tier t ∈ sorted_keys g ∧ t = make_tier g (tier t)) as Htier.
  { intros t (n & -> & Hn)%list_elem_of_fmap. done. }
  assert (concat (issue_ids <$> (make_tier g <$> sorted_keys g))
          ≡ₚ issue_id_list issues) as Hperm.
  { rewrite <- list_fmap_compose.
    rewrite (list_fmap_ext (issue_ids ∘ make_tier g)
               (λ n, ids_in_tier str_lower n issues) (sorted_keys g)
               (λ _ n _, Hg_n n)).
    apply concat_ids_in_tier; [done|]. intros issue Hin.
    apply Hkeys'. by exists issue. }
  eexists. split; [exact Hplan|].
  unfold mkParallelPlan. cbn [tiers max_parallelism total_issues].
  split_and!.
  - rewrite <- list_fmap_compose.
    by rewrite (list_fmap_ext (tier ∘ make_tier g) id (sorted_keys g)
                  (λ _ _ _, eq_refl)), list_fmap_id.
  - intros t [_ ->]%Htier. apply Hg_n.
  - intros issue iid Hin Hid. exists (make_tier g (tier_of str_lower issue)).
    split_and!; [|cbn|done].
    + apply list_elem_of_fmap. eexists. split; [done|].
      apply Hkeys'. by exists issue.
    + rewrite Hg_n. apply elem_of_ids_in_tier. by exists issue.
  - intros t iid [_ ->]%Htier Hiid. cbn in Hiid. rewrite Hg_n in Hiid.
    apply elem_of_ids_in_tier in Hiid as (issue & Hin & Hid & Htn).
    exists issue. split_and!; [done..|]. by rewrite <- Htn.
  - done.
  - intros Hnodup t t' iid [_ ->]%Htier [_ ->]%Htier Hiid Hiid'.
    cbn in Hiid, Hiid'. rewrite Hg_n in Hiid, Hiid'.
    apply elem_of_ids_in_tier in Hiid as (issue & Hin & Hid & Htn).
    apply elem_of_ids_in_tier in Hiid' as (issue' & Hin' & Hid' & Htn').
    assert (issue = issue') as <-.
    { by apply (omap_NoDup_inj (λ issue : gmap string string, issue !! "id")
                  issues issue issue' iid). }
    by rewrite <- Htn, <- Htn'.
  - intros t [_ ->]%Htier. cbn. rewrite bool_decide_eq_true.
    unfold SEQUENTIAL_TIERS. set_solver.
  - unfold CATEGORY_TIERS. apply map_to_list_to_map. compute_done.
  - done.
  - apply Permutation_length in Hperm. revert Hperm.
    unfold issue_id_list.
    assert (length (omap (λ issue : gmap string string, issue !! "id") issues)
            = length issues) as ->.
    { clear -Hids. induction issues as [|issue issues IH]; [done|].
      cbn. destruct (Hids issue) as [iid ->]; [by left|]. cbn.
      rewrite IH; [done|]. intros ??. apply Hids. by right. }
    intros <-. apply sum_sizes_concat.
Qed.

End BuildPlanFacts.

Section BuildPlanMore.

Variable str_lower : string → string.

Lemma group_by_tier_raises issues g e :
  group_by_tier str_lower issues g = raise e →
  e = KeyError "id" ∧ ∃ issue, issue ∈ issues ∧ issue !! "id" = None.
Proof.
  revert g. induction issues as [|issue issues IH]; intros g; [done|].
  cbn. unfold getitem. destruct (issue !! "id") as [iid|] eqn:Hid; cbn.
  - intros [-> (issue' & Hin & Hnone)]%IH. split; [done|].
    exists issue'. split; [by right|done].
  - intros [= <-]. split; [done|]. exists issue. split; [by left|done].
Qed.

Lemma group_by_tier_returns issues g g' :
  group_by_tier str_lower issues g = ok g' →
  ∀ issue, issue ∈ issues → is_Some (issue !! "id").
Proof.
  revert g. induction issues as [|issue issues IH]; intros g Hrun issue' Hin;
    [by apply elem_of_nil in Hin|].
  cbn in Hrun. unfold getitem in Hrun.
  destruct (issue !! "id") as [iid|] eqn:Hid; [|done]. cbn in Hrun.
  apply elem_of_cons in Hin as [->|Hin]; [by rewrite Hid|by eapply IH].
Qed.

(** X2.  [build_plan] fails in one way only: with [KeyError] for ["id"],
    exactly when some issue of the list carries no identifier, wherever
    it stands in the list; it returns a plan exactly when every issue
    carries one. *)
Theorem build_plan_missing_id (issues : list (gmap string string)) (mp : Z)
    (now : string) :
  (build_plan str_lower issues mp now = raise (KeyError "id") ↔
   ∃ issue, issue ∈ issues ∧ issue !! "id" = None) ∧
  ((∃ plan, build_plan str_lower issues mp now = ok plan) ↔
   ∀ issue, issue ∈ issues → is_Some (issue !! "id")) ∧
  (∀ e, build_plan str_lower issues mp now = raise e → e = KeyError "id").
Proof.
  unfold build_plan.
  destruct (group_by_tier str_lower issues ∅) as [e|g] eqn:Hg; cbn.
  - destruct (group_by_tier_raises _ _ _ Hg) as [-> (issue & Hin & Hnone)].
    split_and!.
    + split; [by exists issue|done].
    + split; [by intros [? ?]|]. intros Hids.
      destruct (Hids issue Hin) as [iid Hid]. congruence.
    + by intros e [= <-].
  - pose proof (group_by_tier_returns _ _ _ Hg) as Hids. split_and!.
    + split; [done|]. intros (issue & Hin & Hnone).
      destruct (Hids issue Hin) as [iid Hid]. congruence.
    + split; [done|]. by eexists.
    + done.
Qed.

Lemma build_plan_total (issues : list (gmap string string)) (mp : Z)
    (now : string) (plan : ParallelPlan) :
  build_plan str_lower issues mp now = ok plan →
  total_issues plan = Z.of_nat (length issues) ∧
  concat (issue_ids <$> tiers plan) ≡ₚ issue_id_list issues ∧
  length (issue_id_list issues) = length issues.
Proof.
  unfold build_plan.
  destruct (group_by_tier str_lower issues ∅) as [e|g] eqn:Hg; [done|].
  cbn. intros [= <-]. cbn [tiers mkParallelPlan total_issues].
  pose proof (group_by_tier_returns _ _ _ Hg) as Hids.
  destruct (group_by_tier_spec str_lower issues ∅ g Hg) as [Hlookup Hdom].
  destruct (sorted_keys_spec g) as (_ & Hnd & Hkeys).
  assert (concat (issue_ids <$> (make_tier g <$> sorted_keys g))
          ≡ₚ issue_id_list issues) as Hperm.
  { rewrite <- list_fmap_compose.
    rewrite (list_fmap_ext (issue_ids ∘ make_tier g)
               (λ n, ids_in_tier str_lower n issues) (sorted_keys g)).
    - apply concat_ids_in_tier; [done|]. intros issue Hin.
      rewrite Hkeys, Hdom, dom_empty_L, (left_id_L ∅ (∪)).
      rewrite elem_of_list_to_set, list_elem_of_fmap. by exists issue.
    - intros _ n _. cbn. by rewrite Hlookup, lookup_empty. }
  assert (length (issue_id_list issues) = length issues) as Hlen.
  { unfold issue_id_list. clear -Hids.
    induction issues as [|issue issues IH]; [done|].
    cbn. destruct (Hids issue) as [iid ->]; [by left|]. cbn.
    rewrite IH; [done|]. intros ??. apply Hids. by right. }
  split_and!; [|done..].
  rewrite sum_sizes_concat. apply Permutation_length in Hperm. congruence.
Qed.

Lemma tier_of_range (issue : gmap string string) :
  1 ≤ tier_of str_lower issue ≤ 7 ∧
  is_Some (TIER_DESCRIPTIONS !! tier_of str_lower issue).
Proof.
  unfold tier_of, DEFAULT_TIER.
  destruct (CATEGORY_TIERS !! str_lower (default "" (issue !! "category")))
    as [n|] eqn:Hn; cbn; [|split; [lia|eexists; vm_compute; reflexivity]].
  apply elem_of_list_to_map_2 in Hn.
  repeat (apply elem_of_cons in Hn as [[= _ ->]|Hn];
          [split; [lia|eexists; vm_compute; reflexivity]|]).
  by apply elem_of_nil in Hn.
Qed.

Lemma NoDup_range_length (l : list Z) :
  NoDup l → (∀ n, n ∈ l → 1 ≤ n ≤ 7) → (length l ≤ 7)%nat.
Proof.
  intros Hnd Hrange.
  assert (l ⊆+ seqZ 1 7) as Hsub.
  { apply NoDup_submseteq; [done|]. intros n Hn.
    apply elem_of_seqZ. specialize (Hrange n Hn). lia. }
  apply submseteq_length in Hsub. by rewrite length_seqZ in Hsub.
Qed.

(** X3.  The shape of a plan that [build_plan] returns: there are at most
    seven tiers, each with an index between 1 and 7, at least one
    issue, and the description the table gives for its index (the
    fallback text for an unknown index is never used); no two tiers
    share an index; and there is no tier at all exactly when the issue
    list is empty. *)
Theorem build_plan_shape (issues : list (gmap string string)) (mp : Z)
    (now : string) (plan : ParallelPlan) :
  build_plan str_lower issues mp now = ok plan →
  (length (tiers plan) ≤ 7)%nat ∧
  NoDup (tier <$> tiers plan) ∧
  (∀ t, t ∈ tiers plan →
     1 ≤ tier t ≤ 7 ∧ issue_ids t ≠ [] ∧
     TIER_DESCRIPTIONS !! tier t = Some (description t)) ∧
  (tiers plan = [] ↔ issues = []) ∧
  created_at plan = now.
Proof.
  unfold build_plan.
  destruct (group_by_tier str_lower issues ∅) as [e|g] eqn:Hg; [done|].
  cbn. intros [= <-]. cbn [tiers mkParallelPlan created_at].
  pose proof (group_by_tier_returns _ _ _ Hg) as Hids.
  destruct (group_by_tier_spec str_lower issues ∅ g Hg) as [Hlookup Hdom].
  destruct (sorted_keys_spec g) as (_ & Hnd & Hkeys).
  assert (∀ n, n ∈ sorted_keys g ↔
               ∃ issue, issue ∈ issues ∧ tier_of str_lower issue = n) as Hkeys'.
  { intros n. rewrite Hkeys, Hdom, dom_empty_L, (left_id_L ∅ (∪)).
    rewrite elem_of_list_to_set, list_elem_of_fmap. naive_solver. }
  assert (tier <$> (make_tier g <$> sorted_keys g) = sorted_keys g) as Htiers.
  { rewrite <- list_fmap_compose.
    by rewrite (list_fmap_ext (tier ∘ make_tier g) id (sorted_keys g)
                  (λ _ _ _, eq_refl)), list_fmap_id. }
  split_and!.
  - rewrite length_fmap. apply NoDup_range_length; [done|].
    intros n (issue & _ & <-)%Hkeys'. apply tier_of_range.
  - by rewrite Htiers.
  - intros t (n & -> & (issue & Hin & <-)%Hkeys')%list_elem_of_fmap.
    destruct (tier_of_range issue) as [Hrange [d Hd]].
    cbn [tier issue_ids description make_tier].
    split_and!; [lia..| |by rewrite Hd].
    rewrite Hlookup, lookup_empty. cbn.
    destruct (Hids issue Hin) as [iid Hid].
    assert (iid ∈ ids_in_tier str_lower (tier_of str_lower issue) issues) as Hiid.
    { apply elem_of_ids_in_tier. by exists issue. }
    intros Hnil. rewrite Hnil in Hiid. by apply elem_of_nil in Hiid.
  - split.
    + intros Hnil%fmap_nil_inv. destruct issues as [|issue issues]; [done|].
      assert (tier_of str_lower issue ∈ sorted_keys g) as Hin.
      { apply Hkeys'. exists issue. split; [by left|done]. }
      rewrite Hnil in Hin. by apply elem_of_nil in Hin.
    + intros ->. cbn in Hg. injection Hg as <-. done.
  - done.
Qed.

End BuildPlanMore.

(** *** Round trip of the plan document *)

Lemma tier_round_trip (t : ExecutionTier) :
  tier_from_dict (tier_to_dict t) = ok t.
Proof.
  destruct t as [n ids d s]. unfold tier_from_dict, tier_to_dict.
  cbn [json_getitem json_get tier issue_ids description sequential].
  unfold getitem. simplify_map_eq. cbn.
  rewrite (traverse_fmap as_str JStr) by done. done.
Qed.

Lemma mkParallelPlan_wf ts mp created : plan_wf (mkParallelPlan ts mp created).
Proof. done. Qed.

Lemma from_dict_wf data p : from_dict data = ok p → plan_wf p.
Proof.
  unfold from_dict. intros H.
  apply bind_ok in H as (ts & _ & H).
  apply bind_ok in H as (mp & _ & H).
  apply bind_ok in H as (created & _ & H).
  injection H as <-. apply mkParallelPlan_wf.
Qed.

Lemma from_dict_to_dict (p : ParallelPlan) :
  plan_wf p → from_dict (to_dict p) = ok p.
Proof.
  destruct p as [ts mp created total]. unfold plan_wf. cbn. intros ->.
  unfold from_dict, to_dict.
  cbn [json_getitem json_get tiers max_parallelism created_at total_issues].
  unfold getitem. simplify_map_eq. cbn.
  rewrite (traverse_fmap tier_from_dict tier_to_dict) by apply tier_round_trip.
  done.
Qed.

(** C4.  A plan that is saved and loaded back is the plan that was
    saved, field by field: tiers (index, description, sequential flag,
    issue ids in order), [max_parallelism], [created_at] and
    [total_issues]; and [from_dict (to_dict p)] is [p].  The plans are
    those of the dataclass, whose constructor sets [total_issues] to
    the sum of the tier sizes. *)
Theorem plan_round_trip (p : ParallelPlan) (project_dir : string)
    (fs : gmap string json) :
  plan_wf p →
  from_dict (to_dict p) = ok p ∧
  load_plan project_dir (save_plan p project_dir fs).2 = ok (Some p).
Proof.
  intros Hwf. split; [by apply from_dict_to_dict|].
  unfold load_plan, save_plan. cbn. rewrite lookup_insert_eq.
  by rewrite from_dict_to_dict.
Qed.

(** X4.  What [from_dict] does not read, and what it fills in: the stored
    [total_issues] is ignored, whatever it holds and whether it is
    there or not, and the total of the plan read is the sum of its tier
    sizes; a tier without a ["sequential"] key is read as not
    sequential, and a document without ["created_at"] as created at
    the empty string. *)
Theorem from_dict_optional_keys (d : gmap string json) (v : json) :
  from_dict (JDict (<["total_issues" := v]> d)) = from_dict (JDict d) ∧
  from_dict (JDict (delete "total_issues" d)) = from_dict (JDict d) ∧
  (∀ p, from_dict (JDict d) = ok p → total_issues p = sum_sizes (tiers p)) ∧
  (d !! "created_at" = None →
   from_dict (JDict d) = from_dict (JDict (<["created_at" := JStr ""]> d))) ∧
  (d !! "sequential" = None →
   tier_from_dict (JDict d)
   = tier_from_dict (JDict (<["sequential" := JBool false]> d))).
Proof.
  split_and!.
  - unfold from_dict. cbn [json_getitem json_get]. unfold getitem.
    by rewrite !lookup_insert_ne.
  - unfold from_dict. cbn [json_getitem json_get]. unfold getitem.
    by rewrite !lookup_delete_ne.
  - intros p Hp. by apply from_dict_wf in Hp.
  - intros Hnone. unfold from_dict. cbn [json_getitem json_get]. unfold getitem.
    rewrite lookup_insert_eq, Hnone. by rewrite !lookup_insert_ne.
  - intros Hnone. unfold tier_from_dict. cbn [json_getitem json_get].
    unfold getitem.
    rewrite lookup_insert_eq, Hnone. by rewrite !lookup_insert_ne.
Qed.

(** *** The scenarios *)

Example s1_build_plan :
  build_plan lower_ascii Scenarios.s1_issues 2 "2026-01-01T00:00:00+00:00"
  = ok Scenarios.s1_plan.
Proof. vm_compute. reflexivity. Qed.

Example s1_get_ready :
  get_ready_issues Scenarios.s1_plan ∅
    = (["T-1"; "T-2"], Scenarios.s1_plan.(tiers) !! 0%nat) ∧
  get_ready_issues Scenarios.s1_plan {[ "T-1" ]}
    = (["T-2"], Scenarios.s1_plan.(tiers) !! 0%nat) ∧
  get_ready_issues Scenarios.s1_plan {[ "T-1"; "T-2" ]}
    = (["T-3"], Scenarios.s1_plan.(tiers) !! 1%nat).
Proof. split_and!; vm_compute; reflexivity. Qed.

Lemma build_plan_tiers_witness :
  ∃ plan,
    build_plan lower_ascii Scenarios.s1_issues 2 "" = ok plan ∧
    StronglySorted Z.lt (tier <$> tiers plan) ∧
    total_issues plan = 6.
Proof.
  destruct (build_plan_tiers lower_ascii Scenarios.s1_issues 2 "")
    as (plan & Hplan & Hsorted & Hrest).
  - intros issue Hin. unfold Scenarios.s1_issues in Hin.
    repeat (apply elem_of_cons in Hin as [->|Hin]; [by eexists|]).
    by apply elem_of_nil in Hin.
  - exists plan. split_and!; [done..|]. by destruct Hrest as (_&_&_&_&_&_&_&_&->).
Defined.

(** The claim C2 as it is written fails where a category is spelled
    with a capital and where two issues share an identifier: the
    category ["Setup"] is not a key of the table, yet its issue lands in
    tier 1 and there is no tier 4; and the identifier ["A"] lies in the
    two tiers of the plan. *)
Lemma build_plan_counterexample :
  build_plan lower_ascii Scenarios.shared_id_issues 2
    "2026-01-01T00:00:00+00:00" = ok Scenarios.shared_id_plan ∧
  ¬ (∀ issue iid,
       issue ∈ Scenarios.shared_id_issues → issue !! "id" = Some iid →
       CATEGORY_TIERS !! default "" (issue !! "category") = None →
       ∃ t, t ∈ tiers Scenarios.shared_id_plan ∧ tier t = 4
            ∧ iid ∈ issue_ids t) ∧
  ¬ (∀ iid t t',
       iid ∈ issue_id_list Scenarios.shared_id_issues →
       t ∈ tiers Scenarios.shared_id_plan →
       t' ∈ tiers Scenarios.shared_id_plan →
       iid ∈ issue_ids t → iid ∈ issue_ids t' → t = t').
Proof.
  split_and!.
  - vm_compute. reflexivity.
  - intros H.
    destruct (H (Scenarios.issue "A" "Setup") "A") as (t & Ht & Htier & _).
    + by left.
    + done.
    + by vm_compute.
    + cbn in Ht. repeat (apply elem_of_cons in Ht as [->|Ht]; [done|]).
      by apply elem_of_nil in Ht.
  - intros H.
    assert (mkExecutionTier 1 ["A"] "setup (project foundation)" true
            = mkExecutionTier 2 ["A"] "backend (API and data layer)" false)
      as Heq; [|done].
    apply (H "A"); cbn.
    + by left.
    + by left.
    + right. by left.
    + by left.
    + by left.
Qed.

Lemma get_ready_issues_spec_witness :
  get_ready_issues Scenarios.s1_plan {[ "T-1"; "T-2" ]}
    = (["T-3"], Scenarios.s1_plan.(tiers) !! 1%nat) ∧
  ∀ t, t ∈ tiers Scenarios.s1_plan → tier t < 2 →
       ∀ iid, iid ∈ issue_ids t → iid ∈ ({[ "T-1"; "T-2" ]} : gset string).
Proof.
  assert (get_ready_issues Scenarios.s1_plan {[ "T-1"; "T-2" ]}
          = (["T-3"], Scenarios.s1_plan.(tiers) !! 1%nat)) as Heq.
  { vm_compute. reflexivity. }
  split; [done|].
  pose proof (get_ready_issues_spec Scenarios.s1_plan {[ "T-1"; "T-2" ]}) as H.
  rewrite Heq in H. cbn [lookup list_lookup Scenarios.s1_plan tiers mkParallelPlan] in H.
  destruct H as [(_ & _ & _ & Hmono) _].
  apply Hmono. cbn. repeat constructor; lia.
Defined.

Lemma plan_round_trip_witness :
  from_dict (to_dict Scenarios.s1_plan) = ok Scenarios.s1_plan ∧
  load_plan "proj" (save_plan Scenarios.s1_plan "proj" ∅).2
    = ok (Some Scenarios.s1_plan).
Proof. apply (plan_round_trip Scenarios.s1_plan "proj" ∅). reflexivity. Defined.

Lemma get_ready_issues_advance_witness :
  ∃ before after,
    tiers Scenarios.s1_plan
    = before ++ mkExecutionTier 1 ["T-1"; "T-2"] "setup (project foundation)"
                  true :: after ∧
    get_ready_issues Scenarios.s1_plan {[ "T-1"; "T-2" ]}
    = get_ready_tiers after {[ "T-1"; "T-2" ]}.
Proof.
  destruct (get_ready_issues_advance Scenarios.s1_plan {[ "T-1" ]} ["T-2"]
              (mkExecutionTier 1 ["T-1"; "T-2"] "setup (project foundation)"
                 true))
    as (before & after & Hts & _ & Hnext).
  - vm_compute. reflexivity.
  - exists before, after. split; [done|]. apply Hnext. set_solver.
Defined.

Lemma build_plan_shape_witness :
  (length (tiers Scenarios.s1_plan) ≤ 7)%nat ∧
  NoDup (tier <$> tiers Scenarios.s1_plan).
Proof.
  destruct (build_plan_shape lower_ascii Scenarios.s1_issues 2
              "2026-01-01T00:00:00+00:00" Scenarios.s1_plan)
    as (Hlen & Hnd & _).
  - vm_compute. reflexivity.
  - by split.
Defined.

End SchedulerFacts.

(** ** Computations over the history *)

Module WorldFacts.

Lemma hoare_ret {A} (P : event → Prop) (a : A) (Q : A → Prop) :
  Q a → hoare P (mret a) Q.
Proof.
  intros HQ h r h' Hrun. unfold mret, M_ret in Hrun. simplify_eq. split.
  - exists []. by rewrite app_nil_r.
  - by intros ? [= <-].
Qed.

Lemma hoare_bind {A B} (P : event → Prop) (m : M A) (f : A → M B)
    (Q1 : A → Prop) (Q2 : B → Prop) :
  hoare P m Q1 → (∀ a, Q1 a → hoare P (f a) Q2) → hoare P (m ≫= f) Q2.
Proof.
  intros Hm Hf h r h' Hrun. unfold mbind, M_bind in Hrun.
  destruct (m h) as [[e|a] h1] eqn:Hmh.
  - simplify_eq. destruct (Hm _ _ _ Hmh) as [Hev _]. split; [done|].
    by intros.
  - destruct (Hm _ _ _ Hmh) as [(new1 & -> & Hnew1) Ha].
    destruct (Hf a (Ha a eq_refl) _ _ _ Hrun) as [(new2 & -> & Hnew2) Hb].
    split; [|done]. exists (new1 ++ new2).
    split; [by rewrite (assoc_L (++))|by apply Forall_app].
Qed.

Lemma hoare_lift {A} (P : event → Prop) (r : result A) (Q : A → Prop) :
  (∀ a, r = ok a → Q a) → hoare P (lift r) Q.
Proof.
  intros HQ h r' h' Hrun. unfold lift in Hrun. simplify_eq. split; [|done].
  exists []. by rewrite app_nil_r.
Qed.

Lemma hoare_request {A} (P : event → Prop) (ev : event)
    (reply : list event → result A) (Q : A → Prop) :
  P ev → (∀ h a, reply h = ok a → Q a) → hoare P (request ev reply) Q.
Proof.
  intros Hev HQ h r h' Hrun. unfold request in Hrun. simplify_eq. split.
  - exists [ev]. split; [done|]. by constructor.
  - intros a. apply HQ.
Qed.

Lemma hoare_post {A} (P : event → Prop) (m : M A) (Q Q' : A → Prop) :
  (∀ a, Q a → Q' a) → hoare P m Q → hoare P m Q'.
Proof.
  intros HQ Hm h r h' Hrun. destruct (Hm _ _ _ Hrun) as [Hev Ha].
  split; [done|]. intros a Hr. by apply HQ, Ha.
Qed.

Lemma hoare_mono {A} (P P' : event → Prop) (m : M A) (Q Q' : A → Prop) :
  (∀ ev, P ev → P' ev) → (∀ a, Q a → Q' a) → hoare P m Q → hoare P' m Q'.
Proof.
  intros HP HQ Hm h r h' Hrun.
  destruct (Hm _ _ _ Hrun) as [(new & -> & Hnew) Ha]. split.
  - exists new. split; [done|]. eapply Forall_impl; [done|]. done.
  - intros a Hr. by apply HQ, Ha.
Qed.

Lemma hoare_prefix {A} (P : event → Prop) (m : M A) (Q : A → Prop) h r h' :
  hoare P m Q → m h = (r, h') → h `prefix_of` h'.
Proof.
  intros Hm Hrun. destruct (Hm _ _ _ Hrun) as [(new & -> & _) _].
  by apply prefix_app_r.
Qed.

Lemma hoare_events {A} (P : event → Prop) (m : M A) (Q : A → Prop) h r h' :
  hoare P m Q → m h = (r, h') → ∃ new, h' = h ++ new ∧ Forall P new.
Proof. intros Hm Hrun. by destruct (Hm _ _ _ Hrun) as [? _]. Qed.

End WorldFacts.

(** ** The VCS driver *)

Module MergeFacts.

Import Merge WorldFacts.
Local Open Scope Z_scope.

Section Driver.

Variable str_lower : string → string.
Variable env : Env.

(** C1, as the code has it.  Whenever git can be spawned,
    [merge_branch] returns a result for the branch it was given in
    which [success] holds exactly when the merge command exits with 0
    and [conflict] exactly when it does not and its output mentions a
    conflict; so the two never hold together.  When neither holds the
    error message is the standard error of the merge command, whatever
    it is; otherwise the message is empty. *)
Theorem merge_branch_result (project_dir br : string) (h : list event)
    (rc : Z) (out err : string) :
  git_reply env h project_dir (merge_args br) = ok (rc, out, err) →
  (∀ h', ∃ r, git_reply env h' project_dir ["merge"; "--abort"] = ok r) →
  ∃ mr h',
    merge_branch str_lower env project_dir br h = (ok mr, h') ∧
    branch mr = br ∧
    (success mr = true ↔ rc = 0) ∧
    (conflict mr = true ↔
       rc ≠ 0 ∧ (contains "conflict" (str_lower err) = true
                 ∨ contains "conflict" (str_lower out) = true)) ∧
    (success mr = true → conflict mr = false) ∧
    (conflict mr = true → success mr = false) ∧
    (success mr = false → conflict mr = false → error mr = err) ∧
    (success mr = true ∨ conflict mr = true → error mr = "").
Proof.
  intros Hmerge Habort.
  unfold merge_branch, _run_git, request, mbind, M_bind. rewrite Hmerge.
  destruct (Habort (h ++ [EvGit project_dir (merge_args br)])) as [r Hr].
  cbn. case_bool_decide as Hrc.
  - eexists _, _. split; [reflexivity|]. cbn. naive_solver.
  - destruct (contains "conflict" (str_lower err)
              || contains "conflict" (str_lower out)) eqn:Hc.
    + rewrite Hr. eexists _, _. split; [reflexivity|]. cbn.
      apply orb_true_iff in Hc. naive_solver.
    + rewrite Hr. eexists _, _. split; [reflexivity|]. cbn.
      apply orb_false_iff in Hc as [Hc1 Hc2]. rewrite Hc1, Hc2. naive_solver.
Qed.

(** With a git that can be spawned the driver returns. *)
Lemma merge_branch_total (project_dir br : string) (h : list event) :
  (∀ h' args, ∃ r, git_reply env h' project_dir args = ok r) →
  ∃ mr h', merge_branch str_lower env project_dir br h = (ok mr, h').
Proof.
  intros Hgit. unfold merge_branch, _run_git, request, mbind, M_bind.
  destruct (Hgit h (merge_args br)) as [[[rc out] err] ->].
  destruct (Hgit (h ++ [EvGit project_dir (merge_args br)])
              ["merge"; "--abort"]) as [r Hr].
  cbn. case_bool_decide; [by eexists _, _|].
  destruct (_ || _); rewrite Hr; by eexists _, _.
Qed.

Lemma delete_branch_total (project_dir br : string) (h : list event) :
  (∀ h' args, ∃ r, git_reply env h' project_dir args = ok r) →
  delete_branch env project_dir br h
  = (ok (), h ++ [EvGit project_dir ["branch"; "-d"; br]]).
Proof.
  intros Hgit. unfold delete_branch, _run_git, request, mbind, M_bind.
  by destruct (Hgit h ["branch"; "-d"; br]) as [r ->].
Qed.

End Driver.

(** *** The events of the driver

    The driver never starts workers: its events satisfy every
    predicate [P] that holds of the events that are not the start of a
    wave. *)

Create HintDb hoare.

Ltac hoare_auto :=
  repeat first
    [ progress intros
    | apply hoare_ret; done
    | solve [eauto with hoare]
    | match goal with
      | |- hoare _ (if ?b then _ else _) _ => destruct b
      | |- hoare _ (match ?x with _ => _ end) _ => destruct x
      end
    | apply (hoare_bind _ _ _ (λ _, True)) ].

Section Events.

Variable env : Env.
Variable P : event → Prop.
Hypothesis P_no_gather : ∀ ev, no_gather ev → P ev.

Lemma run_git_events cwd args : hoare P (_run_git env cwd args) (λ _, True).
Proof. apply hoare_request; [by apply P_no_gather|done]. Qed.

Lemma path_exists_events p : hoare P (path_exists env p) (λ _, True).
Proof. apply hoare_request; [by apply P_no_gather|done]. Qed.

Lemma mkdir_parents_events p : hoare P (mkdir_parents p) (λ _, True).
Proof. apply hoare_request; [by apply P_no_gather|done]. Qed.

Lemma try_rmtree_events p : hoare P (try_rmtree env p) (λ _, True).
Proof. apply hoare_request; [by apply P_no_gather|done]. Qed.

Hint Resolve run_git_events path_exists_events mkdir_parents_events
  try_rmtree_events : hoare.

Lemma remove_worktree_events project_dir worktree_dir :
  hoare P (remove_worktree env project_dir worktree_dir) (λ _, True).
Proof. unfold remove_worktree. hoare_auto. Qed.

Hint Resolve remove_worktree_events : hoare.

Lemma create_worktree_events project_dir worktree_dir br :
  hoare P (create_worktree env project_dir worktree_dir br) (λ _, True).
Proof. unfold create_worktree. hoare_auto. Qed.

Lemma delete_branch_events project_dir br :
  hoare P (delete_branch env project_dir br) (λ _, True).
Proof. unfold delete_branch. hoare_auto. Qed.

Lemma merge_branch_events str_lower project_dir br :
  hoare P (merge_branch str_lower env project_dir br) (λ _, True).
Proof. unfold merge_branch. hoare_auto. Qed.

End Events.

Section DriverMore.

Variable str_lower : string → string.
Variable env : Env.

(** X5.  A merge is never left in progress: when the merge command exits
    with anything but 0, the very next git command of the driver is
    [merge --abort], whether or not a conflict was reported; when it
    exits with 0 the driver runs nothing else.  When git cannot be
    spawned for the merge, the exception leaves the driver after that
    one attempt. *)
Theorem merge_branch_aborts (project_dir br : string) (h : list event) :
  let merge := EvGit project_dir (merge_args br) in
  let abort := EvGit project_dir ["merge"; "--abort"] in
  match git_reply env h project_dir (merge_args br) with
  | inl e => merge_branch str_lower env project_dir br h = (raise e, h ++ [merge])
  | inr (rc, out, err) =>
      if bool_decide (rc = 0) then
        ∃ mr, merge_branch str_lower env project_dir br h = (ok mr, h ++ [merge])
              ∧ success mr = true
      else
        ∃ r, merge_branch str_lower env project_dir br h
             = (r, h ++ [merge; abort]) ∧
             match git_reply env (h ++ [merge]) project_dir ["merge"; "--abort"] with
             | inl e => r = raise e
             | inr _ => ∃ mr, r = ok mr ∧ success mr = false
             end
  end.
Proof.
  intros merge abort. subst merge abort.
  unfold merge_branch, _run_git, request, mbind, M_bind.
  destruct (git_reply env h project_dir (merge_args br)) as [e|[[rc out] err]];
    [done|].
  case_bool_decide; [by eexists|].
  destruct (contains "conflict" (str_lower err)
            || contains "conflict" (str_lower out));
    destruct (git_reply env _ project_dir ["merge"; "--abort"]);
    rewrite <- (assoc_L (++)); cbn [app];
    eexists; (split; [reflexivity|]); by eauto.
Qed.

Lemma remove_worktree_total (project_dir wt : string) (h : list event) :
  (∀ h' args, ∃ r, git_reply env h' project_dir args = ok r) →
  ∃ b new, remove_worktree env project_dir wt h = (ok b, h ++ new).
Proof.
  intros Hgit. unfold remove_worktree, path_exists, try_rmtree, _run_git.
  unfold request, mbind, M_bind, mret, M_ret.
  destruct (exists_reply env h wt); cbn [negb].
  - destruct (Hgit (h ++ [EvExists wt]) ["worktree"; "remove"; "--force"; wt])
      as [[[rc out] err] ->].
    case_bool_decide.
    + destruct (rmtree_reply env _ wt).
      * eexists _, _. by rewrite <- !(assoc_L (++)).
      * destruct (Hgit (((h ++ [EvExists wt])
                          ++ [EvGit project_dir
                                ["worktree"; "remove"; "--force"; wt]])
                         ++ [EvRmtree wt]) ["worktree"; "prune"]) as [r ->].
        eexists _, _. by rewrite <- !(assoc_L (++)).
    + eexists _, _. by rewrite <- !(assoc_L (++)).
  - by eexists _, _.
Qed.

(** X6.  Creating a worktree, with a git that can be spawned: the driver
    returns; the last two git commands it runs are the forced deletion
    of the branch and the addition of the worktree on that branch, in
    that order; and the result is the outcome of the addition alone,
    [True] exactly when it exits with 0, whatever became of the
    clean-up before it.  When there is no directory in the way,
    nothing is removed. *)
Theorem create_worktree_result (project_dir wt br : string) (h : list event) :
  (∀ h' args, ∃ r, git_reply env h' project_dir args = ok r) →
  let delete := EvGit project_dir ["branch"; "-D"; br] in
  let add := EvGit project_dir ["worktree"; "add"; "-b"; br; wt] in
  ∃ b cleanup rc out err,
    create_worktree env project_dir wt br h
      = (ok b, h ++ [EvMkdir (path_parent wt); EvExists wt] ++ cleanup
                 ++ [delete; add]) ∧
    git_reply env (h ++ [EvMkdir (path_parent wt); EvExists wt] ++ cleanup
                     ++ [delete])
      project_dir ["worktree"; "add"; "-b"; br; wt] = ok (rc, out, err) ∧
    (b = true ↔ rc = 0) ∧
    (exists_reply env (h ++ [EvMkdir (path_parent wt)]) wt = false →
     cleanup = []).
Proof.
  intros Hgit delete add. subst delete add.
  unfold create_worktree, mkdir_parents, path_exists.
  unfold request, mbind, M_bind, mret, M_ret.
  set (h1 := (h ++ [EvMkdir (path_parent wt)]) ++ [EvExists wt]).
  assert (∃ cleanup,
            (∃ b, (if exists_reply env (h ++ [EvMkdir (path_parent wt)]) wt
                   then remove_worktree env project_dir wt
                   else (λ h, (ok true, h)) : M bool) h1
                  = (ok b, h1 ++ cleanup)) ∧
            (exists_reply env (h ++ [EvMkdir (path_parent wt)]) wt = false →
             cleanup = [])) as (cleanup & [b0 Hclean] & Hnone).
  { destruct (exists_reply env (h ++ [EvMkdir (path_parent wt)]) wt).
    - destruct (remove_worktree_total project_dir wt h1 Hgit) as (b & new & ->).
      exists new. split; [by exists b|done].
    - exists []. rewrite app_nil_r. split; [by exists true|done]. }
  rewrite Hclean. unfold _run_git, request.
  destruct (Hgit (h1 ++ cleanup) ["branch"; "-D"; br]) as [r0 ->].
  destruct (Hgit ((h1 ++ cleanup) ++ [EvGit project_dir ["branch"; "-D"; br]])
              ["worktree"; "add"; "-b"; br; wt]) as [[[rc out] err] Hadd].
  rewrite Hadd. exists (bool_decide (rc = 0)), cleanup, rc, out, err.
  subst h1. rewrite <- !(assoc_L (++)) in *. cbn [app] in *.
  split_and!; [done|done| |done].
  by rewrite bool_decide_eq_true.
Qed.

End DriverMore.

Section Cleanup.

Variable env : Env.
Variable splitlines : string → list string.
Variable path_text : string → string.

Lemma remove_worktree_deletes (ok : string → Prop) project_dir wt :
  ok wt → hoare (deletes_only ok) (remove_worktree env project_dir wt) (λ _, True).
Proof.
  intros Hok. unfold remove_worktree, path_exists, _run_git, try_rmtree.
  apply (hoare_bind _ _ _ (λ _, True)); [by apply hoare_request|].
  intros present _. destruct present; cbn [negb]; [|by apply hoare_ret].
  apply (hoare_bind _ _ _ (λ _, True)); [by apply hoare_request|].
  intros [[rc out] err] _. case_bool_decide; [|by apply hoare_ret].
  apply (hoare_bind _ _ _ (λ _, True)); [by apply hoare_request|].
  intros [msg|] _; [by apply hoare_ret|].
  apply (hoare_bind _ _ _ (λ _, True)); [by apply hoare_request|].
  intros _ _. by apply hoare_ret.
Qed.

Lemma remove_listed_deletes (ok : string → Prop) project_dir lines :
  (∀ line, line ∈ lines → String.prefix "worktree " line = true →
           contains WORKERS_DIR_NAME line = true →
           ok (path_text (after_blank line))) →
  hoare (deletes_only ok) (remove_listed env path_text project_dir lines)
    (λ _, True).
Proof.
  induction lines as [|line lines IH]; intros Hok; [by apply hoare_ret|].
  assert (hoare (deletes_only ok)
            (remove_listed env path_text project_dir lines) (λ _, True)) as IH'.
  { apply IH. intros l Hl. apply Hok. by right. }
  cbn [remove_listed].
  destruct (String.prefix "worktree " line) eqn:Hp; [|done].
  destruct (contains WORKERS_DIR_NAME line) eqn:Hc; [|done]. cbn [andb].
  apply (hoare_bind _ _ _ (λ _, True)); [|done].
  apply remove_worktree_deletes. apply Hok; [by left|done..].
Qed.

Lemma remove_listed_total project_dir lines h :
  (∀ h' args, ∃ r, git_reply env h' project_dir args = ok r) →
  ∃ new, remove_listed env path_text project_dir lines h = (ok (), h ++ new).
Proof.
  intros Hgit. revert h. induction lines as [|line lines IH]; intros h.
  { exists []. by rewrite app_nil_r. }
  cbn [remove_listed]. destruct (_ && _); [|apply IH].
  unfold mbind, M_bind.
  destruct (remove_worktree_total env project_dir
              (path_text (after_blank line)) h Hgit) as (b & new1 & ->).
  destruct (IH (h ++ new1)) as (new2 & ->).
  exists (new1 ++ new2). by rewrite (assoc_L (++)).
Qed.

Section CleanupEvents.

Variable P : event → Prop.
Hypothesis P_no_gather : ∀ ev, no_gather ev → P ev.

Lemma remove_listed_events project_dir lines :
  hoare P (remove_listed env path_text project_dir lines) (λ _, True).
Proof.
  induction lines as [|line lines IH]; [by apply hoare_ret|].
  cbn [remove_listed]. destruct (_ && _); [|done].
  apply (hoare_bind _ _ _ (λ _, True)); [|done].
  by apply remove_worktree_events.
Qed.

Lemma cleanup_worktrees_events project_dir :
  hoare P (cleanup_worktrees env splitlines path_text project_dir) (λ _, True).
Proof.
  unfold cleanup_worktrees.
  apply (hoare_bind _ _ _ (λ _, True)); [by apply path_exists_events|].
  intros present _. destruct present; cbn [negb]; [|by apply hoare_ret].
  apply (hoare_bind _ _ _ (λ _, True)); [by apply run_git_events|].
  intros [[rc out] err] _.
  apply (hoare_bind _ _ _ (λ _, True)).
  { case_bool_decide; [apply remove_listed_events|by apply hoare_ret]. }
  intros _ _. apply (hoare_bind _ _ _ (λ _, True)); [by apply run_git_events|].
  intros _ _. apply (hoare_bind _ _ _ (λ _, True)); [by apply try_rmtree_events|].
  intros _ _. by apply hoare_ret.
Qed.

End CleanupEvents.

(** X7.  Clean-up deletes nothing but worker worktrees and the workers
    directory, and is safe to call when there is nothing to clean:
    with a git that can be spawned it returns, whatever the listing
    holds and whether or not the deletions work; when the workers
    directory does not exist it does nothing but look for it; when it
    exists, the last two things it does are to prune the worktree
    references and to delete the workers directory; and every
    worktree it removes, through git or by deleting the directory
    tree, is named on a line of git's listing that begins with
    [worktree ] and mentions [.workers]. *)
Theorem cleanup_worktrees_safe (project_dir : string) (h : list event) :
  (∀ h' args, ∃ r, git_reply env h' project_dir args = ok r) →
  let workers_dir := get_workers_dir project_dir in
  let listing := ["worktree"; "list"; "--porcelain"] in
  ∃ new,
    cleanup_worktrees env splitlines path_text project_dir h = (ok (), h ++ new) ∧
    (exists_reply env h workers_dir = false → new = [EvExists workers_dir]) ∧
    (exists_reply env h workers_dir = true →
     ∃ rc out err removals,
       git_reply env (h ++ [EvExists workers_dir]) project_dir listing
         = ok (rc, out, err) ∧
       new = [EvExists workers_dir; EvGit project_dir listing] ++ removals
             ++ [EvGit project_dir ["worktree"; "prune"]; EvRmtree workers_dir] ∧
       (rc ≠ 0 → removals = []) ∧
       Forall (deletes_only (removable path_text workers_dir (splitlines out)))
         removals).
Proof.
  intros Hgit workers_dir listing. subst listing.
  unfold cleanup_worktrees. fold workers_dir.
  unfold path_exists, request, mbind, M_bind, mret, M_ret.
  destruct (exists_reply env h workers_dir) eqn:Hpresent; cbn [negb].
  2:{ exists [EvExists workers_dir]. by split_and!. }
  unfold _run_git, request.
  destruct (Hgit (h ++ [EvExists workers_dir])
              ["worktree"; "list"; "--porcelain"]) as [[[rc out] err] Hlist].
  rewrite Hlist.
  set (h1 := (h ++ [EvExists workers_dir])
               ++ [EvGit project_dir ["worktree"; "list"; "--porcelain"]]).
  assert (∃ removals,
            (if bool_decide (rc = 0)
             then remove_listed env path_text project_dir (splitlines out)
             else (λ h, (ok (), h)) : M ()) h1 = (ok (), h1 ++ removals) ∧
            (rc ≠ 0 → removals = []) ∧
            Forall (deletes_only
                      (removable path_text workers_dir (splitlines out)))
              removals) as (removals & Hrm & Hnone & Hsafe).
  { case_bool_decide as Hrc.
    - destruct (remove_listed_total project_dir (splitlines out) h1 Hgit)
        as (removals & Hrun).
      exists removals. split_and!; [done|done|].
      destruct (remove_listed_deletes
                  (removable path_text workers_dir (splitlines out))
                  project_dir (splitlines out)) with (h := h1)
                  (r := ok () : result ()) (h' := h1 ++ removals)
        as [(new & Hnew & Hall) _]; [|done|].
      + intros line Hin Hp Hc. right. by exists line.
      + by apply app_inv_head in Hnew as <-.
    - exists []. rewrite app_nil_r. by split_and!. }
  rewrite Hrm.
  destruct (Hgit (h1 ++ removals) ["worktree"; "prune"]) as [r ->].
  exists ([EvExists workers_dir;
           EvGit project_dir ["worktree"; "list"; "--porcelain"]] ++ removals
          ++ [EvGit project_dir ["worktree"; "prune"]; EvRmtree workers_dir]).
  split_and!.
  - subst h1. f_equal. rewrite <- !(assoc_L (++)). done.
  - done.
  - intros _. by exists rc, out, err, removals.
Qed.

End Cleanup.

Section GitWorks.

Variable env : Env.
Variable project_dir : string.

(** A git that can be spawned and adds every worktree it is asked
    for. *)
Hypothesis git_spawns :
  ∀ h args, ∃ r, git_reply env h project_dir args = ok r.
Hypothesis add_works :
  ∀ h br wt rc out err,
    git_reply env h project_dir ["worktree"; "add"; "-b"; br; wt]
      = ok (rc, out, err) → rc = 0.

Lemma create_worktree_works wt br h :
  ∃ new, create_worktree env project_dir wt br h = (ok true, h ++ new)
         ∧ Forall no_gather new.
Proof.
  destruct (create_worktree env project_dir wt br h) as [r h'] eqn:Hrun.
  destruct (hoare_events _ _ _ _ _ _
              (create_worktree_events env no_gather (λ _ H, H) _ _ _) Hrun)
    as (new & -> & Hnew).
  exists new. split; [|done]. f_equal. revert Hrun.
  unfold create_worktree, mkdir_parents, path_exists.
  unfold request, mbind, M_bind, mret, M_ret.
  set (h1 := (h ++ [EvMkdir (path_parent wt)]) ++ [EvExists wt]).
  assert (∃ b hc,
            (if exists_reply env (h ++ [EvMkdir (path_parent wt)]) wt
             then remove_worktree env project_dir wt
             else (λ h, (ok true, h)) : M bool) h1 = (ok b, hc))
    as (b0 & hc & ->).
  { destruct (exists_reply env _ wt); [|by eexists _, _].
    destruct (remove_worktree_total env project_dir wt h1
                git_spawns) as (b & new' & ->). by eexists _, _. }
  unfold _run_git, request.
  destruct (git_spawns hc ["branch"; "-D"; br]) as [r0 ->].
  destruct (git_spawns (hc ++ [EvGit project_dir ["branch"; "-D"; br]])
              ["worktree"; "add"; "-b"; br; wt]) as [[[rc out] err] Hadd].
  rewrite Hadd. apply add_works in Hadd as ->. by intros [= <- _].
Qed.

Lemma remove_worktree_works wt h :
  ∃ b new, remove_worktree env project_dir wt h = (ok b, h ++ new)
           ∧ Forall no_gather new.
Proof.
  destruct (remove_worktree_total env project_dir wt h git_spawns)
    as (b & new & Hrun).
  exists b, new. split; [done|].
  destruct (hoare_events _ _ _ _ _ _
              (remove_worktree_events env no_gather (λ _ H, H) _ _) Hrun)
    as (new' & Heq & Hnew).
  by apply app_inv_head in Heq as <-.
Qed.

End GitWorks.
Lemma merge_branch_result_witness :
  ∃ mr h',
    merge_branch lower_ascii Scenarios.silent_git "repo" "parallel/T-1" []
      = (ok mr, h') ∧
    branch mr = "parallel/T-1" ∧
    (success mr = true → conflict mr = false) ∧
    (conflict mr = true → success mr = false).
Proof.
  destruct (merge_branch_result lower_ascii Scenarios.silent_git
              "repo" "parallel/T-1" [] 1 "" "")
    as (mr & h' & Hrun & Hbr & _ & _ & Hsc & Hcs & _).
  - reflexivity.
  - intros h'. by eexists.
  - by exists mr, h'.
Defined.

(** The claim C1 as it is written fails when git fails without
    writing to its standard error: the result has neither [success]
    nor [conflict], and its error message is empty. *)
Lemma merge_branch_counterexample :
  ∃ mr h',
    merge_branch lower_ascii Scenarios.silent_git "repo" "parallel/T-1" []
      = (ok mr, h') ∧
    ¬ (success mr = false → conflict mr = false → error mr ≠ "").
Proof.
  eexists _, _. split; [vm_compute; reflexivity|].
  cbn. intros H. by apply H.
Qed.

Lemma create_worktree_result_witness :
  ∃ h',
    create_worktree Scenarios.working_env "proj" "proj/.workers/w0"
      "parallel/T-1" [] = (ok true, h').
Proof.
  destruct (create_worktree_result Scenarios.working_env "proj"
              "proj/.workers/w0" "parallel/T-1" [])
    as (b & cleanup & rc & out & err & Hrun & Hadd & Hb & _).
  - intros h' args. by eexists.
  - injection Hadd as <- _ _. rewrite (proj2 Hb eq_refl) in Hrun.
    eexists. exact Hrun.
Defined.

Lemma cleanup_worktrees_safe_witness :
  ∃ new,
    cleanup_worktrees Scenarios.leftover_env lines_lf (λ p, p) "/repo" []
      = (ok (), new) ∧
    EvGit "/repo" ["worktree"; "remove"; "--force"; "/repo/.workers/w0"] ∈ new ∧
    EvGit "/repo" ["worktree"; "remove"; "--force"; "/repo"] ∉ new.
Proof.
  destruct (cleanup_worktrees_safe Scenarios.leftover_env lines_lf (λ p, p)
              "/repo" []) as (new & Hrun & _ & Hsafe).
  - intros h' args. unfold Scenarios.leftover_env. cbn.
    repeat case_match; by eexists.
  - exists new. split; [exact Hrun|].
    vm_compute in Hrun. injection Hrun as <-. split.
    + repeat first [by left|right].
    + intros Hin.
      repeat (apply elem_of_cons in Hin as [?|Hin]; [done|]).
      by apply elem_of_nil in Hin.
Defined.

End MergeFacts.

(** ** The tracker client *)

Module LinearStatusFacts.

Import LinearStatus PyFacts.

Lemma json_get_raises v k dflt e :
  json_get v k dflt = inl e → is_Exception e = true.
Proof. destruct v; cbn; intros H; by simplify_eq. Qed.

(** An exception that leaves the [try] block other than through the
    call to the tracker is an [Exception]. *)
Lemma fetch_raises t n iid e :
  fetch_issue_status t n iid = inl e →
  is_Exception e = true ∨ execute t n iid = inl e.
Proof.
  unfold fetch_issue_status.
  destruct (execute t n iid) as [e'|value]; cbn; [intros; simplify_eq; by right|].
  intros H. left. revert H.
  repeat match goal with
  | |- context [json_get ?v ?k ?d] =>
      let Hg := fresh in
      destruct (json_get v k d) eqn:Hg; cbn;
      [intros; simplify_eq; by eapply json_get_raises|]
  end.
  done.
Qed.

Lemma in_state_types_hashable v s :
  hashable v → in_state_types v {[ s ]} = ok (is_state s v).
Proof.
  destruct v; cbn; try done. intros _. f_equal.
  apply bool_decide_ext. set_solver.
Qed.

Lemma is_state_spec s v : is_state s v = true ↔ v = JStr s.
Proof.
  destruct v; cbn; try (split; [done|by intros ?]).
  rewrite bool_decide_eq_true. split; [by intros ->|by intros [= ->]].
Qed.

(** The last call for an identifier. *)
Lemma last_call_cons (iid0 : string) (ids : list string) (k : nat)
    (iid : string) :
  last_call (iid0 :: ids) k iid →
  (k = 0%nat ∧ iid = iid0 ∧ iid0 ∉ ids) ∨
  (∃ k', k = S k' ∧ last_call ids k' iid).
Proof.
  intros [Hk Hlast]. destruct k as [|k]; cbn in Hk.
  - left. injection Hk as <-. split_and!; [done..|].
    intros (k' & Hk')%list_elem_of_lookup_1.
    apply (Hlast (S k')); [lia|done].
  - right. exists k. split; [done|]. split; [done|].
    intros k' Hlt. apply (Hlast (S k')). lia.
Qed.

Lemma last_call_exists (ids : list string) (iid : string) :
  iid ∈ ids → ∃ k, last_call ids k iid.
Proof.
  induction ids as [|iid0 ids IH]; intros Hin; [by apply elem_of_nil in Hin|].
  destruct (decide (iid ∈ ids)) as [Hrest|Hrest].
  - destruct (IH Hrest) as (k & Hk & Hlast). exists (S k). split; [done|].
    intros [|k'] Hlt; [lia|]. cbn. apply Hlast. lia.
  - apply elem_of_cons in Hin as [->|?]; [|done].
    exists 0%nat. split; [done|].
    intros [|k'] Hlt; [lia|]. cbn. intros Hk'.
    apply Hrest. by eapply list_elem_of_lookup_2.
Qed.

Lemma NoDup_last_call (ids : list string) (k : nat) (iid : string) :
  NoDup ids → ids !! k = Some iid → last_call ids k iid.
Proof.
  intros Hnd Hk. split; [done|]. intros k' Hlt Hk'.
  pose proof (NoDup_lookup _ _ _ _ Hnd Hk Hk'). lia.
Qed.

Section Sweep.

Variable t : Tracker.

(** The calls of the loop over [iid0 :: ids] from call [i] on are the
    call [i] for [iid0] and the calls of the loop over [ids] from call
    [S i] on. *)
Lemma sweep_cons_iff (s : string) (i : nat) (iid0 : string)
    (ids : list string) (st0 : IssueStatus) (iid : string) :
  get_issue_status t i iid0 = ok st0 →
  (∃ k st, (iid0 :: ids) !! k = Some iid
           ∧ get_issue_status t (i + k) iid = ok st
           ∧ state_type st = JStr s)
  ↔ (iid = iid0 ∧ state_type st0 = JStr s) ∨
    (∃ k st, ids !! k = Some iid
             ∧ get_issue_status t (S i + k) iid = ok st
             ∧ state_type st = JStr s).
Proof.
  intros Hget. split.
  - intros (k & st & Hk & Hst & Htype). destruct k as [|k]; cbn in Hk.
    + injection Hk as <-. rewrite Nat.add_0_r in Hst. left.
      split; [done|congruence].
    + right. exists k, st. rewrite Nat.add_succ_r in Hst. done.
  - intros [[-> Htype]|(k & st & Hk & Hst & Htype)].
    + exists 0%nat, st0. rewrite Nat.add_0_r. done.
    + exists (S k), st. rewrite Nat.add_succ_r. done.
Qed.

(** The sets and the map the loop adds to what it starts from. *)
Lemma check_loop_spec (ids : list string) (i : nat) (c x : gset string)
    (m : gmap string IssueStatus) :
  (∀ k iid, ids !! k = Some iid →
     ∃ st, get_issue_status t (i + k) iid = ok st
           ∧ hashable (state_type st)) →
  ∃ c' x' m',
    check_loop t i ids c x m = ok (c', x', m') ∧
    (∀ iid, iid ∈ c' ↔ iid ∈ c ∨
       ∃ k st, ids !! k = Some iid
               ∧ get_issue_status t (i + k) iid = ok st
               ∧ state_type st = JStr "completed") ∧
    (∀ iid, iid ∈ x' ↔ iid ∈ x ∨
       ∃ k st, ids !! k = Some iid
               ∧ get_issue_status t (i + k) iid = ok st
               ∧ state_type st = JStr "canceled") ∧
    (∀ k iid, last_call ids k iid →
       ∃ st, get_issue_status t (i + k) iid = ok st
             ∧ m' !! iid = Some st) ∧
    (∀ iid, iid ∉ ids → m' !! iid = m !! iid).
Proof.
  revert i c x m. induction ids as [|iid ids IH]; intros i c x m Hids.
  - exists c, x, m. split; [done|]. split_and!.
    + intros iid. split; [by left|]. by intros [?|(k & st & Hk & _)].
    + intros iid. split; [by left|]. by intros [?|(k & st & Hk & _)].
    + by intros k iid [Hk _].
    + done.
  - destruct (Hids 0%nat iid) as (st & Hget & Hhash); [done|].
    rewrite Nat.add_0_r in Hget.
    assert (∀ k iid', ids !! k = Some iid' →
              ∃ st, get_issue_status t (S i + k) iid' = ok st
                    ∧ hashable (state_type st)) as Hids'.
    { intros k iid' Hk. destruct (Hids (S k) iid' Hk) as (st' & Hst' & ?).
      rewrite Nat.add_succ_r in Hst'. by exists st'. }
    assert (∀ (m' : gmap string IssueStatus),
              (∀ k j, last_call ids k j →
                 ∃ st, get_issue_status t (S i + k) j = ok st
                       ∧ m' !! j = Some st) →
              (∀ j, j ∉ ids → m' !! j = <[iid:=st]> m !! j) →
              (∀ k j, last_call (iid :: ids) k j →
                 ∃ st, get_issue_status t (i + k) j = ok st
                       ∧ m' !! j = Some st) ∧
              (∀ j, j ∉ iid :: ids → m' !! j = m !! j)) as Hmap.
    { intros m' Hin Hout. split.
      - intros k j [(-> & -> & Hni)|(k' & -> & Hlast)]%last_call_cons.
        + exists st. rewrite Nat.add_0_r. split; [done|].
          by rewrite Hout, lookup_insert_eq.
        + rewrite Nat.add_succ_r. by apply Hin.
      - intros j [Hne Hni]%not_elem_of_cons.
        by rewrite Hout, lookup_insert_ne. }
    cbn [check_loop]. rewrite Hget. cbn.
    unfold COMPLETED_STATE_TYPES, CANCELLED_STATE_TYPES.
    rewrite !in_state_types_hashable by done. cbn.
    destruct (is_state "completed" (state_type st)) eqn:Hc; cbn;
      [|destruct (is_state "canceled" (state_type st)) eqn:Hx; cbn].
    + destruct (IH (S i) ({[iid]} ∪ c) x (<[iid:=st]> m) Hids')
        as (c' & x' & m' & -> & Hc' & Hx' & Hin & Hout).
      apply is_state_spec in Hc.
      exists c', x', m'. split; [done|].
      split_and!; [| |by apply Hmap..].
      * intros j. rewrite Hc', (sweep_cons_iff _ _ _ _ _ _ Hget),
          elem_of_union, elem_of_singleton. naive_solver.
      * intros j. rewrite Hx', (sweep_cons_iff _ _ _ _ _ _ Hget).
        split; [naive_solver|].
        intros [?|[[_ Htype]|?]]; [naive_solver| |naive_solver]. congruence.
    + destruct (IH (S i) c ({[iid]} ∪ x) (<[iid:=st]> m) Hids')
        as (c' & x' & m' & -> & Hc' & Hx' & Hin & Hout).
      apply is_state_spec in Hx.
      exists c', x', m'. split; [done|].
      split_and!; [| |by apply Hmap..].
      * intros j. rewrite Hc', (sweep_cons_iff _ _ _ _ _ _ Hget).
        split; [naive_solver|].
        intros [?|[[_ Htype]|?]]; [naive_solver| |naive_solver]. congruence.
      * intros j. rewrite Hx', (sweep_cons_iff _ _ _ _ _ _ Hget),
          elem_of_union, elem_of_singleton. naive_solver.
    + destruct (IH (S i) c x (<[iid:=st]> m) Hids')
        as (c' & x' & m' & -> & Hc' & Hx' & Hin & Hout).
      assert (state_type st ≠ JStr "completed") as Hnc.
      { intros Heq%is_state_spec. congruence. }
      assert (state_type st ≠ JStr "canceled") as Hnx.
      { intros Heq%is_state_spec. congruence. }
      exists c', x', m'. split; [done|].
      split_and!; [| |by apply Hmap..].
      * intros j. rewrite Hc', (sweep_cons_iff _ _ _ _ _ _ Hget).
        naive_solver.
      * intros j. rewrite Hx', (sweep_cons_iff _ _ _ _ _ _ Hget).
        naive_solver.
Qed.

Lemma get_issue_status_ok (n : nat) (iid : string) :
  execute t n iid ≠ inl KeyboardInterrupt →
  ∃ st, get_issue_status t n iid = ok st ∧
        (∀ e, fetch_issue_status t n iid = inl e → st = unknown_status iid) ∧
        (∀ st', fetch_issue_status t n iid = ok st' → st = st').
Proof.
  intros Hint. unfold get_issue_status.
  destruct (fetch_issue_status t n iid) as [e|st] eqn:Hfetch.
  - assert (is_Exception e = true) as ->.
    { destruct (fetch_raises _ _ _ _ Hfetch) as [?|Hex]; [done|].
      destruct e; try done. }
    exists (unknown_status iid). split_and!; [done..|]. by intros.
  - exists st. split_and!; [done| |]; by intros; simplify_eq.
Qed.

(** C5, as amended.  With the credentials in place, no call to the
    tracker interrupted by the user, and state types that a set can be
    asked about (anything but a list or a dictionary), the sweep
    returns, for every list of identifiers, and fails open per call:
    the call for the element [k] of the list is answered, by the record
    of state type [unknown] where the fetch raised and by the record
    fetched otherwise.  The completed set is exactly the identifiers
    for which some call was answered with state type [completed], the
    cancelled set exactly those for which some call was answered with
    [canceled].  The status map has one entry per identifier of the
    list, the answer of the last call for it.  Where the identifiers of
    the list are pairwise distinct: the completed set is exactly the
    identifiers whose entry has state type [completed], the cancelled
    set exactly those with [canceled]; an identifier whose fetch raised
    has the [unknown] record as its entry and is in neither set; and
    the two sets are disjoint. *)
Theorem check_issue_statuses_fail_open (ids : list string) (key : string) :
  ARCADE_API_KEY t = Some key → key ≠ "" →
  (∀ k iid, ids !! k = Some iid → execute t k iid ≠ inl KeyboardInterrupt) →
  (∀ k iid st, ids !! k = Some iid → fetch_issue_status t k iid = ok st →
               hashable (state_type st)) →
  ∃ completed cancelled status_map,
    check_issue_statuses t ids = ok (completed, cancelled, status_map) ∧
    dom status_map = list_to_set ids ∧
    (∀ k iid, ids !! k = Some iid →
       ∃ st, get_issue_status t k iid = ok st ∧
             (∀ e, fetch_issue_status t k iid = inl e →
                   st = unknown_status iid ∧ state_type st = JStr "unknown") ∧
             (∀ st', fetch_issue_status t k iid = ok st' → st = st') ∧
             (last_call ids k iid → status_map !! iid = Some st)) ∧
    (∀ iid, iid ∈ completed ↔
       ∃ k st, ids !! k = Some iid ∧ get_issue_status t k iid = ok st
               ∧ state_type st = JStr "completed") ∧
    (∀ iid, iid ∈ cancelled ↔
       ∃ k st, ids !! k = Some iid ∧ get_issue_status t k iid = ok st
               ∧ state_type st = JStr "canceled") ∧
    (NoDup ids →
       (∀ iid st, status_map !! iid = Some st →
          (iid ∈ completed ↔ state_type st = JStr "completed") ∧
          (iid ∈ cancelled ↔ state_type st = JStr "canceled")) ∧
       (∀ k iid e, ids !! k = Some iid →
          fetch_issue_status t k iid = inl e →
          status_map !! iid = Some (unknown_status iid)
          ∧ (iid ∉ completed) ∧ (iid ∉ cancelled)) ∧
       completed ## cancelled).
Proof.
  intros Hkey Hkey_ne Hint Hhash.
  assert (∀ k iid, ids !! k = Some iid →
            ∃ st, get_issue_status t (0 + k) iid = ok st
                  ∧ hashable (state_type st)) as Hids.
  { intros k iid Hk. cbn [Nat.add].
    destruct (get_issue_status_ok k iid (Hint k iid Hk))
      as (st & Hget & Herr & Hok).
    exists st. split; [done|].
    destruct (fetch_issue_status t k iid) as [e|st'] eqn:Hfetch.
    - by rewrite (Herr e).
    - rewrite (Hok st') by done. by apply (Hhash k iid). }
  destruct (check_loop_spec ids 0 ∅ ∅ ∅ Hids)
    as (completed & cancelled & status_map & Hrun & Hc & Hx & Hin & Hout).
  cbn [Nat.add] in Hc, Hx, Hin.
  exists completed, cancelled, status_map.
  assert (∀ iid, iid ∈ completed ↔
            ∃ k st, ids !! k = Some iid ∧ get_issue_status t k iid = ok st
                    ∧ state_type st = JStr "completed") as Hc_iff.
  { intros iid. rewrite Hc. split; [|by right].
    by intros [[]%not_elem_of_empty|?]. }
  assert (∀ iid, iid ∈ cancelled ↔
            ∃ k st, ids !! k = Some iid ∧ get_issue_status t k iid = ok st
                    ∧ state_type st = JStr "canceled") as Hx_iff.
  { intros iid. rewrite Hx. split; [|by right].
    by intros [[]%not_elem_of_empty|?]. }
  assert (dom status_map = list_to_set ids) as Hdom.
  { apply set_eq. intros iid. rewrite elem_of_dom, elem_of_list_to_set. split.
    - intros [st Hst]. destruct (decide (iid ∈ ids)) as [|Hni]; [done|].
      rewrite (Hout iid Hni), lookup_empty in Hst. done.
    - intros (k & Hlast)%last_call_exists.
      destruct (Hin k iid Hlast) as (st & _ & ->). by eexists. }
  split_and!; [| done | | done | done |].
  - unfold check_issue_statuses, _create_arcade_client. rewrite Hkey.
    by destruct key.
  - intros k iid Hk.
    destruct (get_issue_status_ok k iid (Hint k iid Hk))
      as (st & Hget & Herr & Hok).
    exists st. split_and!; [done| |done|].
    + intros e He. by rewrite (Herr e He).
    + intros Hlast. destruct (Hin k iid Hlast) as (st' & Hget' & Hst').
      congruence.
  - intros Hnd.
    assert (∀ iid st, status_map !! iid = Some st →
              ∃ k, ids !! k = Some iid ∧ get_issue_status t k iid = ok st)
      as Hentry.
    { intros iid st Hst.
      assert (iid ∈ ids) as (k & Hlast)%last_call_exists.
      { apply (elem_of_list_to_set (C := gset string)). rewrite <- Hdom.
        apply elem_of_dom. by eexists. }
      destruct (Hin k iid Hlast) as (st' & Hget & Hst').
      exists k. split; [by destruct Hlast|congruence]. }
    assert (∀ k k' iid st st',
              ids !! k = Some iid → ids !! k' = Some iid →
              get_issue_status t k iid = ok st →
              get_issue_status t k' iid = ok st' → st = st') as Hsame.
    { intros k k' iid st st' Hk Hk' Hst Hst'.
      pose proof (NoDup_lookup _ _ _ _ Hnd Hk Hk') as <-. congruence. }
    assert (∀ iid st, status_map !! iid = Some st →
              (iid ∈ completed ↔ state_type st = JStr "completed") ∧
              (iid ∈ cancelled ↔ state_type st = JStr "canceled")) as Hsets.
    { intros iid st (k & Hk & Hget)%Hentry. rewrite Hc_iff, Hx_iff. split.
      - split; [|by exists k, st].
        intros (k' & st' & Hk' & Hget' & Htype).
        by rewrite (Hsame _ _ _ _ _ Hk Hk' Hget Hget').
      - split; [|by exists k, st].
        intros (k' & st' & Hk' & Hget' & Htype).
        by rewrite (Hsame _ _ _ _ _ Hk Hk' Hget Hget'). }
    split_and!; [done| |].
    + intros k iid e Hk He.
      destruct (get_issue_status_ok k iid (Hint k iid Hk))
        as (st & Hget & Herr & _).
      rewrite (Herr e He) in Hget.
      destruct (Hin k iid (NoDup_last_call _ _ _ Hnd Hk)) as (st' & Hget' & Hst').
      assert (st' = unknown_status iid) as -> by congruence.
      destruct (Hsets _ _ Hst') as [-> ->]. by split_and!.
    + intros iid (k & st & Hk & Hget & Htype)%Hc_iff
                 (k' & st' & Hk' & Hget' & Htype')%Hx_iff.
      rewrite (Hsame _ _ _ _ _ Hk Hk' Hget Hget') in Htype. congruence.
Qed.

End Sweep.

Section SweepMore.

Variable t : Tracker.

(** What [get_issue_status] raises, the call to the tracker raised. *)
Lemma get_issue_status_raises (n : nat) (iid : string) (e : exn) :
  get_issue_status t n iid = raise e →
  e = KeyboardInterrupt ∧ execute t n iid = raise KeyboardInterrupt.
Proof.
  unfold get_issue_status.
  destruct (fetch_issue_status t n iid) as [e'|st] eqn:Hfetch; [|done].
  destruct (is_Exception e') eqn:He'; [done|]. intros [= <-].
  destruct (fetch_raises _ _ _ _ Hfetch) as [?|Hex]; [congruence|].
  by destruct e'.
Qed.

(** X8.  [get_issue_status] lets nothing through but a user interrupt of the
    call to the tracker, whichever call on the client it is.  Every
    other failure gives the record of state type [unknown] for the
    identifier asked about: an exception of the tracker, an answer that
    is not a dictionary, an answer whose ["issue"] or ["state"] is not
    a dictionary; and so does an answer that knows no ["issue"]. *)
Theorem get_issue_status_fail_open (n : nat) (iid : string) :
  (∀ e, get_issue_status t n iid = raise e →
        e = KeyboardInterrupt ∧ execute t n iid = raise KeyboardInterrupt) ∧
  (∀ e, execute t n iid = raise e → is_Exception e = true →
        get_issue_status t n iid = ok (unknown_status iid)) ∧
  (∀ e, fetch_issue_status t n iid = raise e → e ≠ KeyboardInterrupt →
        get_issue_status t n iid = ok (unknown_status iid)) ∧
  (∀ v, execute t n iid = ok v → (∀ d, v ≠ JDict d) →
        get_issue_status t n iid = ok (unknown_status iid)) ∧
  (∀ d, execute t n iid = ok (JDict d) → d !! "issue" = None →
        get_issue_status t n iid = ok (unknown_status iid)).
Proof.
  split_and!.
  - intros e. apply get_issue_status_raises.
  - intros e Hex He. unfold get_issue_status, fetch_issue_status.
    rewrite Hex. cbn. by rewrite He.
  - intros e Hfetch He. unfold get_issue_status. rewrite Hfetch.
    by destruct e.
  - intros v Hex Hv. unfold get_issue_status, fetch_issue_status.
    rewrite Hex. cbn. destruct v; try done. by destruct (Hv d).
  - intros d Hex Hnone. unfold get_issue_status, fetch_issue_status.
    rewrite Hex. cbn. rewrite Hnone. cbn. by rewrite !lookup_empty.
Qed.

Lemma in_state_types_raises v s e :
  in_state_types v s = raise e → e = TypeError "unhashable type" ∧ ¬ hashable v.
Proof. destruct v; cbn; intros ?; simplify_eq; by split; [|intros []]. Qed.

Lemma in_state_types_returns v s b : in_state_types v s = ok b → hashable v.
Proof. destruct v; cbn; intros ?; by simplify_eq. Qed.

(** How the loop of the sweep can fail. *)
Lemma check_loop_raises (ids : list string) (i : nat) (c x : gset string)
    (m : gmap string IssueStatus) (e : exn) :
  check_loop t i ids c x m = raise e →
  (e = KeyboardInterrupt ∧
   ∃ k iid, ids !! k = Some iid
            ∧ execute t (i + k) iid = raise KeyboardInterrupt) ∨
  (e = TypeError "unhashable type" ∧
   ∃ k iid st, ids !! k = Some iid ∧ get_issue_status t (i + k) iid = ok st
               ∧ ¬ hashable (state_type st)).
Proof.
  revert i c x m. induction ids as [|iid ids IH]; intros i c x m; [done|].
  assert (∀ c x m, check_loop t (S i) ids c x m = raise e →
            (e = KeyboardInterrupt ∧
             ∃ k iid', (iid :: ids) !! k = Some iid'
                       ∧ execute t (i + k) iid' = raise KeyboardInterrupt) ∨
            (e = TypeError "unhashable type" ∧
             ∃ k iid' st, (iid :: ids) !! k = Some iid'
                          ∧ get_issue_status t (i + k) iid' = ok st
                          ∧ ¬ hashable (state_type st))) as IH'.
  { intros c' x' m' [[-> (k & j & Hk & Hex)]|[-> (k & j & st & Hk & Hst)]]%IH.
    - left. split; [done|]. exists (S k), j. by rewrite Nat.add_succ_r.
    - right. split; [done|]. exists (S k), j, st. by rewrite Nat.add_succ_r. }
  cbn [check_loop].
  destruct (get_issue_status t i iid) as [e'|st] eqn:Hget; cbn.
  - intros [= <-]. left.
    destruct (get_issue_status_raises i iid e' Hget) as [-> Hex].
    split; [done|].
    exists 0%nat, iid. by rewrite Nat.add_0_r.
  - destruct (in_state_types (state_type st) COMPLETED_STATE_TYPES)
      as [e'|[]] eqn:Hc; cbn.
    + intros [= <-]. apply in_state_types_raises in Hc as [-> Hhash].
      right. split; [done|]. exists 0%nat, iid, st. by rewrite Nat.add_0_r.
    + apply IH'.
    + destruct (in_state_types (state_type st) CANCELLED_STATE_TYPES)
        as [e'|[]] eqn:Hx; cbn.
      * intros [= <-]. apply in_state_types_raises in Hx as [-> Hhash].
        right. split; [done|]. exists 0%nat, iid, st. by rewrite Nat.add_0_r.
      * apply IH'.
      * apply IH'.
Qed.

(** X9.  Every way in which [check_issue_statuses] can fail: the API key is
    not set (nothing is asked of the tracker then); the user
    interrupts a call to the tracker, the call number [k] for the
    element [k] of the list; or the tracker reports a state type that
    is a list or a dictionary, which the membership test of the loop,
    outside the error handling of the single fetch, cannot hash. *)
Theorem check_issue_statuses_failures (ids : list string) (e : exn) :
  check_issue_statuses t ids = raise e →
  (e = ValueError "ARCADE_API_KEY not set. Cannot check Linear issue statuses."
   ∧ (ARCADE_API_KEY t = None ∨ ARCADE_API_KEY t = Some "")) ∨
  (e = KeyboardInterrupt ∧
   ∃ k iid, ids !! k = Some iid ∧ iid ∈ ids
            ∧ execute t k iid = raise KeyboardInterrupt) ∨
  (e = TypeError "unhashable type" ∧
   ∃ k iid st, ids !! k = Some iid ∧ iid ∈ ids
               ∧ get_issue_status t k iid = ok st
               ∧ ¬ hashable (state_type st)).
Proof.
  unfold check_issue_statuses, _create_arcade_client.
  destruct (ARCADE_API_KEY t) as [[|c key]|] eqn:Hkey; cbn.
  - intros [= <-]. left. split; [done|by right].
  - intros He. right.
    apply check_loop_raises in He
      as [[-> (k & iid & Hk & Hex)]|[-> (k & iid & st & Hk & Hst & Hhash)]].
    + left. split; [done|]. exists k, iid.
      split_and!; [done|by eapply list_elem_of_lookup_2|done].
    + right. split; [done|]. exists k, iid, st.
      split_and!; [done|by eapply list_elem_of_lookup_2|done..].
  - intros [= <-]. left. split; [done|by left].
Qed.

(** A sweep that returns has met nothing but hashable state types. *)
Lemma check_loop_returns (ids : list string) (i : nat) (c x : gset string)
    (m : gmap string IssueStatus) r :
  check_loop t i ids c x m = ok r →
  ∀ k iid, ids !! k = Some iid →
    ∃ st, get_issue_status t (i + k) iid = ok st ∧ hashable (state_type st).
Proof.
  revert i c x m. induction ids as [|iid ids IH]; intros i c x m Hrun k iid' Hk;
    [done|].
  cbn [check_loop] in Hrun.
  destruct (get_issue_status t i iid) as [e|st] eqn:Hget; [done|]. cbn in Hrun.
  destruct (in_state_types (state_type st) COMPLETED_STATE_TYPES)
    as [e|b] eqn:Hc; [done|]. cbn in Hrun.
  pose proof (in_state_types_returns _ _ _ Hc) as Hhash.
  assert (∃ c' x' m', check_loop t (S i) ids c' x' m' = ok r)
    as (c' & x' & m' & Hrest).
  { destruct b; [by eexists _, _, _|].
    destruct (in_state_types (state_type st) CANCELLED_STATE_TYPES)
      as [e|[]]; [done|by eexists _, _, _..]. }
  destruct k as [|k]; cbn in Hk.
  - injection Hk as <-. rewrite Nat.add_0_r. by exists st.
  - rewrite Nat.add_succ_r. by eapply (IH (S i)).
Qed.

(** The two sets of a sweep that returns, and the entries of its
    map. *)
Lemma check_issue_statuses_sets (ids : list string) (c x : gset string)
    (m : gmap string IssueStatus) :
  check_issue_statuses t ids = ok (c, x, m) →
  (∀ iid, iid ∈ c ↔
     ∃ k st, ids !! k = Some iid ∧ get_issue_status t k iid = ok st
             ∧ state_type st = JStr "completed") ∧
  (∀ iid, iid ∈ x ↔
     ∃ k st, ids !! k = Some iid ∧ get_issue_status t k iid = ok st
             ∧ state_type st = JStr "canceled").
Proof.
  unfold check_issue_statuses.
  destruct (_create_arcade_client t) as [e|[]]; [done|]. cbn. intros Hrun.
  destruct (check_loop_spec t ids 0 ∅ ∅ ∅ (check_loop_returns _ _ _ _ _ _ Hrun))
    as (c' & x' & m' & Hrun' & Hc & Hx & _).
  rewrite Hrun in Hrun'. injection Hrun' as <- <- <-.
  cbn [Nat.add] in Hc, Hx. split.
  - intros iid. rewrite Hc. set_solver.
  - intros iid. rewrite Hx. set_solver.
Qed.

Lemma check_issue_statuses_entries (ids : list string) (c x : gset string)
    (m : gmap string IssueStatus) (iid : string) (st : IssueStatus) :
  check_issue_statuses t ids = ok (c, x, m) →
  m !! iid = Some st →
  ∃ k, ids !! k = Some iid ∧ get_issue_status t k iid = ok st.
Proof.
  unfold check_issue_statuses.
  destruct (_create_arcade_client t) as [e|[]]; [done|]. cbn. intros Hrun Hst.
  destruct (check_loop_spec t ids 0 ∅ ∅ ∅ (check_loop_returns _ _ _ _ _ _ Hrun))
    as (c' & x' & m' & Hrun' & _ & _ & Hin & Hout).
  rewrite Hrun in Hrun'. injection Hrun' as <- <- <-.
  cbn [Nat.add] in Hin.
  destruct (decide (iid ∈ ids)) as [(k & Hlast)%last_call_exists|Hni].
  - destruct (Hin k iid Hlast) as (st' & Hget & Hst').
    exists k. split; [by destruct Hlast|congruence].
  - by rewrite (Hout iid Hni), lookup_empty in Hst.
Qed.

(** The status summary goes through when every state name is a
    text. *)
Lemma print_status_summary_texts (m : gmap string IssueStatus)
    (c x : gset string) :
  map_Forall (λ _ st, ∃ s, state_name st = JStr s) m →
  print_status_summary m c x = ok ().
Proof.
  intros Htext. unfold print_status_summary.
  assert (Forall (λ v, name_kind_of v = Some TextName)
            ((λ kv : string * IssueStatus, state_name kv.2)
               <$> map_to_list m)) as Hnames.
  { apply Forall_fmap, Forall_forall. intros [iid st] Hin%elem_of_map_to_list.
    destruct (Htext iid st Hin) as [s Hs]. cbn. by rewrite Hs. }
  rewrite bool_decide_true.
  - rewrite (bool_decide_true _ Hnames). done.
  - eapply Forall_impl; [exact Hnames|]. intros v ->. by eexists.
Qed.

(** The sweep of a tracker whose state names are texts can be
    summarised. *)
Lemma sweep_summary (ids : list string) (c x : gset string)
    (m : gmap string IssueStatus) :
  (∀ k iid st, ids !! k = Some iid → fetch_issue_status t k iid = ok st →
               ∃ s, state_name st = JStr s) →
  check_issue_statuses t ids = ok (c, x, m) →
  print_status_summary m c x = ok ().
Proof.
  intros Htext Hrun. apply print_status_summary_texts.
  intros iid st Hst.
  destruct (check_issue_statuses_entries _ _ _ _ _ _ Hrun Hst) as (k & Hk & Hget).
  unfold get_issue_status in Hget.
  destruct (fetch_issue_status t k iid) as [e|st'] eqn:Hfetch.
  - destruct (is_Exception e); [|done]. injection Hget as <-. by eexists.
  - injection Hget as <-. by eapply Htext.
Qed.

End SweepMore.

Lemma check_issue_statuses_fail_open_witness :
  ∃ completed cancelled status_map,
    check_issue_statuses Scenarios.s2_tracker ["T-1"; "T-2"; "T-3"; "T-4"]
      = ok (completed, cancelled, status_map) ∧
    dom status_map = list_to_set ["T-1"; "T-2"; "T-3"; "T-4"] ∧
    status_map !! "T-2" = Some (unknown_status "T-2") ∧
    ("T-2" ∉ completed) ∧ ("T-2" ∉ cancelled) ∧
    completed ## cancelled.
Proof.
  destruct (check_issue_statuses_fail_open Scenarios.s2_tracker
              ["T-1"; "T-2"; "T-3"; "T-4"] "key")
    as (completed & cancelled & status_map & Hrun & Hdom & _ & _ & _ & Hnd).
  - reflexivity.
  - discriminate.
  - intros k iid Hk.
    do 4 (destruct k as [|k]; [injection Hk as <-; discriminate|]).
    done.
  - intros k iid st Hk.
    do 4 (destruct k as [|k];
          [injection Hk as <-; vm_compute; intros Heq; by simplify_eq|]).
    done.
  - destruct Hnd as (_ & Hfail & Hdisj); [compute_done|].
    destruct (Hfail 1%nat "T-2" (RuntimeError "API error"))
      as (Hentry & Hnc & Hnx); [reflexivity..|].
    by exists completed, cancelled, status_map.
Defined.

(** The claim C5 as it is written fails in four ways.  With an
    identifier that is twice in the list and a tracker that answers the
    first call and fails at the second, the error for the identifier
    leaves it in the completed set, which is then not the set of the
    identifiers whose entry of the status map has state type
    [completed].  A state type that is a list, a user interrupt, and a
    missing API key each end the sweep with an exception for the whole
    list. *)
Lemma check_issue_statuses_counterexample :
  (∃ status_map,
     check_issue_statuses Scenarios.flaky_tracker ["T-1"; "T-1"]
       = ok ({[ "T-1" ]}, ∅, status_map) ∧
     fetch_issue_status Scenarios.flaky_tracker 1 "T-1"
       = raise (RuntimeError "API error") ∧
     status_map !! "T-1" = Some (unknown_status "T-1") ∧
     ¬ (∀ iid st, status_map !! iid = Some st →
          (iid ∈ ({[ "T-1" ]} : gset string)
           ↔ state_type st = JStr "completed"))) ∧
  check_issue_statuses Scenarios.list_state_tracker ["T-1"]
    = raise (TypeError "unhashable type") ∧
  check_issue_statuses Scenarios.interrupted_tracker ["T-1"]
    = raise KeyboardInterrupt ∧
  check_issue_statuses
      (mkTracker None (execute Scenarios.s2_tracker)) ["T-1"]
    = raise (ValueError
               "ARCADE_API_KEY not set. Cannot check Linear issue statuses.").
Proof.
  split_and!; [|vm_compute; reflexivity..].
  eexists. split_and!; [vm_compute; reflexivity..|].
  intros H.
  destruct (H "T-1" (unknown_status "T-1")) as [Hcontra _];
    [vm_compute; reflexivity|].
  by specialize (Hcontra ltac:(set_solver)).
Qed.

(** Scenario S2: the tracker reports T-1 completed and T-4 cancelled;
    the failed fetch of T-2 leaves it open. *)
Example s2_check_issue_statuses :
  ∃ status_map,
    check_issue_statuses Scenarios.s2_tracker ["T-1"; "T-2"; "T-3"; "T-4"]
      = ok ({[ "T-1" ]}, {[ "T-4" ]}, status_map) ∧
    status_map !! "T-2" = Some (unknown_status "T-2").
Proof. eexists. split; vm_compute; reflexivity. Qed.

Lemma check_issue_statuses_failures_witness :
  check_issue_statuses Scenarios.list_state_tracker ["T-1"]
    = raise (TypeError "unhashable type") ∧
  ∃ k iid st, ["T-1"] !! k = Some iid ∧ iid ∈ ["T-1"] ∧
    get_issue_status Scenarios.list_state_tracker k iid = ok st ∧
    ¬ hashable (state_type st).
Proof.
  assert (check_issue_statuses Scenarios.list_state_tracker ["T-1"]
          = raise (TypeError "unhashable type")) as Hrun
    by (vm_compute; reflexivity).
  split; [done|].
  destruct (check_issue_statuses_failures Scenarios.list_state_tracker
              ["T-1"] _ Hrun) as [[? _]|[[? _]|[_ H]]];
    [discriminate..|exact H].
Defined.

End LinearStatusFacts.

(** ** The job queue driver *)

Module QueueRunnerFacts.

Import QueueRunner.
Local Open Scope Z_scope.

Section Driver.

Variable env : QEnv.

(** C10.  When the identifier given to [add] is already in the queue
    store, the command returns the exit code 1 and the world is as it
    was: the queue file is not written and holds the same jobs. *)
Theorem cmd_add_duplicate (args : AddArgs) (w : QWorld) :
  arg_id args ∈ id <$> jobs (load_queue w) →
  cmd_add env args w = (1, w) ∧
  (cmd_add env args w).1 ≠ 0 ∧
  queue_file (cmd_add env args w).2 = queue_file w ∧
  load_queue (cmd_add env args w).2 = load_queue w.
Proof.
  intros Hdup.
  assert (cmd_add env args w = (1, w)) as ->; [|done].
  unfold cmd_add. destruct (negb _); [done|].
  rewrite bool_decide_eq_true_2; [done|]. by apply elem_of_list_to_set.
Qed.

(** An identifier that is new is appended and saved. *)
Lemma cmd_add_fresh (args : AddArgs) (w : QWorld) :
  path_exists env (spec_source_of env (arg_spec_path args)) (files w) = true →
  arg_id args ∉ id <$> jobs (load_queue w) →
  ∃ job w',
    cmd_add env args w = (0, w') ∧ id job = arg_id args ∧
    queue_file w' = Some (mkQueueState (version (load_queue w))
                            (jobs (load_queue w) ++ [job])).
Proof.
  intros Hspec Hfresh. unfold cmd_add. rewrite Hspec. cbn.
  rewrite bool_decide_eq_false_2 by (by rewrite elem_of_list_to_set).
  eexists _, _. split; [reflexivity|]. split; [|reflexivity]. reflexivity.
Qed.

(** *** The jobs that are processed *)

(** The positions [start] goes through are those of the jobs that are
    pending, interrupted or (left) running. *)
Lemma get_processable_jobs_spec (state : QueueState) (i : nat) :
  i ∈ _get_processable_jobs state ↔
  ∃ job, jobs state !! i = Some job ∧
         (status job = pending ∨ status job = interrupted
          ∨ status job = running).
Proof.
  unfold _get_processable_jobs, processable.
  rewrite list_elem_of_fmap. split.
  - intros ([i' job] & -> & [Hp Hin]%list_elem_of_filter).
    apply elem_of_lookup_imap in Hin as (k & job' & Heq & Hk).
    injection Heq as -> ->.
    exists job'. split; [done|]. cbn in Hp.
    apply bool_decide_eq_true in Hp.
    repeat (apply elem_of_cons in Hp as [->|Hp]; [tauto|]).
    by apply elem_of_nil in Hp.
  - intros (job & Hjob & Hstatus). exists (i, job). split; [done|].
    apply list_elem_of_filter. split.
    + cbn. apply bool_decide_eq_true.
      destruct Hstatus as [-> | [-> | ->]]; set_solver.
    + apply elem_of_lookup_imap. by exists i, job.
Qed.

(** A user interrupt ends the loop: the jobs after the interrupted one
    are not run. *)
Lemma start_loop_interrupt (dry_run : bool) (i : nat) (rest : list nat)
    (state state' : QueueState) (w w' : QWorld) (e : exn) :
  start_step env dry_run i state w = (state', Some e, w') →
  start_loop env dry_run (i :: rest) state w = (state', Some e, w').
Proof. intros Hstep. cbn [start_loop]. by rewrite Hstep. Qed.

(** *** The exit status of a job *)

Lemma swap_spec_raises spec_source fs e fs' b :
  swap_spec env spec_source fs = (Some e, fs', b) → is_Exception e = true.
Proof.
  unfold swap_spec, copy2. intros H.
  repeat (case_bool_decide || case_match || simplify_eq); done.
Qed.

Lemma exit_message_nonempty (rc : Z) : "Process exited with code " +:+ pretty rc ≠ "".
Proof. done. Qed.

(** C8.  For a job of the queue whose spec file exists, one round of
    [start] that is not a dry run leaves the job, in place, with the
    status the child process calls for: [completed] for exit code 0,
    [interrupted] for 130, [failed] with a non-empty error message for
    any other code; [failed] when an exception is caught, whether it
    comes from the swap of the spec or from running the child;
    [interrupted] when the user interrupts, and then the interrupt is
    raised again.  In every case the queue file holds the queue with
    the updated job when the round ends. *)
Theorem start_step_status (state : QueueState) (w : QWorld) (i : nat)
    (job : QueueJob) :
  jobs state !! i = Some job →
  path_exists env (spec_source_of env (spec_path job)) (files w) = true →
  ∃ job' raised w',
    start_step env false i state w
      = (mkQueueState (version state) (<[i := job']> (jobs state)), raised, w') ∧
    queue_file w'
      = Some (mkQueueState (version state) (<[i := job']> (jobs state))) ∧
    <[i := job']> (jobs state) !! i = Some job' ∧
    match swap_spec env (spec_source_of env (spec_path job)) (files w) with
    | (Some e, _, _) => status job' = failed ∧ raised = None
    | (None, fs, _) =>
        let cmd :=
          _build_command env
            (set_project_dir
               (path_join (path_join (HARNESS_DIR env) "generations") (id job))
               job) in
        match (run_child env cmd fs).1 with
        | Exited rc _ =>
            raised = None ∧ exit_code job' = Some rc ∧
            (rc = 0 → status job' = completed) ∧
            (rc = 130 → status job' = interrupted) ∧
            (rc ≠ 0 → rc ≠ 130 →
             status job' = failed ∧ ∃ msg, error job' = Some msg ∧ msg ≠ "")
        | Raised e =>
            if is_Exception e
            then status job' = failed ∧ error job' = Some (exn_str e)
                 ∧ raised = None
            else status job' = interrupted ∧ raised = Some e
        end
    end.
Proof.
  intros Hjob Hspec.
  assert (∀ job', <[i := job']> (jobs state) !! i = Some job') as Hlookup.
  { intros job'. apply list_lookup_insert_eq. by eapply lookup_lt_Some. }
  unfold start_step, _run_job. rewrite Hjob, Hspec. cbn [negb].
  destruct (swap_spec env (spec_source_of env (spec_path job)) (files w))
    as [[[e|] fs] swapped] eqn:Hswap.
  - apply swap_spec_raises in Hswap.
    unfold handle_exception. cbn. rewrite Hswap.
    eexists _, _, _. split_and!; first [reflexivity|done].
  - cbn.
    destruct (run_child env _ fs) as [[rc elapsed|e] fs'] eqn:Hchild; cbn.
    + eexists _, _, _.
      split_and!; [reflexivity|reflexivity|done|done| |..].
      * repeat case_bool_decide; reflexivity.
      * intros ->. reflexivity.
      * intros ->. reflexivity.
      * intros H0 H130. cbn. rewrite !bool_decide_eq_false_2 by done.
        split; [reflexivity|]. by eexists.
    + unfold handle_exception. cbn. destruct (is_Exception e);
        eexists _, _, _; split_and!; first [reflexivity|done].
Qed.

(** *** The canonical spec file *)

(** Whatever the child does, the files [_run_job] leaves are those the
    child left after the swap, restored. *)
Lemma run_job_files (job : QueueJob) (w : QWorld) fs1 swapped :
  let src := spec_source_of env (spec_path job) in
  let cmd :=
    _build_command env
      (set_project_dir
         (path_join (path_join (HARNESS_DIR env) "generations") (id job))
         job) in
  path_exists env src (files w) = true →
  swap_spec env src (files w) = (None, fs1, swapped) →
  files (_run_job env job false w).2
  = restore_spec env swapped (run_child env cmd fs1).2.
Proof.
  intros src cmd Hspec Hswap. subst cmd. unfold _run_job. fold src.
  rewrite Hspec, Hswap. cbv beta iota zeta. cbn [negb now_iso with_files files].
  destruct (run_child env _ fs1) as [[rc elapsed|e] fs'].
  - unfold record_exit, now_iso, with_files. cbv beta iota zeta.
    by cbn [files fst snd].
  - unfold handle_exception, now_iso, with_files. cbv beta iota zeta.
    by destruct (is_Exception e).
Qed.

(** X10.  The swap and the restore, for a job whose spec is another file
    than the canonical one and than the backup, in a world where no
    backup file lies around unless the canonical file exists, and
    with a child that leaves the backup file alone: the child finds
    the bytes of the job's spec under the canonical name, and when the
    job is over, however it ends, the canonical file is as it was
    before, present with the same bytes or absent. *)
Lemma run_job_swap_restore (job : QueueJob) (w : QWorld) :
  let src := spec_source_of env (spec_path job) in
  let cmd :=
    _build_command env
      (set_project_dir
         (path_join (path_join (HARNESS_DIR env) "generations") (id job))
         job) in
  path_exists env src (files w) = true →
  resolve env src ≠ resolve env (APP_SPEC_PATH env) →
  resolve env (backup_path env) ≠ resolve env (APP_SPEC_PATH env) →
  resolve env src ≠ resolve env (backup_path env) →
  (∀ fs, (run_child env cmd fs).2 !! resolve env (backup_path env)
         = fs !! resolve env (backup_path env)) →
  (files w !! resolve env (APP_SPEC_PATH env) = None →
   files w !! resolve env (backup_path env) = None) →
  ∃ fs1,
    swap_spec env src (files w) = (None, fs1, true) ∧
    fs1 !! resolve env (APP_SPEC_PATH env) = files w !! resolve env src ∧
    files (_run_job env job false w).2
      = restore_spec env true (run_child env cmd fs1).2 ∧
    files (_run_job env job false w).2 !! resolve env (APP_SPEC_PATH env)
      = files w !! resolve env (APP_SPEC_PATH env).
Proof.
  intros src cmd Hspec Hsrc Hbak Hsrc_bak Hchild Hstale.
  assert (∃ b, files w !! resolve env src = Some b) as [b Hb].
  { unfold path_exists in Hspec. by apply bool_decide_eq_true in Hspec. }
  assert (∃ fs1, swap_spec env src (files w) = (None, fs1, true) ∧
                 fs1 !! resolve env (APP_SPEC_PATH env) = Some b ∧
                 fs1 !! resolve env (backup_path env)
                 = files w !! resolve env (APP_SPEC_PATH env))
    as (fs1 & Hswap & Hfs1 & Hfs1_bak).
  { unfold swap_spec, path_exists, copy2.
    rewrite bool_decide_eq_true_2 by done.
    destruct (files w !! resolve env (APP_SPEC_PATH env)) as [a|] eqn:Ha.
    - rewrite bool_decide_eq_true_2 by done.
      rewrite bool_decide_eq_false_2 by done.
      rewrite lookup_insert_ne, Hb by done.
      rewrite bool_decide_eq_false_2 by done.
      eexists. split; [done|].
      rewrite lookup_insert_eq, lookup_insert_ne, lookup_insert_eq by done.
      done.
    - rewrite bool_decide_eq_false_2 by (by intros [? ?]).
      rewrite Hb. rewrite bool_decide_eq_false_2 by done.
      eexists. split; [done|].
      rewrite lookup_insert_eq, lookup_insert_ne by done.
      split; [done|]. by apply Hstale. }
  exists fs1. split_and!; [done|congruence|by apply run_job_files|].
  rewrite (run_job_files job w fs1 true Hspec Hswap). fold cmd.
  unfold restore_spec, path_exists, move, unlink. cbn [andb].
  rewrite Hchild, Hfs1_bak.
  destruct (files w !! resolve env (APP_SPEC_PATH env)) as [a|] eqn:Ha.
  - rewrite bool_decide_eq_true_2 by done.
    rewrite bool_decide_eq_false_2 by done. by rewrite lookup_insert_eq.
  - rewrite bool_decide_eq_false_2 by (by intros [? ?]). cbn.
    by rewrite lookup_delete_eq.
Qed.

(** A job whose spec is the canonical file: the driver leaves the
    files to the child. *)
Lemma run_job_same_spec (job : QueueJob) (w : QWorld) :
  let src := spec_source_of env (spec_path job) in
  let cmd :=
    _build_command env
      (set_project_dir
         (path_join (path_join (HARNESS_DIR env) "generations") (id job))
         job) in
  path_exists env src (files w) = true →
  resolve env src = resolve env (APP_SPEC_PATH env) →
  swap_spec env src (files w) = (None, files w, false) ∧
  files (_run_job env job false w).2 = (run_child env cmd (files w)).2.
Proof.
  intros src cmd Hspec Hsame.
  assert (swap_spec env src (files w) = (None, files w, false)) as Hswap.
  { unfold swap_spec. by rewrite bool_decide_eq_false_2 by (by intros []). }
  split; [done|]. by rewrite (run_job_files job w _ _ Hspec Hswap).
Qed.

End Driver.

Section Commands.

Variable env : QEnv.

(** *** The status report *)

Lemma count_status_total (js : list QueueJob) :
  count_status pending js + count_status running js + count_status completed js
  + count_status failed js + count_status interrupted js
  = Z.of_nat (length js).
Proof.
  unfold count_status. induction js as [|j js IH]; [done|].
  rewrite !filter_cons. cbn [length].
  destruct (status j); repeat case_decide; try done; cbn [length]; lia.
Qed.

(** X11.  [status] reads the queue and reports on it: the exit code is 1
    exactly when the queue is not empty and a non-empty [--id] names no
    job of it (on an empty queue any filter gives 0); the jobs shown
    are those of the queue, in order, that the filter keeps; and the
    summary of the JSON document counts the whole queue, whatever the
    filter, its five counts adding up to the total. *)
Theorem cmd_status_report (args : StatusArgs) (w : QWorld) :
  let js := jobs (load_queue w) in
  let shown :=
    match status_id args with
    | None | Some EmptyString => js
    | Some job_id => filter (λ j, id j = job_id) js
    end in
  ((cmd_status args w).1 = 1 ↔ js ≠ [] ∧ shown = []) ∧
  ((cmd_status args w).1 = 0 ∨ (cmd_status args w).1 = 1) ∧
  (js = [] → (cmd_status args w).1 = 0) ∧
  match (cmd_status args w).2 with
  | EmptyJson => js = [] ∧ status_json args = true
  | EmptyText => js = [] ∧ status_json args = false
  | NotFound job_id => status_id args = Some job_id ∧ job_id ∉ id <$> js
  | JsonDocument out summary =>
      status_json args = true ∧ out = shown ∧ out ≠ [] ∧
      sum_total summary = Z.of_nat (length js) ∧
      sum_pending summary + sum_running summary + sum_completed summary
      + sum_failed summary + sum_interrupted summary = sum_total summary ∧
      sum_completed summary = count_status completed js ∧
      sum_failed summary = count_status failed js ∧
      sum_pending summary = count_status pending js ∧
      sum_running summary = count_status running js ∧
      sum_interrupted summary = count_status interrupted js
  | TextListing total out =>
      status_json args = false ∧ out = shown ∧ out ≠ [] ∧
      total = Z.of_nat (length js)
  end.
Proof.
  intros js shown. subst shown. unfold cmd_status. fold js.
  destruct js as [|j0 js0] eqn:Hjs.
  { split_and!; [|by left|done|by destruct (status_json args)].
    cbn. split; [done|]. by intros [? _]. }
  rewrite <- Hjs. assert (js ≠ []) as Hne by (by rewrite Hjs).
  assert (∀ job_id, filter (λ j, id j = job_id) js = [] → job_id ∉ id <$> js)
    as Hnone.
  { intros job_id Hnil (j & -> & Hin)%list_elem_of_fmap.
    assert (j ∈ filter (λ j', id j' = id j) js) as Hj
      by (by apply list_elem_of_filter).
    rewrite Hnil in Hj. by apply elem_of_nil in Hj. }
  pose proof (count_status_total js) as Hsum.
  destruct (status_id args) as [[|c job_id]|] eqn:Hid.
  - cbn. destruct (status_json args); cbn; split_and!; try done; try by left.
    all: split; [done|by intros [? ?]].
  - destruct (filter (λ j, id j = String c job_id) js) as [|j1 shown] eqn:Hf.
    + cbn. split_and!; try done; [by right|by apply Hnone].
    + cbn. destruct (status_json args); cbn; split_and!; try done; try by left.
      all: split; [done|by intros [? ?]].
  - cbn. destruct (status_json args); cbn; split_and!; try done; try by left.
    all: split; [done|by intros [? ?]].
Qed.

(** *** What [start] does to the queue *)

Lemma handle_exception_spec e job w job' raised w' :
  handle_exception env e job w = (job', raised, w') →
  id job' = id job ∧ files w' = files w ∧ queue_file w' = queue_file w ∧
  (raised = None → status job' = failed) ∧
  (∀ e', raised = Some e' →
         e' = KeyboardInterrupt ∧ status job' = interrupted).
Proof.
  unfold handle_exception, now_iso. destruct (is_Exception e) eqn:He.
  - intros [= <- <- <-]. by split_and!.
  - intros [= <- <- <-]. split_and!; [done..|].
    intros e' [= <-]. split; [|done]. by destruct e.
Qed.

Lemma run_job_spec job dry w job' raised w' :
  _run_job env job dry w = (job', raised, w') →
  id job' = id job ∧ queue_file w' = queue_file w ∧
  (dry = true → w' = w ∧ raised = None) ∧
  (raised = None → dry = false → settled job') ∧
  (∀ e, raised = Some e →
        e = KeyboardInterrupt ∧ status job' = interrupted ∧ dry = false).
Proof.
  unfold _run_job.
  destruct (negb (path_exists env (spec_source_of env (spec_path job)) (files w))).
  { intros [= <- <- <-]. split_and!; [done..| |done].
    intros _ _. right. by left. }
  destruct dry.
  { intros [= <- <- <-]. by split_and!. }
  destruct (swap_spec env _ (files w)) as [[swap_raised fs] swapped].
  destruct swap_raised as [e|].
  - destruct (handle_exception env e _ (with_files fs w))
      as [[job1 raised1] w1] eqn:Hh.
    apply handle_exception_spec in Hh as (Hid & _ & Hq & Hnone & Hsome).
    intros [= <- <- <-]. split_and!; [done..| |].
    + intros Hr _. right. left. by apply Hnone.
    + intros e' He'. destruct (Hsome e' He') as [-> ?]. by split_and!.
  - cbn [now_iso with_files files].
    destruct (run_child env _ fs) as [[rc elapsed|e] fs'].
    + unfold record_exit, now_iso, with_files. cbv beta iota zeta.
      intros [= <- <- <-]. split_and!; [by repeat case_bool_decide|done..| |done].
      intros _ _. unfold settled.
      repeat case_bool_decide; cbn; by eauto.
    + match goal with
      | |- context [handle_exception env e ?j ?w0] =>
          destruct (handle_exception env e j w0) as [[job1 raised1] w1] eqn:Hh
      end.
      apply handle_exception_spec in Hh as (Hid & _ & Hq & Hnone & Hsome).
      intros [= <- <- <-]. split_and!; [done..| |].
      * intros Hr _. right. left. by apply Hnone.
      * intros e' He'. destruct (Hsome e' He') as [-> ?]. by split_and!.
Qed.

Lemma start_step_spec dry i state w state' raised w' :
  start_step env dry i state w = (state', raised, w') →
  version state' = version state ∧
  id <$> jobs state' = id <$> jobs state ∧
  (∀ j, j ≠ i → jobs state' !! j = jobs state !! j) ∧
  (dry = true → w' = w ∧ raised = None) ∧
  (dry = false → is_Some (jobs state !! i) → queue_file w' = Some state') ∧
  (raised = None → dry = false → is_Some (jobs state !! i) →
   ∃ job', jobs state' !! i = Some job' ∧ settled job') ∧
  (∀ e, raised = Some e →
     e = KeyboardInterrupt ∧ dry = false ∧
     ∃ job', jobs state' !! i = Some job' ∧ status job' = interrupted).
Proof.
  unfold start_step. destruct (jobs state !! i) as [job|] eqn:Hjob.
  - destruct (_run_job env job dry w) as [[job1 raised1] w1] eqn:Hrun.
    apply run_job_spec in Hrun as (Hid & Hq & Hdry & Hnone & Hsome).
    intros [= <- <- <-]. cbn [version jobs].
    assert (<[i := job1]> (jobs state) !! i = Some job1) as Hi.
    { apply list_lookup_insert_eq. by eapply lookup_lt_Some. }
    split_and!; [done| | | | | |].
    + rewrite list_fmap_insert, Hid. apply list_insert_id.
      by rewrite list_lookup_fmap, Hjob.
    + intros j Hj. by apply list_lookup_insert_ne.
    + intros ->. by destruct Hdry as [-> ->].
    + by intros -> _.
    + intros Hr Hd _. exists job1. split; [done|by apply Hnone].
    + intros e He. destruct (Hsome e He) as (-> & Hst & ->).
      split_and!; [done..|]. by exists job1.
  - intros [= <- <- <-]. by split_and!.
Qed.

Lemma start_loop_spec dry todo :
  ∀ state w state' raised w',
  start_loop env dry todo state w = (state', raised, w') →
  (∀ i, i ∈ todo → is_Some (jobs state !! i)) →
  version state' = version state ∧
  id <$> jobs state' = id <$> jobs state ∧
  (∀ j, j ∉ todo → jobs state' !! j = jobs state !! j) ∧
  (dry = true → w' = w ∧ raised = None) ∧
  (dry = false → todo ≠ [] → queue_file w' = Some state') ∧
  (raised = None → dry = false →
   ∀ i, i ∈ todo → ∃ job', jobs state' !! i = Some job' ∧ settled job') ∧
  (∀ e, raised = Some e →
     e = KeyboardInterrupt ∧ dry = false ∧
     ∃ i job', i ∈ todo ∧ jobs state' !! i = Some job'
               ∧ status job' = interrupted).
Proof.
  induction todo as [|i todo IH]; intros state w state' raised w' Hrun Hvalid.
  { cbn in Hrun. injection Hrun as <- <- <-. split_and!; try done.
    intros _ _ i Hi. by apply elem_of_nil in Hi. }
  cbn [start_loop] in Hrun.
  destruct (start_step env dry i state w) as [[state1 raised1] w1] eqn:Hstep.
  apply start_step_spec in Hstep
    as (Hv & Hids & Hother & Hdry & Hsave & Hnone & Hsome).
  assert (is_Some (jobs state !! i)) as Hi by (apply Hvalid; by left).
  assert (∀ j, is_Some (jobs state1 !! j) ↔ is_Some (jobs state !! j)) as Hlen.
  { intros j. rewrite <- !(fmap_is_Some id), <- !list_lookup_fmap.
    by rewrite Hids. }
  destruct raised1 as [e|].
  - injection Hrun as <- <- <-.
    destruct (Hsome e eq_refl) as (-> & -> & job' & Hjob' & Hst).
    split_and!; [done..| | | | |].
    + intros j [Hj _]%not_elem_of_cons. by apply Hother.
    + done.
    + intros _ _. by apply Hsave.
    + done.
    + intros e' [= <-]. split_and!; [done..|].
      exists i, job'. split; [by left|done].
  - assert (∀ i', i' ∈ todo → is_Some (jobs state1 !! i')) as Hvalid'.
    { intros i' Hi'. apply Hlen, Hvalid. by right. }
    destruct (IH _ _ _ _ _ Hrun Hvalid')
      as (Hv' & Hids' & Hother' & Hdry' & Hsave' & Hnone' & Hsome').
    split_and!.
    + congruence.
    + congruence.
    + intros j [Hj Hjt]%not_elem_of_cons. rewrite Hother' by done.
      by apply Hother.
    + intros ->. destruct Hdry as [-> _]; [done|]. by apply Hdry'.
    + intros -> _. destruct todo as [|i' todo'].
      * cbn in Hrun. injection Hrun as <- <- <-. by apply Hsave.
      * by apply Hsave'.
    + intros -> -> i' Hi'.
      destruct (decide (i' ∈ todo)) as [Hin|Hout]; [by apply Hnone'|].
      apply elem_of_cons in Hi' as [->|?]; [|done].
      rewrite (Hother' i Hout). by apply Hnone.
    + intros e He. destruct (Hsome' e He) as (-> & -> & i' & job' & Hin & Hrest).
      split_and!; [done..|]. exists i', job'. split; [by right|done].
Qed.

Lemma processable_positions (state : QueueState) :
  (∀ i, i ∈ _get_processable_jobs state → is_Some (jobs state !! i)) ∧
  (∀ i job, jobs state !! i = Some job →
            status job = completed ∨ status job = failed →
            i ∉ _get_processable_jobs state) ∧
  (∀ i job, jobs state !! i = Some job → i ∉ _get_processable_jobs state →
            status job = completed ∨ status job = failed).
Proof.
  split_and!.
  - intros i (job & -> & _)%get_processable_jobs_spec. by eexists.
  - intros i job Hjob Hst (job' & Hjob' & Hst')%get_processable_jobs_spec.
    assert (job' = job) as -> by congruence.
    destruct Hst as [Hst|Hst]; rewrite Hst in Hst'; naive_solver.
  - intros i job Hjob Hout.
    destruct (status job) eqn:Hst; try (by left); try (by right);
      destruct Hout; apply get_processable_jobs_spec; exists job; naive_solver.
Qed.

(** What one [start] leaves behind, for both modes. *)
Lemma cmd_start_spec (dry : bool) (w : QWorld) :
  ∃ rc w',
    cmd_start env dry w = (ok rc, w') ∧
    (rc = 0 ∨ rc = 130) ∧
    (dry = true → rc = 0 ∧ w' = w) ∧
    version (load_queue w') = version (load_queue w) ∧
    id <$> jobs (load_queue w') = id <$> jobs (load_queue w) ∧
    (∀ i job, jobs (load_queue w) !! i = Some job →
       status job = completed ∨ status job = failed →
       jobs (load_queue w') !! i = Some job) ∧
    (dry = false → rc = 0 → ∀ job, job ∈ jobs (load_queue w') → settled job) ∧
    (rc = 130 → dry = false ∧
       ∃ job, job ∈ jobs (load_queue w') ∧ status job = interrupted).
Proof.
  unfold cmd_start.
  destruct (processable_positions (load_queue w)) as (Hvalid & Hskip & Hdone).
  destruct (_get_processable_jobs (load_queue w)) as [|i0 todo0] eqn:Htodo.
  { exists 0, w. split_and!; try done; [by left|].
    intros _ _ job (i & Hi)%list_elem_of_lookup.
    destruct (Hdone i job Hi) as [?|?]; [apply not_elem_of_nil|by left|].
    right. by left. }
  rewrite <- Htodo in *.
  destruct (start_loop env dry (_get_processable_jobs (load_queue w))
              (load_queue w) w) as [[state' raised] w'] eqn:Hloop.
  destruct (start_loop_spec _ _ _ _ _ _ _ Hloop Hvalid)
    as (Hv & Hids & Hother & Hdry & Hsave & Hnone & Hsome).
  assert (dry = false → load_queue w' = state') as Hq.
  { intros Hd. unfold load_queue at 1. rewrite Hsave; [done..|].
    by rewrite Htodo. }
  assert (dry = true → w' = w ∧ raised = None) as Hdry' by done.
  assert (∀ X : Type, ∀ f : QueueState → X,
            f (load_queue w) = f state' → f (load_queue w') = f (load_queue w))
    as Hsame.
  { intros X f Hf. destruct dry.
    - by destruct Hdry as [-> _].
    - by rewrite Hq. }
  assert (∀ i job, jobs (load_queue w) !! i = Some job →
            status job = completed ∨ status job = failed →
            jobs (load_queue w') !! i = Some job) as Hkeep.
  { intros i job Hjob Hst. destruct dry.
    - by destruct Hdry as [-> _].
    - rewrite Hq by done. rewrite Hother; [done|]. by eapply Hskip. }
  destruct raised as [e|].
  - destruct (Hsome e eq_refl) as (-> & -> & i & job' & Hin & Hjob' & Hst).
    exists 130, w'. split_and!; [done|by right|done| | |done|done|].
    + by apply (Hsame _ version).
    + by apply (Hsame _ (λ s, id <$> jobs s)).
    + intros _. split; [done|]. exists job'. split; [|done].
      rewrite Hq by done. by eapply list_elem_of_lookup_2.
  - exists 0, w'. split_and!; [done|by left| | | |done| |done].
    + intros Hd. by destruct (Hdry Hd) as [-> _].
    + by apply (Hsame _ version).
    + by apply (Hsame _ (λ s, id <$> jobs s)).
    + intros Hd _ job (i & Hi)%list_elem_of_lookup. rewrite Hq in Hi by done.
      destruct (decide (i ∈ _get_processable_jobs (load_queue w))) as [Hin|Hout].
      * destruct (Hnone eq_refl Hd i Hin) as (job' & Hjob' & Hset). congruence.
      * rewrite (Hother i Hout) in Hi.
        destruct (Hdone i job Hi Hout) as [?|?]; [by left|right; by left].
Qed.

(** X12.  A dry run of [start] changes nothing: it returns 0 and leaves the
    files, the queue file and the clock as they were, whatever the
    queue holds. *)
Theorem cmd_start_dry_run (w : QWorld) : cmd_start env true w = (ok 0, w).
Proof.
  destruct (cmd_start_spec true w) as (rc & w' & -> & _ & Hdry & _).
  by destruct Hdry as [-> ->].
Qed.

(** X13.  [start] lets no exception of the swap of the spec or of the child
    escape, and loses no job: it returns 0, or 130 after a user
    interrupt; the queue it leaves has the same version and the same
    identifiers in the same order; and a job that was completed or
    failed before is left exactly as it was. *)
Theorem cmd_start_preserves (dry : bool) (w : QWorld) :
  ∃ rc w',
    cmd_start env dry w = (ok rc, w') ∧
    (rc = 0 ∨ rc = 130) ∧
    version (load_queue w') = version (load_queue w) ∧
    id <$> jobs (load_queue w') = id <$> jobs (load_queue w) ∧
    length (jobs (load_queue w')) = length (jobs (load_queue w)) ∧
    ∀ i job, jobs (load_queue w) !! i = Some job →
      status job = completed ∨ status job = failed →
      jobs (load_queue w') !! i = Some job.
Proof.
  destruct (cmd_start_spec dry w)
    as (rc & w' & Hrun & Hrc & _ & Hv & Hids & Hkeep & _).
  exists rc, w'. split_and!; [done..| |done].
  by rewrite <- (length_fmap id), Hids, length_fmap.
Qed.

(** X14.  A [start] that is not interrupted drains the queue: when it returns
    0, every job of the queue is completed, failed or interrupted, and
    none is left pending or running; when it returns 130, a job of the
    queue is left as interrupted; and it returns nothing else. *)
Theorem cmd_start_drains (w : QWorld) :
  ∃ rc w',
    cmd_start env false w = (ok rc, w') ∧
    (rc = 0 →
     ∀ job, job ∈ jobs (load_queue w') →
       settled job ∧ status job ≠ pending ∧ status job ≠ running) ∧
    (rc = 130 →
     ∃ job, job ∈ jobs (load_queue w') ∧ status job = interrupted) ∧
    (rc ≠ 0 → rc = 130).
Proof.
  destruct (cmd_start_spec false w)
    as (rc & w' & Hrun & Hrc & _ & _ & _ & _ & Hdrain & Hint).
  exists rc, w'. split_and!; [done| | |].
  - intros Hrc0 job Hjob. pose proof (Hdrain eq_refl Hrc0 job Hjob) as Hset.
    split; [done|]. destruct Hset as [Hs|[Hs|Hs]]; rewrite Hs; done.
  - intros Hrc130. by destruct (Hint Hrc130).
  - intros Hne. by destruct Hrc.
Qed.

(** *** The identifiers of the queue *)

Lemma cmd_add_ids (args : AddArgs) (w : QWorld) :
  (cmd_add env args w).2 = w ∨
  (arg_id args ∉ id <$> jobs (load_queue w)) ∧
  id <$> jobs (load_queue (cmd_add env args w).2)
  = (id <$> jobs (load_queue w)) ++ [arg_id args].
Proof.
  unfold cmd_add. destruct (negb _); [by left|].
  case_bool_decide as Hin; [by left|]. right.
  rewrite elem_of_list_to_set in Hin. split; [done|].
  cbn. by rewrite fmap_app.
Qed.

Lemma main_ids (c : Command) (w : QWorld) :
  id <$> jobs (load_queue (main env c w).2) = id <$> jobs (load_queue w) ∨
  ∃ job_id, (job_id ∉ id <$> jobs (load_queue w)) ∧
    id <$> jobs (load_queue (main env c w).2)
    = (id <$> jobs (load_queue w)) ++ [job_id].
Proof.
  destruct c as [args|dry|args]; cbn [main].
  - destruct (cmd_add_ids args w) as [Heq|[Hnew Hids]];
      destruct (cmd_add env args w) as [rc w'] eqn:Hadd; cbn [snd] in *.
    + left. by rewrite Heq.
    + right. by exists (arg_id args).
  - left. by destruct (cmd_start_spec dry w)
              as (rc & w' & -> & _ & _ & _ & Hids & _).
  - by left.
Qed.

(** X15.  The queue is append-only and its identifiers stay unique: whatever
    commands are run one after the other on a queue whose identifiers
    are pairwise distinct (an absent queue file, for one), the
    identifiers of the queue they leave are pairwise distinct, and they
    begin with the identifiers there were, in their order. *)
Theorem queue_ids_unique (cs : list Command) (w : QWorld) :
  NoDup (id <$> jobs (load_queue w)) →
  NoDup (id <$> jobs (load_queue (run_commands env cs w))) ∧
  (id <$> jobs (load_queue w))
    `prefix_of` (id <$> jobs (load_queue (run_commands env cs w))).
Proof.
  unfold run_commands. revert w.
  induction cs as [|c cs IH]; intros w Hnd; [done|].
  cbn [foldl].
  assert (NoDup (id <$> jobs (load_queue (main env c w).2)) ∧
          (id <$> jobs (load_queue w))
            `prefix_of` (id <$> jobs (load_queue (main env c w).2)))
    as [Hnd' Hpre].
  { destruct (main_ids c w) as [->|(job_id & Hnew & ->)]; [done|].
    split; [|by apply prefix_app_r].
    apply NoDup_app. split_and!; [done| |apply NoDup_singleton].
    intros x Hx ->%list_elem_of_singleton. done. }
  destruct (IH _ Hnd') as [Hfinal Hpre']. split; [done|by etrans].
Qed.

End Commands.

Lemma start_step_status_witness :
  ∃ job' raised w',
    start_step (Scenarios.queue_env 3) false 0
      (mkQueueState 1 [Scenarios.job_b]) Scenarios.s6_world
      = (mkQueueState 1 [job'], raised, w') ∧
    queue_file w' = Some (mkQueueState 1 [job']) ∧
    status job' = failed ∧ raised = None.
Proof.
  destruct (start_step_status (Scenarios.queue_env 3)
              (mkQueueState 1 [Scenarios.job_b]) Scenarios.s6_world 0
              Scenarios.job_b)
    as (job' & raised & w' & Hstep & Hfile & _ & Hstatus).
  - reflexivity.
  - vm_compute. reflexivity.
  - exists job', raised, w'. split_and!; [done..| |].
    + vm_compute in Hstatus. destruct Hstatus as (_ & _ & _ & _ & Hfailed).
      destruct Hfailed as [Hfailed _]; [discriminate..|exact Hfailed].
    + vm_compute in Hstatus. destruct Hstatus as [Hraised _]. exact Hraised.
Defined.

Lemma cmd_add_duplicate_witness :
  cmd_add (Scenarios.queue_env 0)
    (mkAddArgs "specs/b.txt" "app-b" "sonnet" 5 true 3) Scenarios.s6_world
  = (1, Scenarios.s6_world).
Proof.
  apply (cmd_add_duplicate (Scenarios.queue_env 0)
           (mkAddArgs "specs/b.txt" "app-b" "sonnet" 5 true 3)
           Scenarios.s6_world).
  vm_compute. left.
Defined.

(** Scenario S6: the child finds the bytes of B under the canonical
    name, and the canonical file holds A again when the job is over. *)
Example s6_swap_and_restore :
  (swap_spec (Scenarios.queue_env 0) "/h/specs/b.txt"
     (files Scenarios.s6_world)).1.2 !! "/h/prompts/app_spec.txt" = Some "B" ∧
  files (_run_job (Scenarios.queue_env 0) Scenarios.job_b false
           Scenarios.s6_world).2 !! "/h/prompts/app_spec.txt" = Some "A".
Proof. split; vm_compute; reflexivity. Qed.

Lemma run_job_swap_restore_witness :
  files (_run_job (Scenarios.queue_env 0) Scenarios.job_b false
           Scenarios.s6_world).2 !! "/h/prompts/app_spec.txt" = Some "A".
Proof.
  destruct (run_job_swap_restore (Scenarios.queue_env 0) Scenarios.job_b
              Scenarios.s6_world) as (fs1 & _ & _ & _ & Hfinal).
  - vm_compute. reflexivity.
  - vm_compute. discriminate.
  - vm_compute. discriminate.
  - vm_compute. discriminate.
  - done.
  - vm_compute. discriminate.
  - exact Hfinal.
Defined.

(** C9 at a world where the canonical spec does not exist but a backup
    file was left behind: when the job is over the canonical file
    exists and holds the bytes of that backup, although there was no
    original to restore. *)
Theorem run_job_stale_backup :
  files Scenarios.stale_backup_world !! "/h/prompts/app_spec.txt" = None ∧
  (_run_job (Scenarios.queue_env 0) Scenarios.job_b false
     Scenarios.stale_backup_world).1.1.(status) = completed ∧
  files (_run_job (Scenarios.queue_env 0) Scenarios.job_b false
           Scenarios.stale_backup_world).2 !! "/h/prompts/app_spec.txt"
    = Some "stale".
Proof. split_and!; vm_compute; reflexivity. Qed.

Lemma queue_ids_unique_witness :
  NoDup (id <$> jobs (load_queue
    (run_commands (Scenarios.queue_env 0)
       [Add (mkAddArgs "specs/b.txt" "app-c" "haiku" 20 false 2);
        Start false;
        Add (mkAddArgs "specs/b.txt" "app-b" "sonnet" 5 true 3)]
       Scenarios.s6_world))).
Proof.
  apply (queue_ids_unique (Scenarios.queue_env 0)
           [Add (mkAddArgs "specs/b.txt" "app-c" "haiku" 20 false 2);
            Start false;
            Add (mkAddArgs "specs/b.txt" "app-b" "sonnet" 5 true 3)]
           Scenarios.s6_world).
  vm_compute. apply NoDup_singleton.
Defined.

End QueueRunnerFacts.

(** ** The coordinator *)

Module ParallelFacts.

Import Progress Parallel WorldFacts.
Local Open Scope Z_scope.

(** Unfolds the plumbing of [M]. *)
Ltac unfold_M :=
  unfold mbind, M_bind, mret, M_ret, lift, request in *.

Section Coordinator.

Variable str_lower : string → string.
Variable env : Env.

(** *** Waves *)

Lemma same_sets_refl p : same_sets p p.
Proof. by unfold same_sets. Qed.

Lemma same_sets_trans p1 p2 p3 :
  same_sets p1 p2 → same_sets p2 p3 → same_sets p1 p3.
Proof. unfold same_sets. intros (?&?&?) (?&?&?). split_and!; congruence. Qed.

Lemma same_sets_on_current_tier f p : same_sets p (on_current_tier f p).
Proof. by unfold same_sets. Qed.

Lemma slice_lookup {A} (l : list A) (a n : Z) (k : nat) (x : A) :
  0 ≤ a → slice l a n !! k = Some x →
  Z.of_nat k < n ∧ l !! Z.to_nat (a + Z.of_nat k) = Some x.
Proof.
  unfold slice. intros Ha [Hx Hk]%lookup_take_Some.
  rewrite lookup_drop in Hx. split; [lia|].
  by replace (Z.to_nat (a + Z.of_nat k)) with (Z.to_nat a + k)%nat by lia.
Qed.

Lemma slice_length {A} (l : list A) (a n : Z) :
  (length (slice l a n) ≤ Z.to_nat n)%nat.
Proof. unfold slice. rewrite length_take. lia. Qed.

Section Waves.

Variable P : event → Prop.
Hypothesis P_no_gather : ∀ ev, no_gather ev → P ev.

Local Hint Resolve MergeFacts.create_worktree_events
  MergeFacts.remove_worktree_events MergeFacts.mkdir_parents_events : hoare.

(** Setting up a wave starts no worker; it leaves the sets of the
    progress model alone and adds, for issues of the wave, tasks whose
    worker index is the start of the wave plus the position of the
    issue in the wave. *)
Lemma setup_wave_spec project_dir model results_dir (wave_start : Z)
    (wave : list (gmap string string)) :
  ∀ (i : Z) (pr : ParallelProgress)
    (all_results : list (string * gmap string json))
    (spawn_tasks : list spawn_task),
  hoare P
    (setup_wave env project_dir model results_dir wave_start i wave pr
       all_results spawn_tasks)
    (λ out,
       same_sets pr out.1.1 ∧
       ∃ new, out.2 = spawn_tasks ++ new ∧
         (length new ≤ length wave)%nat ∧
         ∀ t, t ∈ new →
           ∃ (k : nat) issue,
             wave !! k = Some issue ∧
             issue !! "id" = Some (task_issue_id t) ∧
             task_worker_index t = wave_start + i + Z.of_nat k).
Proof.
  induction wave as [|issue wave IH]; intros i pr all_results spawn_tasks.
  - cbn [setup_wave]. apply hoare_ret. split; [apply same_sets_refl|].
    exists []. rewrite app_nil_r. split_and!; [done..|].
    intros t Ht. by apply elem_of_nil in Ht.
  - cbn [setup_wave].
    apply (hoare_bind _ _ _ (λ iid, issue !! "id" = Some iid)).
    { apply hoare_lift. intros iid. unfold getitem.
      destruct (issue !! "id"); by intros; simplify_eq. }
    intros iid Hid.
    apply (hoare_bind _ _ _ (λ _, True)); [by auto with hoare|].
    intros created _. destruct created; cbn [negb].
    + apply (hoare_bind _ _ _ (λ _, True)); [by apply hoare_lift|].
      intros cmd _. eapply hoare_post; [|apply IH].
      intros [[pr' res'] tasks'] [Hsets (new & Htasks & Hlen & Hnew)].
      cbn [fst snd] in *. split.
      { eapply same_sets_trans; [|done]. apply same_sets_on_current_tier. }
      exists (mkSpawnTask cmd iid (wave_start + i) :: new).
      split; [by rewrite Htasks, <- (assoc_L (++))|].
      split; [cbn [length]; lia|].
      intros t [->|Ht]%elem_of_cons.
      * exists 0%nat, issue. split_and!; [done..|cbn; lia].
      * destruct (Hnew t Ht) as (k & issue' & Hk & Hid' & Hidx).
        exists (S k), issue'. split_and!; [done..|lia].
    + eapply hoare_post; [|apply IH].
      intros [[pr' res'] tasks'] [Hsets (new & Htasks & Hlen & Hnew)].
      cbn [fst snd] in *. split; [done|]. exists new.
      split_and!; [done|cbn [length]; lia|].
      intros t Ht. destruct (Hnew t Ht) as (k & issue' & Hk & Hid' & Hidx).
      exists (S k), issue'. split_and!; [done..|lia].
Qed.

Lemma load_worker_result_events path :
  hoare P (load_worker_result env path) (λ _, True).
Proof. apply hoare_request; [by apply P_no_gather|done]. Qed.

(** Collecting the results of a wave starts no worker and leaves the
    sets of the progress model alone. *)
Lemma collect_wave_spec project_dir results_dir (wave_start : Z)
    (pairs : list (gmap string string * result Z)) :
  ∀ (i : Z) (pr : ParallelProgress)
    (all_results : list (string * gmap string json)),
  hoare P
    (collect_wave env project_dir results_dir wave_start i pairs pr
       all_results)
    (λ out, same_sets pr out.1).
Proof.
  induction pairs as [|[issue wr] pairs IH]; intros i pr all_results.
  - cbn [collect_wave]. apply hoare_ret. apply same_sets_refl.
  - cbn [collect_wave].
    apply (hoare_bind _ _ _ (λ _, True)); [by apply hoare_lift|].
    intros iid _.
    apply (hoare_bind _ _ _ (λ _, True)).
    { destruct (caught_exception wr); [by apply hoare_ret|].
      apply (hoare_bind _ _ _ (λ _, True));
        [apply load_worker_result_events|].
      intros loaded _. by apply hoare_ret. }
    intros entry _.
    apply (hoare_bind _ _ _ (λ _, True)); [by auto with hoare|].
    intros _ _. eapply hoare_post; [|apply IH].
    intros [pr' res'] Hsets. cbn [fst snd] in *.
    eapply same_sets_trans; [|done]. apply same_sets_on_current_tier.
Qed.

End Waves.

Lemma wave_event_no_gather tier_issues max_workers ev :
  no_gather ev → wave_event tier_issues max_workers ev.
Proof. by destruct ev. Qed.

Lemma py_range_starts (n : nat) (max_workers : Z) (starts : list Z) :
  1 ≤ max_workers →
  py_range 0 (Z.of_nat n) max_workers = ok starts →
  starts = (λ j : nat, Z.of_nat j * max_workers) <$>
             seq 0 (Z.to_nat ((Z.of_nat n + max_workers - 1) `div` max_workers)).
Proof.
  intros Hmw. unfold py_range.
  rewrite bool_decide_eq_false_2 by lia. rewrite bool_decide_eq_true_2 by lia.
  intros [= <-]. rewrite Z.sub_0_r. apply list_fmap_ext. intros _ j _. lia.
Qed.

(** The waves of a tier: workers are only started wave by wave, and
    every wave satisfies [wave_event]. *)
Lemma run_waves_spec tier_issues project_dir model results_dir
    (max_workers : Z) (starts : list Z) :
  1 ≤ max_workers →
  Forall (λ ws, ∃ j : nat, ws = Z.of_nat j * max_workers) starts →
  ∀ (pr : ParallelProgress) (all_results : list (string * gmap string json)),
  hoare (wave_event tier_issues max_workers)
    (run_waves env tier_issues project_dir model results_dir max_workers
       starts pr all_results)
    (λ out, same_sets pr out.1).
Proof.
  intros Hmw. induction 1 as [|ws starts [j Hj] Hstarts IH];
    intros pr all_results.
  - cbn [run_waves]. apply hoare_ret. apply same_sets_refl.
  - cbn [run_waves]. eapply hoare_bind.
    { apply setup_wave_spec. apply wave_event_no_gather. }
    intros [[pr1 res1] tasks] [Hsets (new & Htasks & Hlen & Hnew)].
    cbn [fst snd app] in *. subst new.
    assert (∀ out : ParallelProgress * list (string * gmap string json),
              same_sets pr1 out.1 → same_sets pr out.1) as Hpost.
    { intros out. by apply same_sets_trans. }
    destruct tasks as [|task tasks].
    { eapply hoare_post; [|apply IH]. done. }
    apply (hoare_bind _ _ _ (λ _, True)).
    { apply hoare_request; [|done]. split.
      - pose proof (slice_length tier_issues ws max_workers). lia.
      - exists j. intros t Ht.
        destruct (Hnew t Ht) as (k & issue & Hk & Hid & Hidx).
        apply slice_lookup in Hk as [Hk Hissue]; [|nia].
        rewrite Hidx, Z.add_0_r. split; [nia|]. by exists issue. }
    intros worker_results _. eapply hoare_bind.
    { apply collect_wave_spec. apply wave_event_no_gather. }
    intros [pr2 res2] Hsets2. cbn [fst] in Hsets2.
    eapply hoare_post; [|apply IH].
    intros out Hout. apply Hpost. by eapply same_sets_trans.
Qed.

Lemma run_tier_parallel_spec tier_issues project_dir model
    (max_workers : Z) (pr : ParallelProgress) :
  1 ≤ max_workers →
  hoare (wave_event tier_issues max_workers)
    (_run_tier_parallel env tier_issues project_dir model max_workers pr)
    (λ out, same_sets pr out.1).
Proof.
  intros Hmw. unfold _run_tier_parallel.
  apply (hoare_bind _ _ _ (λ _, True)).
  { apply MergeFacts.mkdir_parents_events, wave_event_no_gather. }
  intros _ _.
  apply (hoare_bind _ _ _
           (Forall (λ ws, ∃ j : nat, ws = Z.of_nat j * max_workers))).
  { apply hoare_lift. intros starts Hstarts.
    rewrite (py_range_starts _ _ _ Hmw Hstarts).
    apply Forall_fmap, Forall_forall. intros j _. by exists j. }
  intros starts Hstarts. by apply run_waves_spec.
Qed.

(** *** The partition of a tier into waves *)

Lemma slice_at {A} (l : list A) (j : nat) (max_workers : Z) :
  1 ≤ max_workers →
  slice l (Z.of_nat j * max_workers) max_workers
  = take (Z.to_nat max_workers) (drop (j * Z.to_nat max_workers) l).
Proof.
  intros Hmw. unfold slice. do 2 f_equal. nia.
Qed.

Lemma concat_slices {A} (l : list A) (max_workers : Z) (m : nat) :
  1 ≤ max_workers →
  concat ((λ ws, slice l ws max_workers) <$>
            ((λ j : nat, Z.of_nat j * max_workers) <$> seq 0 m))
  = take (m * Z.to_nat max_workers) l.
Proof.
  intros Hmw. induction m as [|m IH]; [done|].
  rewrite seq_S, !fmap_app, concat_app, IH. cbn [fmap list_fmap concat].
  rewrite app_nil_r, slice_at by done. rewrite take_take_drop. f_equal. lia.
Qed.

Lemma wave_count_bounds (n : nat) (max_workers : Z) :
  1 ≤ max_workers →
  let m := Z.to_nat ((Z.of_nat n + max_workers - 1) `div` max_workers) in
  (n ≤ m * Z.to_nat max_workers)%nat ∧
  ∀ j : nat, (j < m)%nat → (j * Z.to_nat max_workers < n)%nat.
Proof.
  intros Hmw m.
  pose proof (Z.mul_div_le (Z.of_nat n + max_workers - 1) max_workers).
  pose proof (Z.mul_succ_div_gt (Z.of_nat n + max_workers - 1) max_workers).
  assert (0 ≤ (Z.of_nat n + max_workers - 1) `div` max_workers)
    by (apply Z.div_pos; lia).
  subst m. split; [nia|]. intros j Hj. nia.
Qed.

(** The waves partition the issues of the tier in order; every wave
    has between one and [max_workers] issues, and all but the last
    have exactly [max_workers]; the issue at position [i] of the wave
    that starts at [ws] is the issue at position [ws + i] of the
    tier. *)
Lemma waves_partition (tier_issues : list (gmap string string))
    (max_workers : Z) :
  1 ≤ max_workers →
  ∃ starts,
    py_range 0 (Z.of_nat (length tier_issues)) max_workers = ok starts ∧
    (∀ (j : nat) ws, starts !! j = Some ws → ws = Z.of_nat j * max_workers) ∧
    concat ((λ ws, slice tier_issues ws max_workers) <$> starts)
      = tier_issues ∧
    (∀ (j : nat) ws, starts !! j = Some ws →
       (1 ≤ length (slice tier_issues ws max_workers))%nat ∧
       Z.of_nat (length (slice tier_issues ws max_workers)) ≤ max_workers ∧
       ((S j < length starts)%nat →
        Z.of_nat (length (slice tier_issues ws max_workers)) = max_workers)) ∧
    (∀ ws (i : nat) issue,
       ws ∈ starts → slice tier_issues ws max_workers !! i = Some issue →
       tier_issues !! Z.to_nat (ws + Z.of_nat i) = Some issue).
Proof.
  intros Hmw.
  set (m := Z.to_nat ((Z.of_nat (length tier_issues) + max_workers - 1)
                        `div` max_workers)).
  exists ((λ j : nat, Z.of_nat j * max_workers) <$> seq 0 m).
  destruct (wave_count_bounds (length tier_issues) max_workers Hmw)
    as [Hcover Hstart]. fold m in Hcover, Hstart.
  assert (∀ (j : nat) ws,
            ((λ j : nat, Z.of_nat j * max_workers) <$> seq 0 m) !! j = Some ws →
            ws = Z.of_nat j * max_workers ∧ (j < m)%nat) as Hnth.
  { intros j ws Hj. rewrite list_lookup_fmap in Hj.
    destruct (seq 0 m !! j) as [j'|] eqn:Hseq; [|done].
    apply lookup_seq in Hseq as [-> ?]. cbn in Hj. by simplify_eq. }
  split_and!.
  - unfold py_range.
    rewrite bool_decide_eq_false_2 by lia. rewrite bool_decide_eq_true_2 by lia.
    rewrite Z.sub_0_r. fold m.
    rewrite (list_fmap_ext (λ k : nat, 0 + Z.of_nat k * max_workers)
               (λ j : nat, Z.of_nat j * max_workers) (seq 0 m)); [done|].
    intros _ j _. lia.
  - intros j ws Hj. by apply Hnth.
  - rewrite concat_slices by done. by apply take_ge.
  - intros j ws [-> Hj]%Hnth. rewrite slice_at by done.
    rewrite length_take, length_drop. pose proof (Hstart j Hj).
    split_and!; [lia..|].
    rewrite length_fmap, length_seq. intros Hnext.
    pose proof (Hstart (S j) Hnext). lia.
  - intros ws i issue Hws Hi.
    apply list_elem_of_lookup in Hws as [j [-> _]%Hnth].
    apply slice_lookup in Hi as [_ Hi]; [done|nia].
Qed.

(** *** The merge phase *)

Lemma grows_refl st : grows st st.
Proof. by unfold grows. Qed.

Lemma grows_trans st1 st2 st3 : grows st1 st2 → grows st2 st3 → grows st1 st3.
Proof.
  unfold grows. intros (?&?&?&?&?) (?&?&?&?&?).
  split_and!; [set_solver..|by etrans].
Qed.

(** What one round of the merge loop does. *)
Lemma merge_step_inv project_dir issue_lookup iid res st m h st2 m2 h2 :
  merge_step str_lower env project_dir issue_lookup (iid, res) st m h
    = (ok (st2, m2), h2) →
  if reported_success res then
    ∃ br mr hm,
      result_branch iid res = ok br ∧
      Merge.merge_branch str_lower env project_dir br h = (ok mr, hm) ∧
      if Merge.success mr then
        h2 = hm ++ [EvGit project_dir ["branch"; "-d"; br]] ∧
        st2 = mkCoord ({[ iid ]} ∪ completed st)
                (on_current_tier (add_completed_id iid)
                   (add_completed_issue iid (progress st)))
                (requeued st) ∧
        m2 = dict_set iid true m
      else if Merge.conflict mr then
        h2 = hm ∧
        ∃ issue, issue_lookup !! iid = Some issue ∧
          st2 = mkCoord (completed st) (add_requeued_issue iid (progress st))
                  (requeued st ++ [issue]) ∧
          m2 = dict_set iid false m
      else
        h2 = hm ∧
        st2 = mkCoord (completed st)
                (on_current_tier (add_failed_id iid)
                   (add_failed_issue iid (progress st)))
                (requeued st) ∧
        m2 = dict_set iid false m
  else
    h2 = h ∧
    st2 = mkCoord (completed st)
            (on_current_tier (add_failed_id iid)
               (add_failed_issue iid (progress st)))
            (requeued st) ∧
    m2 = m.
Proof.
  unfold merge_step. destruct (reported_success res).
  - unfold_M. destruct (result_branch iid res) as [e|br]; [done|].
    destruct (Merge.merge_branch str_lower env project_dir br h)
      as [[e|mr] hm] eqn:Hmerge; [done|].
    intros Hrun. exists br, mr, hm. split; [done|]. split; [done|].
    destruct (Merge.success mr).
    + unfold Merge.delete_branch, Merge._run_git in Hrun. unfold_M.
      destruct (git_reply env hm project_dir ["branch"; "-d"; br]);
        by simplify_eq.
    + destruct (Merge.conflict mr).
      * unfold getitem in Hrun.
        destruct (issue_lookup !! iid) as [issue|]; [|done].
        simplify_eq. split; [done|]. by exists issue.
      * by simplify_eq.
  - unfold_M. intros Hrun. by simplify_eq.
Qed.

Lemma merge_step_grows project_dir issue_lookup entry st m h st2 m2 h2 :
  merge_step str_lower env project_dir issue_lookup entry st m h
    = (ok (st2, m2), h2) →
  grows st st2.
Proof.
  destruct entry as [iid res]. intros Hrun%merge_step_inv.
  destruct (reported_success res).
  - destruct Hrun as (br & mr & hm & _ & _ & Hrun).
    destruct (Merge.success mr); [|destruct (Merge.conflict mr)].
    + destruct Hrun as (_ & -> & _). unfold grows. cbn.
      split_and!; [set_solver..|done].
    + destruct Hrun as (_ & issue & _ & -> & _). unfold grows. cbn.
      split_and!; [set_solver..|]. by apply prefix_app_r.
    + destruct Hrun as (_ & -> & _). unfold grows. cbn.
      split_and!; [set_solver..|done].
  - destruct Hrun as (_ & -> & _). unfold grows. cbn.
    split_and!; [set_solver..|done].
Qed.

Lemma merge_phase_grows project_dir issue_lookup results st m h st' m' h' :
  merge_phase str_lower env project_dir issue_lookup results st m h
    = (ok (st', m'), h') →
  grows st st'.
Proof.
  revert st m h. induction results as [|entry results IH]; intros st m h.
  - cbn. unfold_M. intros ?. simplify_eq. apply grows_refl.
  - cbn [merge_phase]. unfold_M.
    destruct (merge_step _ _ _ _ _ _ _ _) as [[e|[st1 m1]] h1] eqn:Hstep;
      [done|].
    intros Hrest. eapply grows_trans.
    + by eapply merge_step_grows.
    + by eapply IH.
Qed.

Lemma merge_phase_split project_dir issue_lookup before entry after
    st m h st' m' h' :
  merge_phase str_lower env project_dir issue_lookup
    (before ++ entry :: after) st m h = (ok (st', m'), h') →
  ∃ st1 m1 h1 st2 m2 h2,
    merge_phase str_lower env project_dir issue_lookup before st m h
      = (ok (st1, m1), h1) ∧
    merge_step str_lower env project_dir issue_lookup entry st1 m1 h1
      = (ok (st2, m2), h2) ∧
    merge_phase str_lower env project_dir issue_lookup after st2 m2 h2
      = (ok (st', m'), h').
Proof.
  revert st m h. induction before as [|e0 before IH]; intros st m h.
  - cbn [app merge_phase]. unfold_M.
    destruct (merge_step _ _ _ _ _ _ _ _) as [[e|[st2 m2]] h2] eqn:Hstep;
      [done|].
    intros Hrest. by exists st, m, h, st2, m2, h2.
  - cbn [app merge_phase]. unfold_M.
    destruct (merge_step _ _ _ _ e0 _ _ _) as [[e|[st0 m0]] h0] eqn:Hstep;
      [done|].
    intros Hrest. apply IH in Hrest
      as (st1 & m1 & h1 & st2 & m2 & h2 & Hbefore & Hentry & Hafter).
    exists st1, m1, h1, st2, m2, h2. by rewrite Hbefore.
Qed.

Lemma merge_step_total project_dir issue_lookup iid res st m h :
  (∀ h' args, ∃ r, git_reply env h' project_dir args = ok r) →
  (∃ br, result_branch iid res = ok br) →
  is_Some (issue_lookup !! iid) →
  ∃ out h',
    merge_step str_lower env project_dir issue_lookup (iid, res) st m h
      = (ok out, h').
Proof.
  intros Hgit [br Hbr] [issue Hissue]. unfold merge_step.
  destruct (reported_success res); [|by eexists _, _].
  unfold_M. rewrite Hbr.
  destruct (MergeFacts.merge_branch_total str_lower env project_dir br h Hgit)
    as (mr & hm & ->).
  destruct (Merge.success mr); [|destruct (Merge.conflict mr)].
  - rewrite MergeFacts.delete_branch_total by done. by eexists _, _.
  - unfold getitem. rewrite Hissue. by eexists _, _.
  - by eexists _, _.
Qed.

Lemma merge_phase_total project_dir issue_lookup results :
  (∀ h' args, ∃ r, git_reply env h' project_dir args = ok r) →
  (∀ iid res, (iid, res) ∈ results →
     (∃ br, result_branch iid res = ok br) ∧ is_Some (issue_lookup !! iid)) →
  ∀ st m h, ∃ out h',
    merge_phase str_lower env project_dir issue_lookup results st m h
      = (ok out, h').
Proof.
  intros Hgit. induction results as [|[iid res] results IH]; intros Hres st m h.
  - by eexists _, _.
  - cbn [merge_phase]. unfold_M.
    destruct (Hres iid res) as [Hbr Hissue]; [by left|].
    destruct (merge_step_total project_dir issue_lookup iid res st m h
                Hgit Hbr Hissue) as ([st1 m1] & h1 & ->).
    apply IH. intros iid' res' Hin. apply Hres. by right.
Qed.

(** *** The retry pass *)

Lemma run_tier_sequential_sets tier_issues project_dir model pr h pr' res h' :
  _run_tier_sequential env tier_issues project_dir model pr h
    = (ok (pr', res), h') →
  same_sets pr pr'.
Proof.
  intros Hrun.
  destruct (run_tier_parallel_spec tier_issues project_dir model 1 pr
              ltac:(lia) _ _ _ Hrun) as [_ Hpost].
  by apply (Hpost (pr', res)).
Qed.

Lemma retry_step_retried project_dir model issue st h st' h' :
  retry_step str_lower env project_dir model issue st h = (ok st', h') →
  retried st st'.
Proof.
  unfold retry_step. unfold_M.
  destruct (getitem issue "id") as [e|iid]; [done|].
  destruct (_run_tier_sequential _ _ _ _ _ _) as [[e|[pr res]] h1] eqn:Hrun;
    [done|].
  apply run_tier_sequential_sets in Hrun as (Hc & Hf & Hr).
  destruct (reported_success _).
  - destruct (result_branch _ _) as [e|br]; [done|].
    destruct (Merge.merge_branch _ _ _ _ _) as [[e|mr] hm]; [done|].
    destruct (Merge.success mr).
    + destruct (Merge.delete_branch _ _ _ _) as [[e|[]] hd]; [done|].
      intros ?. simplify_eq. unfold retried. cbn. rewrite Hc, Hr. set_solver.
    + intros ?. simplify_eq. unfold retried. cbn. rewrite Hc, Hr. set_solver.
  - intros ?. simplify_eq. unfold retried. cbn. rewrite Hc, Hr. set_solver.
Qed.

Lemma retry_loop_retried project_dir model todo :
  ∀ st h st' h',
  retry_loop str_lower env project_dir model todo st h = (ok st', h') →
  retried st st'.
Proof.
  induction todo as [|issue todo IH]; intros st h st' h'.
  - cbn. unfold_M. intros ?. simplify_eq. unfold retried. set_solver.
  - cbn [retry_loop]. unfold_M.
    destruct (retry_step _ _ _ _ _ _ _) as [[e|st1] h1] eqn:Hstep; [done|].
    intros Hrest. apply retry_step_retried in Hstep. apply IH in Hrest.
    unfold retried in *. set_solver.
Qed.

(** A re-queued issue whose retry worker reports success and whose
    second merge succeeds. *)
Lemma retry_step_success project_dir model issue iid st h pr result_dict h1
    br mr h2 :
  issue !! "id" = Some iid →
  _run_tier_sequential env [issue] project_dir model (progress st) h
    = (ok (pr, result_dict), h1) →
  reported_success (default ∅ (dict_get iid result_dict)) = true →
  result_branch iid (default ∅ (dict_get iid result_dict)) = ok br →
  Merge.merge_branch str_lower env project_dir br h1 = (ok mr, h2) →
  Merge.success mr = true →
  (∃ r, git_reply env h2 project_dir ["branch"; "-d"; br] = ok r) →
  ∃ st',
    retry_step str_lower env project_dir model issue st h
      = (ok st', h2 ++ [EvGit project_dir ["branch"; "-d"; br]]) ∧
    iid ∈ completed st' ∧
    iid ∈ completed_issues (progress st') ∧
    iid ∉ requeued_issues (progress st').
Proof.
  intros Hid Hrun Hsuccess Hbr Hmerge Hmr [r Hdel].
  unfold retry_step. unfold_M. unfold getitem. rewrite Hid, Hrun, Hsuccess.
  rewrite Hbr, Hmerge, Hmr.
  unfold Merge.delete_branch, Merge._run_git. unfold_M. rewrite Hdel.
  eexists. split; [done|]. cbn. set_solver.
Qed.

(** The rounds of the merge phase and of the retry pass.  In the merge
    phase every entry of the results of the tier is handled in turn,
    from the state the entries before it have left:
    an issue whose worker reported success has its branch merged; if
    the merge succeeds the issue is added to the completed sets and its
    branch is deleted; if the merge reports a conflict the issue is
    added to the re-queued set and appended to the list of issues to
    retry; on any other outcome of the merge it is added to the failed
    sets; an issue whose worker did not report success is added to the
    failed sets and no git command is run for it.  What a round adds
    stays until the end of the phase.  With a git that can be spawned,
    branches that are strings and identifiers that are known, the
    phase returns.  In the retry pass, an issue whose retry worker
    reports success and whose second merge succeeds is added to the
    completed sets and removed from the re-queued set, its branch is
    deleted, and it stays so until the end of the pass. *)
Lemma merge_phase_and_retry (project_dir model : string)
    (issue_lookup : gmap string (gmap string string)) :
  (∀ before iid res after st m h st' m' h',
     merge_phase str_lower env project_dir issue_lookup
       (before ++ (iid, res) :: after) st m h = (ok (st', m'), h') →
     ∃ st1 m1 h1 st2 m2 h2,
       merge_phase str_lower env project_dir issue_lookup before st m h
         = (ok (st1, m1), h1) ∧
       merge_step str_lower env project_dir issue_lookup (iid, res) st1 m1 h1
         = (ok (st2, m2), h2) ∧
       merge_phase str_lower env project_dir issue_lookup after st2 m2 h2
         = (ok (st', m'), h') ∧
       grows st2 st' ∧
       if reported_success res then
         ∃ br mr hm,
           result_branch iid res = ok br ∧
           Merge.merge_branch str_lower env project_dir br h1 = (ok mr, hm) ∧
           if Merge.success mr then
             h2 = hm ++ [EvGit project_dir ["branch"; "-d"; br]] ∧
             iid ∈ completed st2 ∧
             iid ∈ completed_issues (progress st2) ∧
             (∀ tp, current_tier (progress st2) = Some tp →
                    iid ∈ completed_ids tp) ∧
             requeued st2 = requeued st1 ∧
             requeued_issues (progress st2) = requeued_issues (progress st1) ∧
             failed_issues (progress st2) = failed_issues (progress st1)
           else if Merge.conflict mr then
             h2 = hm ∧
             iid ∈ requeued_issues (progress st2) ∧
             (∃ issue, issue_lookup !! iid = Some issue ∧
                       requeued st2 = requeued st1 ++ [issue]) ∧
             completed st2 = completed st1 ∧
             completed_issues (progress st2) = completed_issues (progress st1) ∧
             failed_issues (progress st2) = failed_issues (progress st1)
           else
             h2 = hm ∧
             iid ∈ failed_issues (progress st2) ∧
             (∀ tp, current_tier (progress st2) = Some tp →
                    iid ∈ failed_ids tp) ∧
             completed st2 = completed st1 ∧
             completed_issues (progress st2) = completed_issues (progress st1) ∧
             requeued st2 = requeued st1 ∧
             requeued_issues (progress st2) = requeued_issues (progress st1)
       else
         h2 = h1 ∧
         iid ∈ failed_issues (progress st2) ∧
         (∀ tp, current_tier (progress st2) = Some tp → iid ∈ failed_ids tp) ∧
         completed st2 = completed st1 ∧
         completed_issues (progress st2) = completed_issues (progress st1) ∧
         requeued st2 = requeued st1 ∧
         requeued_issues (progress st2) = requeued_issues (progress st1)) ∧
  (∀ results st m h,
     (∀ h' args, ∃ r, git_reply env h' project_dir args = ok r) →
     (∀ iid res, (iid, res) ∈ results →
        (∃ br, result_branch iid res = ok br)
        ∧ is_Some (issue_lookup !! iid)) →
     ∃ out h',
       merge_phase str_lower env project_dir issue_lookup results st m h
         = (ok out, h')) ∧
  (∀ issue iid st h pr result_dict h1 br mr h2,
     issue !! "id" = Some iid →
     _run_tier_sequential env [issue] project_dir model (progress st) h
       = (ok (pr, result_dict), h1) →
     reported_success (default ∅ (dict_get iid result_dict)) = true →
     result_branch iid (default ∅ (dict_get iid result_dict)) = ok br →
     Merge.merge_branch str_lower env project_dir br h1 = (ok mr, h2) →
     Merge.success mr = true →
     (∃ r, git_reply env h2 project_dir ["branch"; "-d"; br] = ok r) →
     ∃ st',
       retry_step str_lower env project_dir model issue st h
         = (ok st', h2 ++ [EvGit project_dir ["branch"; "-d"; br]]) ∧
       iid ∈ completed st' ∧
       iid ∈ completed_issues (progress st') ∧
       (iid ∉ requeued_issues (progress st')) ∧
       ∀ rest st'' h'',
         retry_loop str_lower env project_dir model rest st'
           (h2 ++ [EvGit project_dir ["branch"; "-d"; br]]) = (ok st'', h'') →
         iid ∈ completed st'' ∧
         iid ∈ completed_issues (progress st'') ∧
         iid ∉ requeued_issues (progress st'')).
Proof.
  split_and!.
  - intros before iid res after st m h st' m' h' Hrun.
    apply merge_phase_split in Hrun
      as (st1 & m1 & h1 & st2 & m2 & h2 & Hbefore & Hstep & Hafter).
    exists st1, m1, h1, st2, m2, h2.
    split_and!; [done..|by eapply merge_phase_grows|].
    apply merge_step_inv in Hstep. destruct (reported_success res).
    + destruct Hstep as (br & mr & hm & Hbr & Hmerge & Hstep).
      exists br, mr, hm. split_and!; [done..|].
      destruct (Merge.success mr); [|destruct (Merge.conflict mr)].
      * destruct Hstep as (-> & -> & _). cbn.
        split_and!; [done|set_solver|set_solver| |done..].
        intros tp. destruct (current_tier (progress st1)); [|done].
        intros [= <-]. cbn. set_solver.
      * destruct Hstep as (-> & issue & Hissue & -> & _). cbn.
        split_and!; [done|set_solver|by exists issue|done..].
      * destruct Hstep as (-> & -> & _). cbn.
        split_and!; [done|set_solver| |done..].
        intros tp. destruct (current_tier (progress st1)); [|done].
        intros [= <-]. cbn. set_solver.
    + destruct Hstep as (-> & -> & _). cbn.
      split_and!; [done|set_solver| |done..].
      intros tp. destruct (current_tier (progress st1)); [|done].
      intros [= <-]. cbn. set_solver.
  - intros results st m h Hgit Hres. by apply merge_phase_total.
  - intros issue iid st h pr result_dict h1 br mr h2
      Hid Hrun Hsuccess Hbr Hmerge Hmr Hdel.
    destruct (retry_step_success project_dir model issue iid st h pr
                result_dict h1 br mr h2 Hid Hrun Hsuccess Hbr Hmerge Hmr Hdel)
      as (st' & Hstep & Hc & Hci & Hr).
    exists st'. split_and!; [done..|].
    intros rest st'' h'' Hloop.
    apply retry_loop_retried in Hloop as (Hc' & Hci' & Hr').
    set_solver.
Qed.

End Coordinator.

Section Tiers.

Variable str_lower : string → string.
Variable env : Env.

(** *** The events of the phases *)

Section Events.

Variable P : event → Prop.
Hypothesis P_no_gather : ∀ ev, no_gather ev → P ev.

Lemma merge_step_events project_dir issue_lookup entry st m :
  hoare P (merge_step str_lower env project_dir issue_lookup entry st m)
    (λ _, True).
Proof.
  destruct entry as [iid res]. unfold merge_step.
  destruct (reported_success res); [|by apply hoare_ret].
  apply (hoare_bind _ _ _ (λ _, True)); [by apply hoare_lift|]. intros br _.
  apply (hoare_bind _ _ _ (λ _, True)); [by apply MergeFacts.merge_branch_events|].
  intros mr _. destruct (Merge.success mr); [|destruct (Merge.conflict mr)].
  - apply (hoare_bind _ _ _ (λ _, True)); [by apply MergeFacts.delete_branch_events|].
    intros _ _. by apply hoare_ret.
  - apply (hoare_bind _ _ _ (λ _, True)); [by apply hoare_lift|].
    intros issue _. by apply hoare_ret.
  - by apply hoare_ret.
Qed.

Lemma merge_phase_events project_dir issue_lookup results :
  ∀ st m,
  hoare P (merge_phase str_lower env project_dir issue_lookup results st m)
    (λ _, True).
Proof.
  induction results as [|entry results IH]; intros st m; [by apply hoare_ret|].
  cbn [merge_phase].
  apply (hoare_bind _ _ _ (λ _, True)); [apply merge_step_events|].
  intros [st1 m1] _. apply IH.
Qed.

End Events.

(** Whatever the bound on the workers, running a tier only adds to the
    history. *)
Lemma run_waves_any tier_issues project_dir model results_dir max_workers
    starts :
  ∀ pr all_results,
  hoare (λ _, True)
    (run_waves env tier_issues project_dir model results_dir max_workers
       starts pr all_results)
    (λ out, same_sets pr out.1).
Proof.
  induction starts as [|ws starts IH]; intros pr all_results.
  { apply hoare_ret. apply same_sets_refl. }
  cbn [run_waves]. eapply hoare_bind; [by apply setup_wave_spec|].
  intros [[pr1 res1] tasks] [Hsets _]. cbn [fst snd] in *.
  destruct tasks as [|task tasks].
  { eapply hoare_post; [|apply IH]. intros out. by apply same_sets_trans. }
  apply (hoare_bind _ _ _ (λ _, True)); [by apply hoare_request|].
  intros worker_results _. eapply hoare_bind; [by apply collect_wave_spec|].
  intros [pr2 res2] Hsets2. cbn [fst] in Hsets2.
  eapply hoare_post; [|apply IH].
  intros out Hout. eapply same_sets_trans; [done|].
  by eapply same_sets_trans.
Qed.

Lemma run_tier_parallel_any tier_issues project_dir model max_workers pr :
  hoare (λ _, True)
    (_run_tier_parallel env tier_issues project_dir model max_workers pr)
    (λ out, same_sets pr out.1).
Proof.
  unfold _run_tier_parallel.
  apply (hoare_bind _ _ _ (λ _, True)); [by apply MergeFacts.mkdir_parents_events|].
  intros _ _. apply (hoare_bind _ _ _ (λ _, True)); [by apply hoare_lift|].
  intros starts _. apply run_waves_any.
Qed.

(** *** The loop over the tiers *)

Lemma grows_same_sets st pr :
  same_sets (progress st) pr →
  grows st (mkCoord (completed st) pr (requeued st)).
Proof.
  intros (Hc & Hf & Hr). unfold grows. cbn. rewrite Hc, Hf, Hr. done.
Qed.

(** One round of the loop, when a tier has work: what was run, and the
    states in between. *)
Lemma execute_tiers_round T0 rounds plan project_dir model max_workers
    issue_lookup st h st' h' :
  execute_tiers str_lower env (T0 :: rounds) plan project_dir model
    max_workers issue_lookup st h = (ok st', h') →
  match Scheduler.get_ready_issues plan (completed st) with
  | (_ :: _, Some T) =>
      let tier_issues :=
        omap (λ iid, issue_lookup !! iid)
          (filter (λ iid, iid ∉ completed st) (Scheduler.issue_ids T)) in
      match tier_issues with
      | [] =>
          execute_tiers str_lower env rounds plan project_dir model max_workers
            issue_lookup (with_progress incr_tiers_completed st) h
          = (ok st', h')
      | _ :: _ =>
          ∃ mw pr results h1 st2 m2 h2,
            (mw = 1 ∨ mw = max_workers) ∧
            _run_tier_parallel env tier_issues project_dir model mw
              (set_current_tier
                 (mkTierProgress (Scheduler.tier T) (Scheduler.description T)
                    (Z.of_nat (length tier_issues)) ∅ ∅ ∅) (progress st)) h
            = (ok (pr, results), h1) ∧
            merge_phase str_lower env project_dir issue_lookup results
              (mkCoord (completed st) pr (requeued st)) [] h1
            = (ok (st2, m2), h2) ∧
            execute_tiers str_lower env rounds plan project_dir model
              max_workers issue_lookup
              (with_progress incr_tiers_completed st2) h2
            = (ok st', h')
      end
  | _ => st' = st ∧ h' = h
  end.
Proof.
  cbn [execute_tiers].
  destruct (Scheduler.get_ready_issues plan (completed st)) as [[|r rs] [T|]];
    try (unfold_M; intros ?; by simplify_eq).
  cbv zeta.
  destruct (omap (λ iid, issue_lookup !! iid)
              (filter (λ iid, iid ∉ completed st) (Scheduler.issue_ids T)))
    as [|ti tis] eqn:Hissues; [done|].
  unfold_M.
  set (pr0 := set_current_tier _ (progress st)).
  destruct (Scheduler.sequential T || bool_decide (length (ti :: tis) = 1%nat)).
  - unfold _run_tier_sequential.
    destruct (_run_tier_parallel env (ti :: tis) project_dir model 1 pr0 h)
      as [[e|[pr results]] h1] eqn:Hrun; [done|].
    destruct (merge_phase _ _ _ _ _ _ _ _) as [[e|[st2 m2]] h2] eqn:Hmerge;
      [done|].
    intros Hrest. exists 1, pr, results, h1, st2, m2, h2.
    split_and!; first [by left|done].
  - destruct (_run_tier_parallel env (ti :: tis) project_dir model max_workers
                pr0 h) as [[e|[pr results]] h1] eqn:Hrun; [done|].
    destruct (merge_phase _ _ _ _ _ _ _ _) as [[e|[st2 m2]] h2] eqn:Hmerge;
      [done|].
    intros Hrest. exists max_workers, pr, results, h1, st2, m2, h2.
    split_and!; first [by right|done].
Qed.

Lemma execute_tiers_grows rounds plan project_dir model max_workers
    issue_lookup :
  ∀ st h st' h',
  execute_tiers str_lower env rounds plan project_dir model max_workers
    issue_lookup st h = (ok st', h') →
  grows st st' ∧ h `prefix_of` h'.
Proof.
  induction rounds as [|T0 rounds IH]; intros st h st' h' Hrun.
  { cbn in Hrun. unfold_M. simplify_eq. split; [apply grows_refl|done]. }
  apply execute_tiers_round in Hrun.
  destruct (Scheduler.get_ready_issues plan (completed st)) as [[|r rs] [T|]];
    try (destruct Hrun as [-> ->]; split; [apply grows_refl|done]).
  cbv zeta in Hrun.
  destruct (omap _ _) as [|ti tis].
  - apply IH in Hrun as [Hgrows Hpre]. split; [|done].
    eapply (grows_trans str_lower); [|done]. by unfold grows.
  - destruct Hrun as (mw & pr & results & h1 & st2 & m2 & h2
                      & _ & Hrun & Hmerge & Hrest).
    pose proof (hoare_prefix _ _ _ _ _ _
                  (run_tier_parallel_any _ _ _ _ _) Hrun) as Hpre1.
    destruct (run_tier_parallel_any _ _ _ _ _ _ _ _ Hrun) as [_ Hsets].
    specialize (Hsets _ eq_refl). cbn [fst] in Hsets.
    pose proof (hoare_prefix _ _ _ _ _ _
                  (merge_phase_events (λ _, True) (λ _ _, I) _ _ _ _ _)
                  Hmerge) as Hpre2.
    apply merge_phase_grows in Hmerge.
    apply IH in Hrest as [Hgrows Hpre3]. split; [|by do 2 (etrans; [done|])].
    eapply (grows_trans str_lower);
      [|eapply (grows_trans str_lower); [exact Hmerge|]].
    + by apply (grows_same_sets st pr).
    + eapply (grows_trans str_lower); [|done]. by unfold grows.
Qed.

(** *** Completed means merged *)

Section Merged.

Variable project_dir : string.
Variable known : gset string.
Variable h0 : list event.

Lemma merge_succeeded_mono h h' br :
  h `prefix_of` h' →
  merge_succeeded env project_dir h0 h br →
  merge_succeeded env project_dir h0 h' br.
Proof.
  intros Hpre (h1 & out & err & Hh1 & Hmerge & Hreply).
  exists h1, out, err. split_and!; [done| |done]. by etrans.
Qed.

Lemma inv_weaken h h' st st' :
  tracks_merges env project_dir known h0 h st → h `prefix_of` h' →
  completed st' = completed st →
  completed_issues (progress st') = completed_issues (progress st) →
  tracks_merges env project_dir known h0 h' st'.
Proof.
  intros [Hpre Hinv] Hh Hc Hp. split; [by etrans|].
  intros iid Hiid. rewrite Hc, Hp in Hiid.
  destruct (Hinv iid Hiid) as [?|[br Hbr]]; [by left|].
  right. exists br. by eapply merge_succeeded_mono.
Qed.

Lemma inv_add h h' st st' iid br :
  tracks_merges env project_dir known h0 h st → h `prefix_of` h' →
  merge_succeeded env project_dir h0 h' br →
  completed st' = {[ iid ]} ∪ completed st →
  completed_issues (progress st')
    = {[ iid ]} ∪ completed_issues (progress st) →
  tracks_merges env project_dir known h0 h' st'.
Proof.
  intros [Hpre Hinv] Hh Hbr Hc Hp. split; [by etrans|].
  intros i Hi. rewrite Hc, Hp in Hi.
  destruct (decide (i = iid)) as [->|Hne]; [right; by exists br|].
  destruct (Hinv i) as [?|[br' Hbr']]; [set_solver|by left|].
  right. exists br'. by eapply merge_succeeded_mono.
Qed.

(** A merge that reports success exited with 0. *)
Lemma merge_branch_success br h mr hm :
  Merge.merge_branch str_lower env project_dir br h = (ok mr, hm) →
  Merge.success mr = true →
  h `prefix_of` hm ∧
  ∃ out err,
    git_reply env h project_dir (Merge.merge_args br) = ok (0, out, err) ∧
    (h ++ [EvGit project_dir (Merge.merge_args br)]) `prefix_of` hm.
Proof.
  unfold Merge.merge_branch, Merge._run_git. unfold_M.
  destruct (git_reply env h project_dir (Merge.merge_args br))
    as [e|[[rc out] err]] eqn:Hreply; [done|].
  case_bool_decide as Hrc.
  - intros [= <- <-] _. subst rc. split; [by apply prefix_app_r|].
    by exists out, err.
  - destruct (_ || _);
      destruct (git_reply env _ project_dir ["merge"; "--abort"]);
      intros ?; simplify_eq; done.
Qed.

Lemma merge_succeeded_here br h mr hm :
  h0 `prefix_of` h →
  Merge.merge_branch str_lower env project_dir br h = (ok mr, hm) →
  Merge.success mr = true →
  merge_succeeded env project_dir h0 hm br.
Proof.
  intros Hpre Hmerge Hsuccess.
  destruct (merge_branch_success _ _ _ _ Hmerge Hsuccess)
    as (_ & out & err & Hreply & Hhm).
  by exists h, out, err.
Qed.

Lemma merge_step_merged issue_lookup entry st m h st2 m2 h2 :
  tracks_merges env project_dir known h0 h st →
  merge_step str_lower env project_dir issue_lookup entry st m h
    = (ok (st2, m2), h2) →
  tracks_merges env project_dir known h0 h2 st2.
Proof.
  intros Hinv Hrun.
  pose proof (hoare_prefix _ _ _ _ _ _
                (merge_step_events (λ _, True) (λ _ _, I) _ _ _ _ _) Hrun)
    as Hpre.
  destruct entry as [iid res]. apply merge_step_inv in Hrun.
  destruct (reported_success res).
  - destruct Hrun as (br & mr & hm & Hbr & Hmerge & Hrun).
    destruct (Merge.success mr) eqn:Hsuccess; [|destruct (Merge.conflict mr)].
    + destruct Hrun as (-> & -> & _).
      eapply (inv_add h _ st _ iid br); [done|done| |done|done].
      eapply merge_succeeded_mono; [|by eapply merge_succeeded_here; [apply Hinv|..]].
      by apply prefix_app_r.
    + destruct Hrun as (-> & issue & _ & -> & _).
      by apply (inv_weaken h hm st).
    + destruct Hrun as (-> & -> & _). by apply (inv_weaken h hm st).
  - destruct Hrun as (-> & -> & _). by apply (inv_weaken h h st).
Qed.

Lemma merge_phase_merged issue_lookup results :
  ∀ st m h st' m' h',
  tracks_merges env project_dir known h0 h st →
  merge_phase str_lower env project_dir issue_lookup results st m h
    = (ok (st', m'), h') →
  tracks_merges env project_dir known h0 h' st'.
Proof.
  induction results as [|entry results IH]; intros st m h st' m' h' Hinv.
  { cbn. unfold_M. intros ?. by simplify_eq. }
  cbn [merge_phase]. unfold_M.
  destruct (merge_step _ _ _ _ _ _ _ _) as [[e|[st1 m1]] h1] eqn:Hstep; [done|].
  intros Hrest. eapply IH; [|done]. by eapply merge_step_merged.
Qed.

Lemma execute_tiers_merged rounds plan model max_workers issue_lookup :
  ∀ st h st' h',
  tracks_merges env project_dir known h0 h st →
  execute_tiers str_lower env rounds plan project_dir model max_workers
    issue_lookup st h = (ok st', h') →
  tracks_merges env project_dir known h0 h' st'.
Proof.
  induction rounds as [|T0 rounds IH]; intros st h st' h' Hinv Hrun.
  { cbn in Hrun. unfold_M. by simplify_eq. }
  apply execute_tiers_round in Hrun.
  destruct (Scheduler.get_ready_issues plan (completed st)) as [[|r rs] [T|]];
    try (by destruct Hrun as [-> ->]).
  cbv zeta in Hrun.
  destruct (omap _ _) as [|ti tis].
  - eapply IH; [|done]. by apply (inv_weaken h h st).
  - destruct Hrun as (mw & pr & results & h1 & st2 & m2 & h2
                      & _ & Hrun & Hmerge & Hrest).
    pose proof (hoare_prefix _ _ _ _ _ _
                  (run_tier_parallel_any _ _ _ _ _) Hrun) as Hpre1.
    destruct (run_tier_parallel_any _ _ _ _ _ _ _ _ Hrun) as [_ Hsets].
    specialize (Hsets _ eq_refl). cbn [fst] in Hsets.
    destruct Hsets as (Hc & _).
    eapply IH; [|done].
    apply (inv_weaken h2 h2 st2); [|done..].
    eapply merge_phase_merged; [|exact Hmerge].
    by apply (inv_weaken h h1 st).
Qed.

Lemma retry_step_merged model issue st h st' h' :
  tracks_merges env project_dir known h0 h st →
  retry_step str_lower env project_dir model issue st h = (ok st', h') →
  tracks_merges env project_dir known h0 h' st'.
Proof.
  intros Hinv. unfold retry_step. unfold_M.
  destruct (getitem issue "id") as [e|iid]; [done|].
  destruct (_run_tier_sequential _ _ _ _ _ _) as [[e|[pr res]] h1] eqn:Hrun;
    [done|].
  unfold _run_tier_sequential in Hrun.
  pose proof (hoare_prefix _ _ _ _ _ _
                (run_tier_parallel_any _ _ _ _ _) Hrun) as Hpre1.
  destruct (run_tier_parallel_any _ _ _ _ _ _ _ _ Hrun) as [_ Hsets].
  specialize (Hsets _ eq_refl). cbn [fst] in Hsets. destruct Hsets as (Hc & _).
  assert (tracks_merges env project_dir known h0 h1
            (mkCoord (completed st) pr (requeued st))) as Hinv1
    by (by apply (inv_weaken h h1 st)).
  destruct (reported_success _); [|intros ?; by simplify_eq].
  destruct (result_branch _ _) as [e|br]; [done|].
  destruct (Merge.merge_branch _ _ _ _ _) as [[e|mr] hm] eqn:Hmerge; [done|].
  pose proof (hoare_prefix _ _ _ _ _ _
                (MergeFacts.merge_branch_events env (λ _, True) (λ _ _, I)
                   _ _ _) Hmerge) as Hpre2.
  destruct (Merge.success mr) eqn:Hsuccess.
  - destruct (Merge.delete_branch _ _ _ _) as [[e|[]] hd] eqn:Hdel; [done|].
    pose proof (hoare_prefix _ _ _ _ _ _
                  (MergeFacts.delete_branch_events env (λ _, True) (λ _ _, I)
                     _ _) Hdel) as Hpre3.
    intros ?. simplify_eq.
    eapply (inv_add h1 _ _ _ iid br); [done|by etrans| |done|done].
    eapply merge_succeeded_mono; [done|].
    eapply merge_succeeded_here; [apply Hinv1|done..].
  - intros ?. simplify_eq.
    by apply (inv_weaken h1 h' (mkCoord (completed st) pr (requeued st))).
Qed.

Lemma retry_loop_merged model todo :
  ∀ st h st' h',
  tracks_merges env project_dir known h0 h st →
  retry_loop str_lower env project_dir model todo st h = (ok st', h') →
  tracks_merges env project_dir known h0 h' st'.
Proof.
  induction todo as [|issue todo IH]; intros st h st' h' Hinv.
  { cbn. unfold_M. intros ?. by simplify_eq. }
  cbn [retry_loop]. unfold_M.
  destruct (retry_step _ _ _ _ _ _ _) as [[e|st1] h1] eqn:Hstep; [done|].
  intros Hrest. eapply IH; [|done]. by eapply retry_step_merged.
Qed.

Lemma sequential_retry_merged model st h st' h' :
  tracks_merges env project_dir known h0 h st →
  sequential_retry str_lower env project_dir model st h = (ok st', h') →
  tracks_merges env project_dir known h0 h' st'.
Proof.
  intros Hinv. unfold sequential_retry.
  destruct (requeued st) eqn:Hreq.
  { unfold_M. intros ?. by simplify_eq. }
  intros Hrun. eapply retry_loop_merged; [|done].
  by apply (inv_weaken h h st).
Qed.

End Merged.

(** *** The order of the tiers *)

Lemma tier_barrier_no_gather plan skip closed ev :
  no_gather ev → tier_barrier plan skip closed ev.
Proof. by destruct ev. Qed.

Lemma tier_barrier_mono plan skip skip' closed closed' ev :
  skip ⊆ skip' → closed' ⊆ closed →
  tier_barrier plan skip' closed' ev → tier_barrier plan skip closed ev.
Proof.
  intros Hskip Hclosed. destruct ev; try done.
  intros (T & before & after & Hts & Hbefore & Htasks).
  exists T, before, after. split_and!; [done| |].
  - intros t iid Ht Hiid. by eapply Hclosed, Hbefore.
  - intros task Htask. destruct (Htasks task Htask) as [Hin Hout].
    split; [done|]. intros ?. apply Hout. by apply Hskip.
Qed.

(** X16.  In every run of the loop over the tiers that returns, workers are
    only started tier by tier: the workers awaited together all work
    on issues of one tier of the plan, none of which was completed
    when the loop began, and every issue of every tier before that one
    is completed when the loop ends.  A run that leaves an issue of a
    tier uncompleted has started no worker for a tier after it. *)
Theorem execute_tiers_barrier (rounds : list Scheduler.ExecutionTier)
    (plan : Scheduler.ParallelPlan) (project_dir model : string)
    (max_workers : Z) (issue_lookup : gmap string (gmap string string)) :
  1 ≤ max_workers →
  map_Forall (λ iid issue, issue !! "id" = Some iid) issue_lookup →
  ∀ st h st' h',
  execute_tiers str_lower env rounds plan project_dir model max_workers
    issue_lookup st h = (ok st', h') →
  ∃ new, h' = h ++ new ∧
         Forall (tier_barrier plan (completed st) (completed st')) new.
Proof.
  intros Hmw Hlookup.
  induction rounds as [|T0 rounds IH]; intros st h st' h' Hrun.
  { cbn in Hrun. unfold_M. simplify_eq. exists []. by rewrite app_nil_r. }
  destruct (execute_tiers_grows _ _ _ _ _ _ _ _ _ _ Hrun) as [Hgrows _].
  apply execute_tiers_round in Hrun.
  pose proof (SchedulerFacts.get_ready_tiers_spec (Scheduler.tiers plan)
                (completed st)) as Hready.
  unfold Scheduler.get_ready_issues in Hrun.
  destruct (Scheduler.get_ready_tiers (Scheduler.tiers plan) (completed st))
    as [[|r rs] [T|]];
    try (destruct Hrun as [-> ->]; exists []; by rewrite app_nil_r).
  destruct Hready as (before & after & Hts & Hbefore & _ & _).
  cbv zeta in Hrun.
  destruct (omap _ _) as [|ti tis] eqn:Hissues.
  { destruct (IH _ _ _ _ Hrun) as (new & -> & Hnew). exists new.
    split; [done|]. eapply Forall_impl; [done|]. intros ev.
    by apply tier_barrier_mono. }
  destruct Hrun as (mw & pr & results & h1 & st2 & m2 & h2
                    & Hmw' & Hrun & Hmerge & Hrest).
  assert (1 ≤ mw) as Hmw1 by (destruct Hmw' as [->| ->]; [lia|done]).
  destruct (hoare_events _ _ _ _ _ _
              (run_tier_parallel_spec env _ _ _ mw _ Hmw1) Hrun)
    as (new1 & -> & Hnew1).
  destruct (hoare_events _ _ _ _ _ _
              (merge_phase_events no_gather (λ _ H, H) _ _ _ _ _) Hmerge)
    as (new2 & -> & Hnew2).
  apply merge_phase_grows in Hmerge as (Hc2 & _). cbn in Hc2.
  destruct (IH _ _ _ _ Hrest) as (new3 & -> & Hnew3).
  exists (new1 ++ new2 ++ new3). split; [by rewrite !(assoc_L (++))|].
  destruct Hgrows as (Hc & _).
  repeat apply Forall_app_2.
  - eapply Forall_impl; [done|]. intros [| | | |tasks|]; try done.
    intros [_ (j & Htasks)]. exists T, before, after. split_and!; [done| |].
    + intros t iid Ht Hiid. by eapply Hc, Hbefore.
    + intros task Htask.
      destruct (Htasks task Htask) as (_ & issue & Hissue & Hid).
      apply list_elem_of_lookup_2 in Hissue. rewrite <- Hissues in Hissue.
      apply list_elem_of_omap in Hissue as (iid & Hiid & Hlook).
      apply Hlookup in Hlook. cbn in Hlook.
      assert (task_issue_id task = iid) as -> by congruence.
      by apply list_elem_of_filter in Hiid as [? ?].
  - eapply Forall_impl; [done|]. intros ev. apply tier_barrier_no_gather.
  - eapply Forall_impl; [done|]. intros ev.
    by apply tier_barrier_mono.
Qed.

End Tiers.

(** *** The run of the coordinator *)

Section Run.

Variable str_lower : string → string.
Variable env : Env.
Variable splitlines : string → list string.
Variable path_text : string → string.


(** Where every issue has an identifier, the identifier number [k] is
    that of the issue number [k]. *)
Lemma traverse_ids_lookup (issues : list (gmap string string))
    (ids : list string) :
  traverse (λ issue : gmap string string, getitem issue "id") issues = ok ids →
  ∀ k iid, ids !! k = Some iid ↔
           ∃ issue, issues !! k = Some issue ∧ issue !! "id" = Some iid.
Proof.
  revert ids. induction issues as [|issue issues IH]; intros ids.
  - intros [= <-] k iid. rewrite lookup_nil. split; [done|].
    intros (issue & Hk & _). by rewrite lookup_nil in Hk.
  - cbn. unfold getitem. destruct (issue !! "id") as [iid0|] eqn:Hid0; [|done].
    cbn. destruct (traverse _ issues) as [e|ids'] eqn:Hrest; [done|].
    cbn. intros [= <-] k iid. destruct k as [|k]; cbn.
    + split.
      * intros [= <-]. by exists issue.
      * intros (issue' & [= <-] & Hid). congruence.
    + by apply IH.
Qed.


Lemma make_issue_lookup_spec (issues : list (gmap string string)) :
  ∀ acc lookup,
  make_issue_lookup issues acc = ok lookup →
  map_Forall (λ iid issue, issue !! "id" = Some iid) acc →
  map_Forall (λ iid issue, issue !! "id" = Some iid) lookup.
Proof.
  induction issues as [|issue issues IH]; intros acc lookup.
  { by intros [= <-]. }
  cbn. unfold getitem. destruct (issue !! "id") as [iid|] eqn:Hid; [|done].
  cbn. intros Hrest Hacc. eapply IH; [done|]. by apply map_Forall_insert_2.
Qed.

(** What has happened in a run that returns, by the way it ends. *)
Lemma run_parallel_agent_returns issues project_dir model max_workers now fs
    t h outcome fs' h' :
  run_parallel_agent str_lower env splitlines path_text issues project_dir
    model max_workers now fs t h = (ok (outcome, fs'), h') →
  let h1 := h ++ [EvMkdir project_dir;
                  EvGit project_dir ["rev-parse"; "--git-dir"]] in
  1 ≤ max_workers ≤ 5 ∧
  match outcome with
  | NoIssues => issues = [] ∧ h' = h ++ [EvMkdir project_dir] ∧ fs' = fs
  | NotARepository => issues ≠ [] ∧ h' = h1 ∧ fs' = fs
  | _ =>
      issues ≠ [] ∧
      ∃ plan issue_lookup ids finished cancelled status_map,
        obtain_plan str_lower issues max_workers now project_dir fs
          = ok (plan, fs') ∧
        make_issue_lookup issues ∅ = ok issue_lookup ∧
        traverse (λ issue : gmap string string, getitem issue "id") issues
          = ok ids ∧
        LinearStatus.check_issue_statuses t ids
          = ok (finished, cancelled, status_map) ∧
        LinearStatus.print_status_summary status_map finished cancelled
          = ok () ∧
        match outcome with
        | Finished st =>
            Scheduler.total_issues plan
              ≠ Z.of_nat (size (finished ∪ cancelled)) ∧
            ∃ st1 h2 h3,
              execute_tiers str_lower env (Scheduler.tiers plan) plan
                project_dir model max_workers issue_lookup
                (initial_state plan (finished ∪ cancelled)) h1 = (ok st1, h2) ∧
              sequential_retry str_lower env project_dir model st1 h2
                = (ok st, h3) ∧
              Merge.cleanup_worktrees env splitlines path_text project_dir h3
                = (ok (), h')
        | _ =>
            Scheduler.total_issues plan
              = Z.of_nat (size (finished ∪ cancelled)) ∧
            h' = h1
        end
  end.
Proof.
  unfold run_parallel_agent. case_bool_decide as Hmw; [done|].
  unfold Merge.mkdir_parents, Merge.ensure_git_initialized, Merge._run_git.
  unfold_M. destruct issues as [|issue0 issues0].
  { intros [= <- <- <-]. cbv zeta. split; [lia|done]. }
  set (issues := issue0 :: issues0).
  destruct (git_reply env _ project_dir ["rev-parse"; "--git-dir"])
    as [e|[[rc out] err]]; [done|].
  rewrite <- (assoc_L (++)). cbn [app].
  case_bool_decide; cbn [negb].
  2:{ intros [= <- <- <-]. cbv zeta. split; [lia|done]. }
  destruct (obtain_plan str_lower issues max_workers now project_dir fs)
    as [e|[plan fs1]] eqn:Hplan; [done|].
  destruct (make_issue_lookup issues ∅) as [e|issue_lookup] eqn:Hlookup;
    [done|].
  destruct (traverse _ issues) as [e|ids] eqn:Hids; [done|].
  destruct (LinearStatus.check_issue_statuses t ids)
    as [e|[[finished cancelled] status_map]] eqn:Hsweep; [done|].
  destruct (LinearStatus.print_status_summary status_map finished cancelled)
    as [e|[]] eqn:Hsummary; [done|].
  case_bool_decide as Hremaining.
  { intros [= <- <- <-]. cbv zeta. split; [lia|]. split; [done|].
    exists plan, issue_lookup, ids, finished, cancelled, status_map.
    split_and!; [done..|lia|done]. }
  destruct (execute_tiers _ _ _ _ _ _ _ _ _ _) as [[e|st1] h2] eqn:Htiers;
    [done|].
  destruct (sequential_retry _ _ _ _ _ _) as [[e|st2] h3] eqn:Hretry; [done|].
  destruct (Merge.cleanup_worktrees _ _ _ _ _) as [[e|[]] h4] eqn:Hclean;
    [done|].
  intros [= <- <- <-]. cbv zeta. split; [lia|]. split; [done|].
  exists plan, issue_lookup, ids, finished, cancelled, status_map.
  split_and!; [done..|lia|]. by exists st1, h2, h3.
Qed.

Lemma sequential_retry_retried project_dir model st h st' h' :
  sequential_retry str_lower env project_dir model st h = (ok st', h') →
  retried st st'.
Proof.
  unfold sequential_retry. destruct (requeued st).
  - unfold_M. intros ?. simplify_eq. unfold retried. set_solver.
  - intros Hrun. by apply retry_loop_retried in Hrun.
Qed.

(** X17.  Nothing is completed that the tracker does not report as closed or
    that was not merged.  In a run that goes through all its phases,
    every issue in the local completed set or in the completed set of
    the progress model at the end is an issue of the project that the
    tracker reported as completed or cancelled when the run began (at
    the call of the sweep for that issue), or a merge exited with 0
    during the run; and every issue the tracker reported so is in both
    sets at the end. *)
Theorem run_parallel_agent_completed (issues : list (gmap string string))
    (project_dir model : string) (max_workers : Z) (now : string)
    (fs : gmap string json) (t : LinearStatus.Tracker) (h : list event)
    (st : Coord) (fs' : gmap string json) (h' : list event) :
  let closed iid :=
    ∃ k issue status,
      issues !! k = Some issue ∧ issue ∈ issues ∧ issue !! "id" = Some iid ∧
      LinearStatus.get_issue_status t k iid = ok status ∧
      (LinearStatus.state_type status = JStr "completed" ∨
       LinearStatus.state_type status = JStr "canceled") in
  run_parallel_agent str_lower env splitlines path_text issues project_dir
    model max_workers now fs t h = (ok (Finished st, fs'), h') →
  (∀ iid, iid ∈ completed st ∨ iid ∈ completed_issues (progress st) →
          closed iid ∨ ∃ br, merge_succeeded env project_dir h h' br) ∧
  (∀ iid, closed iid →
          iid ∈ completed st ∧ iid ∈ completed_issues (progress st)).
Proof.
  intros closed Hrun. apply run_parallel_agent_returns in Hrun.
  cbv zeta in Hrun.
  destruct Hrun as (_ & _ & plan & issue_lookup & ids & finished & cancelled
                    & status_map & _ & _ & Hids & Hsweep & _ & _
                    & st1 & h2 & h3 & Htiers & Hretry & Hclean).
  pose proof (traverse_ids_lookup _ _ Hids) as Hlookup.
  apply LinearStatusFacts.check_issue_statuses_sets in Hsweep as [Hc Hx].
  assert (∀ iid, iid ∈ finished ∪ cancelled ↔ closed iid) as Hclosed.
  { intros iid. rewrite elem_of_union, Hc, Hx. unfold closed.
    split.
    - intros [(k & status & (issue & Hk & Hid)%Hlookup & ? & ?)
             |(k & status & (issue & Hk & Hid)%Hlookup & ? & ?)];
        exists k, issue, status;
        (split_and!; [done|by eapply list_elem_of_lookup_2|done|done|by eauto]).
    - intros (k & issue & status & Hk & _ & Hid & ? & [?|?]); [left|right];
        exists k, status; (split_and!; [|done..]); apply Hlookup;
        by exists issue. }
  set (h1 := h ++ [EvMkdir project_dir;
                   EvGit project_dir ["rev-parse"; "--git-dir"]]) in *.
  assert (tracks_merges env project_dir (finished ∪ cancelled) h h1
            (initial_state plan (finished ∪ cancelled))) as Hinv.
  { split; [by apply prefix_app_r|]. intros iid [?|?]; by left. }
  split.
  - eapply execute_tiers_merged in Htiers; [|exact Hinv].
    eapply sequential_retry_merged in Hretry; [|exact Htiers].
    pose proof (hoare_prefix _ _ _ _ _ _
                  (MergeFacts.cleanup_worktrees_events env splitlines
                     path_text (λ _, True) (λ _ _, I) _) Hclean) as Hpre.
    destruct Hretry as [_ Hdone]. intros iid Hiid.
    destruct (Hdone iid Hiid) as [?|[br Hbr]]; [left; by apply Hclosed|].
    right. exists br. by eapply merge_succeeded_mono.
  - intros iid Hiid%Hclosed.
    apply execute_tiers_grows in Htiers as [(Hc1 & Hp1 & _) _].
    apply sequential_retry_retried in Hretry as (Hc2 & Hp2 & _).
    split; [by apply Hc2, Hc1|by apply Hp2, Hp1].
Qed.


(** X19.  A run resumes with the plan of the run before it.  When [obtain_plan]
    has returned a plan, asking again gives the same plan and leaves
    the plan file as it is, whatever issues, bound on the workers and
    clock reading the later run brings along. *)
Theorem obtain_plan_reuse (issues : list (gmap string string))
    (max_workers : Z) (now project_dir : string) (fs : gmap string json)
    (plan : Scheduler.ParallelPlan) (fs' : gmap string json) :
  obtain_plan str_lower issues max_workers now project_dir fs
    = ok (plan, fs') →
  Scheduler.load_plan project_dir fs' = ok (Some plan) ∧
  ∀ issues' max_workers' now',
    obtain_plan str_lower issues' max_workers' now' project_dir fs'
    = ok (plan, fs').
Proof.
  intros Hplan.
  assert (Scheduler.load_plan project_dir fs' = ok (Some plan)) as Hload.
  { unfold obtain_plan in Hplan.
    destruct (Scheduler.load_plan project_dir fs) as [e|[loaded|]] eqn:Hload;
      cbn in Hplan; [done|by simplify_eq|].
    destruct (Scheduler.build_plan str_lower issues max_workers now)
      as [e|built] eqn:Hbuild; [done|]. cbn in Hplan. injection Hplan as <- <-.
    unfold Scheduler.load_plan, Scheduler.save_plan. cbn.
    rewrite lookup_insert_eq. rewrite SchedulerFacts.from_dict_to_dict; [done|].
    unfold Scheduler.build_plan in Hbuild.
    destruct (Scheduler.group_by_tier str_lower issues ∅); [done|].
    cbn in Hbuild. injection Hbuild as <-.
    apply SchedulerFacts.mkParallelPlan_wf. }
  split; [done|]. intros issues' max_workers' now'.
  unfold obtain_plan. by rewrite Hload.
Qed.

End Run.
(** *** The results of a tier *)

Lemma workers_started_app h h' :
  workers_started (h ++ h') = workers_started h ++ workers_started h'.
Proof. unfold workers_started. by rewrite omap_app, concat_app. Qed.

Lemma workers_started_no_gather new :
  Forall no_gather new → workers_started new = [].
Proof.
  induction 1 as [|ev new Hev _ IH]; [done|].
  unfold workers_started in *. by destruct ev.
Qed.

Lemma workers_started_gather tasks :
  workers_started [EvGather tasks] = task_issue_id <$> tasks.
Proof. unfold workers_started. cbn. apply app_nil_r. Qed.

Lemma dict_set_keys {V} (k : string) (v : V) (d : list (string * V)) :
  (dict_set k v d).*1 = add_key d.*1 k.
Proof.
  unfold dict_set, add_key. case_bool_decide; [|by rewrite fmap_app].
  rewrite <- list_fmap_compose. apply list_fmap_ext.
  intros _ [k' v'] _. cbn. by case_bool_decide; simplify_eq/=.
Qed.

Lemma foldl_add_key (ids ks : list string) :
  NoDup ks →
  NoDup (foldl add_key ks ids) ∧
  (∀ k, k ∈ foldl add_key ks ids ↔ k ∈ ks ∨ k ∈ ids) ∧
  (NoDup (ks ++ ids) → foldl add_key ks ids = ks ++ ids).
Proof.
  revert ks. induction ids as [|iid ids IH]; intros ks Hnd.
  { cbn. rewrite app_nil_r. split_and!; [done| |done].
    intros k. rewrite elem_of_nil. naive_solver. }
  cbn [foldl]. unfold add_key at 2 4 6. case_bool_decide as Hin.
  - destruct (IH ks Hnd) as (Hnd' & Hkeys & Heq). split_and!; [done| |].
    + intros k. rewrite Hkeys, elem_of_cons. naive_solver.
    + intros Hall. apply NoDup_app in Hall as (_ & Hdisj & _).
      destruct (Hdisj iid Hin). by left.
  - assert (NoDup (ks ++ [iid])) as Hnd1.
    { apply NoDup_app. split_and!; [done| |apply NoDup_singleton].
      by intros k Hk ->%list_elem_of_singleton. }
    destruct (IH (ks ++ [iid]) Hnd1) as (Hnd' & Hkeys & Heq).
    split_and!; [done| |].
    + intros k. rewrite Hkeys, elem_of_app, list_elem_of_singleton,
        elem_of_cons. naive_solver.
    + intros Hall. rewrite Heq; [by rewrite <- (assoc_L (++))|].
      by rewrite <- (assoc_L (++)).
Qed.

Lemma issue_id_list_app (l1 l2 : list (gmap string string)) :
  Scheduler.issue_id_list (l1 ++ l2)
  = Scheduler.issue_id_list l1 ++ Scheduler.issue_id_list l2.
Proof. unfold Scheduler.issue_id_list. apply omap_app. Qed.

Lemma waves_awaited_app h h' :
  waves_awaited (h ++ h') = waves_awaited h ++ waves_awaited h'.
Proof. unfold waves_awaited. apply omap_app. Qed.

Lemma waves_awaited_no_gather new :
  Forall no_gather new → waves_awaited new = [].
Proof.
  induction 1 as [|ev new Hev _ IH]; [done|].
  unfold waves_awaited in *. by destruct ev.
Qed.

Lemma waves_awaited_gather tasks :
  waves_awaited [EvGather tasks]
  = [(λ t, (task_issue_id t, task_worker_index t)) <$> tasks].
Proof. reflexivity. Qed.

Section TierResults.

Variable env : Env.
Variable project_dir model : string.

Hypothesis git_spawns :
  ∀ h args, ∃ r, git_reply env h project_dir args = ok r.
Hypothesis add_works :
  ∀ h br wt rc out err,
    git_reply env h project_dir ["worktree"; "add"; "-b"; br; wt]
      = ok (rc, out, err) → rc = 0.

Lemma setup_wave_works results_dir (wave_start : Z)
    (wave : list (gmap string string)) :
  (∀ issue, issue ∈ wave → is_Some (issue !! "id")) →
  ∀ i pr all_results spawn_tasks h,
  ∃ pr' new_tasks new,
    setup_wave env project_dir model results_dir wave_start i wave pr
      all_results spawn_tasks h
    = (ok (pr', all_results, spawn_tasks ++ new_tasks), h ++ new) ∧
    task_issue_id <$> new_tasks = Scheduler.issue_id_list wave ∧
    Forall no_gather new.
Proof.
  induction wave as [|issue wave IH]; intros Hids i pr all_results spawn_tasks h.
  { exists pr, [], []. rewrite !app_nil_r. by split_and!. }
  destruct (Hids issue) as [iid Hid]; [by left|].
  cbn [setup_wave]. unfold_M. unfold getitem at 1. rewrite Hid.
  destruct (MergeFacts.create_worktree_works env project_dir git_spawns
              add_works
              (Merge.get_worktree_dir project_dir (wave_start + i))
              (_make_branch_name iid) h) as (new1 & -> & Hnew1).
  cbn [negb]. unfold _build_worker_command, getitem. rewrite Hid. cbn.
  assert (∀ issue', issue' ∈ wave → is_Some (issue' !! "id")) as Hids'.
  { intros issue' Hin. apply Hids. by right. }
  edestruct (IH Hids' (i + 1)) as (pr' & new_tasks & new2 & -> & Htasks & Hnew2).
  eexists pr', (_ :: new_tasks), (new1 ++ new2).
  rewrite <- !(assoc_L (++)). split_and!; [done| |by apply Forall_app].
  unfold Scheduler.issue_id_list in *. cbn. by rewrite Hid, Htasks.
Qed.

Lemma collect_wave_works results_dir (wave_start : Z)
    (pairs : list (gmap string string * result Z)) :
  (∀ issue, issue ∈ pairs.*1 → is_Some (issue !! "id")) →
  ∀ i pr all_results h,
  ∃ pr' all_results' new,
    collect_wave env project_dir results_dir wave_start i pairs pr
      all_results h
    = (ok (pr', all_results'), h ++ new) ∧
    all_results'.*1
    = foldl add_key all_results.*1 (Scheduler.issue_id_list pairs.*1) ∧
    Forall no_gather new.
Proof.
  induction pairs as [|[issue wr] pairs IH]; intros Hids i pr all_results h.
  { exists pr, all_results, []. rewrite app_nil_r. by split_and!. }
  destruct (Hids issue) as [iid Hid]; [by left|].
  assert (∀ issue', issue' ∈ pairs.*1 → is_Some (issue' !! "id")) as Hids'.
  { intros issue' Hin. apply Hids. by right. }
  cbn [collect_wave]. unfold_M. unfold getitem at 1. rewrite Hid.
  assert (∃ entry new1,
            match caught_exception wr with
            | Some e =>
                (λ h, (ok (error_result iid (_make_branch_name iid) (exn_str e)),
                       h)) : M (gmap string json)
            | None =>
                λ h,
                  match load_worker_result env
                          (path_join results_dir (iid +:+ ".json")) h with
                  | (inl e, h') => (inl e, h')
                  | (inr loaded, h') =>
                      (ok match loaded with
                          | Some r =>
                              if bool_decide (r = ∅)
                              then error_result iid (_make_branch_name iid)
                                     "No result file produced"
                              else r
                          | None => error_result iid (_make_branch_name iid)
                                      "No result file produced"
                          end, h')
                  end
            end h = (ok entry, h ++ new1) ∧ Forall no_gather new1)
    as (entry & new1 & -> & Hnew1).
  { destruct (caught_exception wr).
    - eexists _, []. rewrite app_nil_r. by split.
    - unfold load_worker_result, request. eexists _, [_].
      split; [done|]. by constructor. }
  destruct (MergeFacts.remove_worktree_works env project_dir git_spawns
              (Merge.get_worktree_dir project_dir (wave_start + i))
              (h ++ new1)) as (b & new2 & -> & Hnew2).
  edestruct (IH Hids' (i + 1)) as (pr' & res' & new3 & -> & Hkeys & Hnew3).
  exists pr', res', (new1 ++ new2 ++ new3).
  rewrite <- !(assoc_L (++)). split_and!; [done| |by repeat apply Forall_app_2].
  rewrite Hkeys, dict_set_keys. unfold Scheduler.issue_id_list. cbn.
  by rewrite Hid.
Qed.

Lemma run_waves_works tier_issues results_dir (max_workers : Z)
    (starts : list Z) :
  (∀ issue, issue ∈ tier_issues → is_Some (issue !! "id")) →
  ∀ pr all_results h,
  ∃ pr' all_results' new,
    run_waves env tier_issues project_dir model results_dir max_workers starts
      pr all_results h
    = (ok (pr', all_results'), h ++ new) ∧
    all_results'.*1
    = foldl add_key all_results.*1
        (Scheduler.issue_id_list
           (concat ((λ ws, slice tier_issues ws max_workers) <$> starts))) ∧
    workers_started new
    = Scheduler.issue_id_list
        (concat ((λ ws, slice tier_issues ws max_workers) <$> starts)).
Proof.
  intros Hids.
  induction starts as [|ws starts IH]; intros pr all_results h.
  { exists pr, all_results, []. rewrite app_nil_r. by split_and!. }
  set (wave := slice tier_issues ws max_workers).
  assert (∀ issue, issue ∈ wave → is_Some (issue !! "id")) as Hwave.
  { intros issue Hin. apply Hids. unfold wave, slice in Hin.
    by apply subseteq_take, subseteq_drop in Hin. }
  cbn [run_waves fmap list_fmap concat]. fold wave. unfold_M.
  destruct (setup_wave_works results_dir ws wave Hwave 0 pr all_results [] h)
    as (pr1 & tasks & new1 & -> & Htasks & Hnew1).
  cbn [app]. rewrite issue_id_list_app, foldl_app.
  destruct tasks as [|task tasks].
  { destruct (IH pr1 all_results (h ++ new1)) as (pr' & res' & new2 & -> & Hkeys & Hstarted).
    exists pr', res', (new1 ++ new2). rewrite <- (assoc_L (++)).
    cbn in Htasks. rewrite <- Htasks. cbn. split_and!; [done..|].
    by rewrite workers_started_app, workers_started_no_gather. }
  unfold gather, request.
  set (worker_results := worker_reply env (h ++ new1) <$> task :: tasks).
  assert ((zip wave worker_results).*1 = wave) as Hzip.
  { apply fst_zip. unfold worker_results. rewrite length_fmap.
    rewrite <- (length_fmap task_issue_id (task :: tasks)), Htasks.
    unfold Scheduler.issue_id_list. clear -Hwave.
    induction wave as [|issue wave IH]; [done|].
    cbn. destruct (Hwave issue) as [iid ->]; [by left|]. cbn.
    apply le_n_S, IH. intros ??. apply Hwave. by right. }
  destruct (collect_wave_works results_dir ws (zip wave worker_results)
              ltac:(by rewrite Hzip) 0 pr1 all_results
              ((h ++ new1) ++ [EvGather (task :: tasks)]))
    as (pr2 & res2 & new2 & -> & Hkeys2 & Hnew2).
  rewrite Hzip in Hkeys2.
  destruct (IH pr2 res2 (((h ++ new1) ++ [EvGather (task :: tasks)]) ++ new2))
    as (pr' & res' & new3 & -> & Hkeys & Hstarted).
  exists pr', res', (new1 ++ [EvGather (task :: tasks)] ++ new2 ++ new3).
  rewrite <- !(assoc_L (++)). split_and!; [done| |].
  - by rewrite Hkeys, Hkeys2.
  - rewrite !workers_started_app, Hstarted.
    rewrite (workers_started_no_gather new1), (workers_started_no_gather new2)
      by done.
    by rewrite workers_started_gather, Htasks.
Qed.

(** X20.  With a git that can be spawned and adds every worktree it is asked
    for, every issue of a tier is accounted for.  For every list of
    issues that carry an identifier and every bound of at least 1 on
    the workers, [_run_tier_parallel] returns; exactly one worker has
    been started per issue, in the order of the tier; and the results
    hold one entry per identifier of the tier and no other, in the
    order of the tier when the identifiers are pairwise distinct. *)
Theorem run_tier_parallel_results (tier_issues : list (gmap string string))
    (max_workers : Z) (pr : ParallelProgress) (h : list event) :
  1 ≤ max_workers →
  (∀ issue, issue ∈ tier_issues → is_Some (issue !! "id")) →
  ∃ pr' results new,
    _run_tier_parallel env tier_issues project_dir model max_workers pr h
    = (ok (pr', results), h ++ new) ∧
    workers_started new = Scheduler.issue_id_list tier_issues ∧
    NoDup results.*1 ∧
    (∀ iid, iid ∈ results.*1 ↔ iid ∈ Scheduler.issue_id_list tier_issues) ∧
    (NoDup (Scheduler.issue_id_list tier_issues) →
     results.*1 = Scheduler.issue_id_list tier_issues).
Proof.
  intros Hmw Hids. unfold _run_tier_parallel, Merge.mkdir_parents. unfold_M.
  destruct (waves_partition tier_issues max_workers Hmw)
    as (starts & -> & _ & Hconcat & _).
  destruct (run_waves_works tier_issues (Merge.get_results_dir project_dir)
              max_workers starts Hids pr []
              (h ++ [EvMkdir (Merge.get_results_dir project_dir)]))
    as (pr' & results & new & -> & Hkeys & Hstarted).
  rewrite Hconcat in Hkeys, Hstarted. cbn [fmap list_fmap] in Hkeys.
  exists pr', results, (EvMkdir (Merge.get_results_dir project_dir) :: new).
  destruct (foldl_add_key (Scheduler.issue_id_list tier_issues) [])
    as (Hnd & Hin & Heq); [constructor|].
  split_and!.
  - by rewrite <- (assoc_L (++)).
  - by rewrite <- Hstarted.
  - by rewrite Hkeys.
  - intros iid. rewrite Hkeys, Hin, elem_of_nil. naive_solver.
  - intros Hnodup. rewrite Hkeys. by apply Heq.
Qed.

(** The tasks of a wave, when every worktree can be created: one per
    issue of the wave, in order, the task at position [k] with the
    worker index [wave_start + i + k]. *)
Lemma setup_wave_indices results_dir (wave_start : Z)
    (wave : list (gmap string string)) :
  (∀ issue, issue ∈ wave → is_Some (issue !! "id")) →
  ∀ i pr all_results spawn_tasks h,
  ∃ pr' new_tasks new,
    setup_wave env project_dir model results_dir wave_start i wave pr
      all_results spawn_tasks h
    = (ok (pr', all_results, spawn_tasks ++ new_tasks), h ++ new) ∧
    (λ t, (task_issue_id t, task_worker_index t)) <$> new_tasks
    = zip (Scheduler.issue_id_list wave)
        ((λ k : nat, wave_start + i + Z.of_nat k) <$> seq 0 (length wave)) ∧
    Forall no_gather new.
Proof.
  induction wave as [|issue wave IH]; intros Hids i pr all_results spawn_tasks h.
  { exists pr, [], []. rewrite !app_nil_r. by split_and!. }
  destruct (Hids issue) as [iid Hid]; [by left|].
  cbn [setup_wave]. unfold_M. unfold getitem at 1. rewrite Hid.
  destruct (MergeFacts.create_worktree_works env project_dir git_spawns
              add_works
              (Merge.get_worktree_dir project_dir (wave_start + i))
              (_make_branch_name iid) h) as (new1 & -> & Hnew1).
  cbn [negb]. unfold _build_worker_command, getitem. rewrite Hid. cbn.
  assert (∀ issue', issue' ∈ wave → is_Some (issue' !! "id")) as Hids'.
  { intros issue' Hin. apply Hids. by right. }
  edestruct (IH Hids' (i + 1)) as (pr' & new_tasks & new2 & -> & Htasks & Hnew2).
  eexists pr', (_ :: new_tasks), (new1 ++ new2).
  rewrite <- !(assoc_L (++)). split_and!; [done| |by apply Forall_app].
  unfold Scheduler.issue_id_list in *. cbn. rewrite Hid, Htasks. cbn.
  rewrite Z.add_0_r. do 2 f_equal.
  rewrite <- fmap_S_seq, <- list_fmap_compose.
  apply list_fmap_ext. intros _ k _. cbn. lia.
Qed.

(** The waves of a tier, when every worktree can be created: one wave
    per start, in order, each awaiting one worker per issue of its
    slice with the worker index [wave_start + position]. *)
Lemma run_waves_awaited tier_issues results_dir (max_workers : Z)
    (starts : list Z) :
  (∀ issue, issue ∈ tier_issues → is_Some (issue !! "id")) →
  Forall (λ ws, slice tier_issues ws max_workers ≠ []) starts →
  ∀ pr all_results h,
  ∃ pr' all_results' new,
    run_waves env tier_issues project_dir model results_dir max_workers starts
      pr all_results h
    = (ok (pr', all_results'), h ++ new) ∧
    waves_awaited new
    = (λ ws,
         zip (Scheduler.issue_id_list (slice tier_issues ws max_workers))
           ((λ k : nat, ws + Z.of_nat k)
              <$> seq 0 (length (slice tier_issues ws max_workers))))
        <$> starts.
Proof.
  intros Hids.
  induction 1 as [|ws starts Hne _ IH]; intros pr all_results h.
  { exists pr, all_results, []. rewrite app_nil_r. by split_and!. }
  set (wave := slice tier_issues ws max_workers) in *.
  assert (∀ issue, issue ∈ wave → is_Some (issue !! "id")) as Hwave.
  { intros issue Hin. apply Hids. unfold wave, slice in Hin.
    by apply subseteq_take, subseteq_drop in Hin. }
  cbn [run_waves fmap list_fmap]. fold wave. unfold_M.
  destruct (setup_wave_indices results_dir ws wave Hwave 0 pr all_results [] h)
    as (pr1 & tasks & new1 & -> & Htasks & Hnew1).
  cbn [app].
  rewrite (list_fmap_ext (λ k : nat, ws + 0 + Z.of_nat k)
             (λ k : nat, ws + Z.of_nat k) (seq 0 (length wave)))
    in Htasks by (intros _ k _; lia).
  destruct tasks as [|task tasks].
  { exfalso. destruct wave as [|issue wave'] eqn:Hw; [done|].
    destruct (Hwave issue) as [iid Hid]; [by left|].
    unfold Scheduler.issue_id_list in Htasks. cbn in Htasks.
    by rewrite Hid in Htasks. }
  unfold gather, request.
  set (worker_results := worker_reply env (h ++ new1) <$> task :: tasks).
  destruct (collect_wave_works results_dir ws (zip wave worker_results))
    with (i := 0) (pr := pr1) (all_results := all_results)
         (h := (h ++ new1) ++ [EvGather (task :: tasks)])
    as (pr2 & res2 & new2 & -> & _ & Hnew2).
  { intros issue ([issue' wr] & -> & Hin)%list_elem_of_fmap.
    apply Hwave. by apply elem_of_zip_l in Hin. }
  destruct (IH pr2 res2 (((h ++ new1) ++ [EvGather (task :: tasks)]) ++ new2))
    as (pr' & res' & new3 & -> & Hawaited).
  exists pr', res', (new1 ++ [EvGather (task :: tasks)] ++ new2 ++ new3).
  rewrite <- !(assoc_L (++)). split; [done|].
  rewrite !waves_awaited_app, Hawaited.
  rewrite (waves_awaited_no_gather new1), (waves_awaited_no_gather new2)
    by done.
  by rewrite waves_awaited_gather, Htasks.
Qed.

End TierResults.

(** C7.  For every list of tier issues and every [max_workers] of at
    least 1, the starts of the waves are the multiples of
    [max_workers] below the number of issues; the waves, each the slice
    of the list at its start, partition the list in order; every wave
    has between one and [max_workers] issues and all but the last have
    [max_workers]; the issue at position [i] of the wave that starts at
    [ws] is the issue at position [ws + i] of the tier.  The
    coordinator runs these waves: where git can be spawned and adds
    every worktree, and the issues carry identifiers,
    [_run_tier_parallel] returns, and the waves of workers it has
    awaited are, in order, one per start, each with one worker per
    issue of its slice, in the order of the slice, and with the worker
    index [wave_start + position].  And in every run of
    [_run_tier_parallel], whatever the world does, workers are only
    started in waves of at most [max_workers] tasks, each with the
    identifier of an issue of the tier and its position in the tier as
    worker index. *)
Theorem run_tier_waves (env : Env) (tier_issues : list (gmap string string))
    (max_workers : Z) :
  1 ≤ max_workers →
  ∃ starts,
    py_range 0 (Z.of_nat (length tier_issues)) max_workers = ok starts ∧
    (∀ (j : nat) ws, starts !! j = Some ws → ws = Z.of_nat j * max_workers) ∧
    concat ((λ ws, slice tier_issues ws max_workers) <$> starts)
      = tier_issues ∧
    (∀ (j : nat) ws, starts !! j = Some ws →
       (1 ≤ length (slice tier_issues ws max_workers))%nat ∧
       Z.of_nat (length (slice tier_issues ws max_workers)) ≤ max_workers ∧
       ((S j < length starts)%nat →
        Z.of_nat (length (slice tier_issues ws max_workers)) = max_workers)) ∧
    (∀ ws (i : nat) issue,
       ws ∈ starts → slice tier_issues ws max_workers !! i = Some issue →
       tier_issues !! Z.to_nat (ws + Z.of_nat i) = Some issue) ∧
    (∀ project_dir model pr h,
       (∀ h' args, ∃ r, git_reply env h' project_dir args = ok r) →
       (∀ h' br wt rc out err,
          git_reply env h' project_dir ["worktree"; "add"; "-b"; br; wt]
            = ok (rc, out, err) → rc = 0) →
       (∀ issue, issue ∈ tier_issues → is_Some (issue !! "id")) →
       ∃ pr' results new,
         _run_tier_parallel env tier_issues project_dir model max_workers pr h
           = (ok (pr', results), h ++ new) ∧
         waves_awaited new
         = (λ ws,
              zip (Scheduler.issue_id_list (slice tier_issues ws max_workers))
                ((λ k : nat, ws + Z.of_nat k)
                   <$> seq 0 (length (slice tier_issues ws max_workers))))
             <$> starts) ∧
    (∀ project_dir model pr h r h',
       _run_tier_parallel env tier_issues project_dir model max_workers pr h
         = (r, h') →
       ∃ new, h' = h ++ new ∧
         ∀ tasks, EvGather tasks ∈ new →
           Z.of_nat (length tasks) ≤ max_workers ∧
           ∃ j : nat, ∀ t, t ∈ tasks →
             Z.of_nat j * max_workers ≤ task_worker_index t
               < (Z.of_nat j + 1) * max_workers ∧
             ∃ issue,
               tier_issues !! Z.to_nat (task_worker_index t) = Some issue ∧
               issue !! "id" = Some (task_issue_id t)).
Proof.
  intros Hmw.
  destruct (waves_partition tier_issues max_workers Hmw)
    as (starts & Hrange & Hstarts & Hconcat & Hsizes & Hpos).
  exists starts. split_and!; [done..| |].
  - intros project_dir model pr h Hgit Hadd Hids.
    unfold _run_tier_parallel, Merge.mkdir_parents. unfold_M.
    rewrite Hrange.
    destruct (run_waves_awaited env project_dir model Hgit Hadd tier_issues
                (Merge.get_results_dir project_dir) max_workers starts Hids)
      with (pr := pr) (all_results := @nil (string * gmap string json))
           (h := h ++ [EvMkdir (Merge.get_results_dir project_dir)])
      as (pr' & results & new & -> & Hawaited).
    { apply Forall_forall. intros ws (j & Hj)%list_elem_of_lookup_1.
      destruct (Hsizes j ws Hj) as (Hlen & _).
      intros Hnil. rewrite Hnil in Hlen. cbn in Hlen. lia. }
    exists pr', results,
      (EvMkdir (Merge.get_results_dir project_dir) :: new).
    split; [by rewrite <- (assoc_L (++))|].
    unfold waves_awaited in *. by cbn.
  - intros project_dir model pr h r h' Hrun.
    destruct (run_tier_parallel_spec env tier_issues project_dir model
                max_workers pr Hmw _ _ _ Hrun) as [(new & -> & Hnew) _].
    exists new. split; [done|]. intros tasks Hin.
    rewrite Forall_forall in Hnew. apply (Hnew _ Hin).
Qed.
(** *** The exit codes of the workers *)

Lemma bind_ext {A B} (m m' : M A) (f f' : A → M B) (h : list event) :
  m h = m' h → (∀ a h', f a h' = f' a h') → (m ≫= f) h = (m' ≫= f') h.
Proof.
  intros Hm Hf. unfold mbind, M_bind. rewrite Hm.
  by destruct (m' h) as [[e|a] h'].
Qed.

Section ExitCodes.

Variable str_lower : string → string.
Variable env : Env.
Variable f : list event → spawn_task → result Z.

(** The other outcomes are exceptions where [env] has them, the same
    ones, and exit codes where it has exit codes. *)
Hypothesis same_exceptions :
  ∀ h task, caught_exception (f h task) = caught_exception (worker_reply env h task).

Lemma collect_wave_exit_codes project_dir results_dir (wave_start : Z)
    (wave : list (gmap string string)) (tasks : list spawn_task)
    (h0 : list event) :
  ∀ i pr all_results h,
    collect_wave (with_worker_reply f env) project_dir results_dir wave_start i
      (zip wave (f h0 <$> tasks)) pr all_results h
    = collect_wave env project_dir results_dir wave_start i
        (zip wave (worker_reply env h0 <$> tasks)) pr all_results h.
Proof.
  revert tasks. induction wave as [|issue wave IH]; intros [|task tasks];
    intros i pr all_results h; try done.
  cbn [zip zip_with fmap list_fmap collect_wave].
  apply bind_ext; [done|]. intros iid h1.
  apply bind_ext; [by rewrite same_exceptions|]. intros entry h2.
  apply bind_ext; [done|]. intros _ h3. apply IH.
Qed.

Lemma run_waves_exit_codes tier_issues project_dir model results_dir
    (max_workers : Z) (starts : list Z) :
  ∀ pr all_results h,
    run_waves (with_worker_reply f env) tier_issues project_dir model
      results_dir max_workers starts pr all_results h
    = run_waves env tier_issues project_dir model results_dir max_workers
        starts pr all_results h.
Proof.
  induction starts as [|ws starts IH]; intros pr all_results h; [done|].
  cbn [run_waves]. apply bind_ext; [done|].
  intros [[pr1 res1] [|task tasks]] h1; [apply IH|].
  unfold gather. unfold_M. cbn [fst snd].
  rewrite collect_wave_exit_codes.
  destruct (collect_wave env _ _ _ _ _ _ _ _) as [[e|[pr2 res2]] h2]; [done|].
  apply IH.
Qed.

Lemma run_tier_parallel_exit_codes tier_issues project_dir model
    (max_workers : Z) pr h :
  _run_tier_parallel (with_worker_reply f env) tier_issues project_dir model
    max_workers pr h
  = _run_tier_parallel env tier_issues project_dir model max_workers pr h.
Proof.
  unfold _run_tier_parallel. apply bind_ext; [done|]. intros _ h1.
  apply bind_ext; [done|]. intros starts h2. apply run_waves_exit_codes.
Qed.

Lemma merge_phase_exit_codes project_dir issue_lookup results :
  ∀ st merge_results h,
    merge_phase str_lower (with_worker_reply f env) project_dir issue_lookup
      results st merge_results h
    = merge_phase str_lower env project_dir issue_lookup results st
        merge_results h.
Proof. done. Qed.

Lemma execute_tiers_exit_codes rounds plan project_dir model (max_workers : Z)
    issue_lookup :
  ∀ st h,
    execute_tiers str_lower (with_worker_reply f env) rounds plan project_dir
      model max_workers issue_lookup st h
    = execute_tiers str_lower env rounds plan project_dir model max_workers
        issue_lookup st h.
Proof.
  induction rounds as [|T rounds IH]; intros st h; [done|].
  cbn [execute_tiers].
  destruct (Scheduler.get_ready_issues plan (completed st))
    as [[|iid ready] [current_tier|]]; try done.
  destruct (omap _ _) as [|issue tier_issues]; [apply IH|].
  apply bind_ext.
  { unfold _run_tier_sequential.
    destruct (_ || _); apply run_tier_parallel_exit_codes. }
  intros [pr results] h1. apply bind_ext; [apply merge_phase_exit_codes|].
  intros [st1 m1] h2. apply IH.
Qed.

Lemma retry_loop_exit_codes project_dir model todo :
  ∀ st h,
    retry_loop str_lower (with_worker_reply f env) project_dir model todo st h
    = retry_loop str_lower env project_dir model todo st h.
Proof.
  induction todo as [|issue todo IH]; intros st h; [done|].
  cbn [retry_loop]. apply bind_ext; [|intros; apply IH].
  unfold retry_step. apply bind_ext; [done|]. intros iid h1.
  apply bind_ext; [apply run_tier_parallel_exit_codes|]. by intros [pr res] h2.
Qed.

(** X21.  The exit code of a worker process decides nothing.  In two worlds
    that differ in nothing but the exit codes the workers end with,
    the whole run is the same: the same commands in the same order,
    the same outcome and the same plan file. *)
Theorem run_parallel_agent_exit_codes (splitlines : string → list string)
    (path_text : string → string) (issues : list (gmap string string))
    (project_dir model : string) (max_workers : Z) (now : string)
    (fs : gmap string json) (t : LinearStatus.Tracker) (h : list event) :
  run_parallel_agent str_lower (with_worker_reply f env) splitlines path_text
    issues project_dir model max_workers now fs t h
  = run_parallel_agent str_lower env splitlines path_text issues project_dir
      model max_workers now fs t h.
Proof.
  unfold run_parallel_agent. case_bool_decide; [reflexivity|].
  apply bind_ext; [reflexivity|]. intros _ h1.
  destruct issues as [|issue0 issues0]; [reflexivity|].
  apply bind_ext; [reflexivity|]. intros is_repo h2.
  destruct is_repo; cbn [negb]; [|reflexivity].
  apply bind_ext; [reflexivity|]. intros [plan fs1] h3.
  apply bind_ext; [reflexivity|]. intros issue_lookup h4.
  apply bind_ext; [reflexivity|]. intros ids h5.
  apply bind_ext; [reflexivity|]. intros [[finished cancelled] status_map] h6.
  apply bind_ext; [reflexivity|]. intros _ h7.
  cbv zeta. case_bool_decide; [reflexivity|].
  apply bind_ext; [apply execute_tiers_exit_codes|]. intros st h8.
  apply bind_ext; [|reflexivity].
  unfold sequential_retry. destruct (requeued st); [reflexivity|].
  apply retry_loop_exit_codes.
Qed.

End ExitCodes.
(** *** A run in which nothing goes wrong *)

Lemma dict_set_values {V} (P : V → Prop) (k : string) (v : V)
    (d : list (string * V)) :
  Forall P d.*2 → P v → Forall P (dict_set k v d).*2.
Proof.
  intros Hd Hv. unfold dict_set. case_bool_decide.
  - rewrite <- list_fmap_compose. apply Forall_fmap.
    rewrite Forall_fmap in Hd. eapply Forall_impl; [done|].
    intros [k' v'] Hv'. cbn in *. by case_bool_decide.
  - rewrite fmap_app. apply Forall_app. split; [done|]. by constructor.
Qed.

Lemma mergeable_result_branch iid res :
  mergeable res → ∃ br, result_branch iid res = ok br.
Proof.
  intros [_ Hbr]. unfold result_branch.
  destruct (res !! "branch") as [[]|]; by eauto.
Qed.

Lemma elem_of_concat {A} (x : A) (ls : list (list A)) :
  x ∈ concat ls ↔ ∃ l, x ∈ l ∧ l ∈ ls.
Proof.
  induction ls as [|l ls IH]; cbn.
  - rewrite elem_of_nil. split; [done|]. intros (l & _ & Hl).
    by apply elem_of_nil in Hl.
  - rewrite elem_of_app, IH. split.
    + intros [Hx|(l' & Hx & Hl')]; [exists l; split; [done|by left]|].
      exists l'. split; [done|by right].
    + intros (l' & Hx & [->|Hl']%elem_of_cons); [by left|].
      right. by exists l'.
Qed.

Lemma size_list_to_set_le (l : list string) :
  (size (list_to_set l : gset string) ≤ length l)%nat.
Proof.
  induction l as [|x l IH]; [done|]. cbn.
  destruct (decide (x ∈ (list_to_set l : gset string))).
  - assert ({[ x ]} ∪ list_to_set l = (list_to_set l : gset string)) as ->
      by set_solver. lia.
  - rewrite size_union by set_solver. rewrite size_singleton. lia.
Qed.

Lemma lookup_issue_ids (issue_lookup : gmap string (gmap string string))
    (ids : list string) :
  map_Forall (λ iid issue, issue !! "id" = Some iid) issue_lookup →
  (∀ iid, iid ∈ ids → is_Some (issue_lookup !! iid)) →
  Scheduler.issue_id_list (omap (λ iid, issue_lookup !! iid) ids) = ids ∧
  ∀ issue, issue ∈ omap (λ iid, issue_lookup !! iid) ids →
           is_Some (issue !! "id").
Proof.
  intros Hkeyed. induction ids as [|iid ids IH]; intros Hall.
  { split; [done|]. intros issue Hin. by apply elem_of_nil in Hin. }
  destruct (Hall iid) as [issue Hissue]; [by left|].
  destruct IH as [IH1 IH2]; [intros ??; apply Hall; by right|].
  pose proof (Hkeyed _ _ Hissue) as Hid. cbn in Hid.
  cbn. rewrite Hissue. cbn. unfold Scheduler.issue_id_list in *. cbn.
  rewrite Hid. cbn. split; [by rewrite IH1|].
  intros issue' [Heq|Hin]%elem_of_cons; [subst; by eexists|by apply IH2].
Qed.

Lemma make_issue_lookup_total (issues : list (gmap string string)) :
  (∀ issue, issue ∈ issues → is_Some (issue !! "id")) →
  ∀ acc,
    map_Forall (λ iid issue, issue !! "id" = Some iid) acc →
    ∃ issue_lookup,
      make_issue_lookup issues acc = ok issue_lookup ∧
      map_Forall (λ iid issue, issue !! "id" = Some iid) issue_lookup ∧
      (∀ iid, is_Some (acc !! iid) → is_Some (issue_lookup !! iid)) ∧
      ∀ iid, iid ∈ Scheduler.issue_id_list issues →
             is_Some (issue_lookup !! iid).
Proof.
  induction issues as [|issue issues IH]; intros Hids acc Hkeyed.
  { exists acc. split_and!; [done..|]. intros iid Hin.
    by apply elem_of_nil in Hin. }
  destruct (Hids issue) as [iid Hid]; [by left|].
  destruct (IH (λ i Hi, Hids i (list_elem_of_further _ _ _ Hi))
              (<[iid := issue]> acc))
    as (lookup & Hrun & Hkeyed' & Hacc & Hall);
    [by apply map_Forall_insert_2|].
  exists lookup. split_and!.
  - cbn. unfold getitem. by rewrite Hid.
  - done.
  - intros iid' Hsome. apply Hacc.
    destruct (decide (iid = iid')) as [->|];
      [by rewrite lookup_insert_eq|by rewrite lookup_insert_ne].
  - intros iid'.
    replace (Scheduler.issue_id_list (issue :: issues))
      with (iid :: Scheduler.issue_id_list issues)
      by (unfold Scheduler.issue_id_list; cbn; by rewrite Hid).
    intros [->|Hin]%elem_of_cons; [|by apply Hall].
    apply Hacc. by rewrite lookup_insert_eq.
Qed.

Lemma traverse_issue_ids (issues : list (gmap string string)) :
  (∀ issue, issue ∈ issues → is_Some (issue !! "id")) →
  traverse (λ issue : gmap string string, getitem issue "id") issues
  = ok (Scheduler.issue_id_list issues).
Proof.
  induction issues as [|issue issues IH]; intros Hids; [done|].
  destruct (Hids issue) as [iid Hid]; [by left|].
  cbn. unfold getitem, Scheduler.issue_id_list in *. rewrite Hid. cbn.
  rewrite IH; [done|]. intros ??. apply Hids. by right.
Qed.

Section NothingFails.

Variable str_lower : string → string.
Variable env : Env.
Variable project_dir model : string.

Hypothesis works : everything_works env project_dir.

Lemma git_spawns_here :
  ∀ h args, ∃ r, git_reply env h project_dir args = ok r.
Proof.
  intros h args. destruct works as (Hgit & _).
  destruct (Hgit h args) as (out & err & ->). by eexists.
Qed.

Lemma worktree_add_works :
  ∀ h br wt rc out err,
    git_reply env h project_dir ["worktree"; "add"; "-b"; br; wt]
      = ok (rc, out, err) → rc = 0.
Proof.
  intros h br wt rc out err. destruct works as (Hgit & _).
  destruct (Hgit h ["worktree"; "add"; "-b"; br; wt]) as (out' & err' & ->).
  by intros [= <- _ _].
Qed.

Lemma collect_wave_mergeable results_dir (wave_start : Z)
    (pairs : list (gmap string string * result Z)) :
  Forall (λ p, caught_exception p.2 = None) pairs →
  ∀ i pr all_results h pr' all_results' h',
    Forall mergeable all_results.*2 →
    collect_wave env project_dir results_dir wave_start i pairs pr
      all_results h = (ok (pr', all_results'), h') →
    Forall mergeable all_results'.*2.
Proof.
  induction 1 as [|[issue wr] pairs Hwr _ IH];
    intros i pr all_results h pr' all_results' h' Hgood.
  { unfold_M. cbn. by intros [= _ <- _]. }
  cbn [collect_wave]. unfold_M. cbn in Hwr. rewrite Hwr.
  destruct (getitem issue "id") as [e|iid]; [done|].
  unfold load_worker_result, request.
  destruct works as (_ & _ & Hres).
  destruct (Hres h (path_join results_dir (iid +:+ ".json")))
    as (res & -> & Hmergeable).
  assert (res ≠ ∅) as Hne.
  { intros ->. by destruct Hmergeable as [? _]. }
  rewrite bool_decide_eq_false_2 by done.
  destruct (Merge.remove_worktree _ _ _ _) as [[e|b] h1]; [done|].
  apply IH. by apply dict_set_values.
Qed.

Lemma zip_no_exceptions (wave : list (gmap string string))
    (tasks : list spawn_task) (h : list event) :
  Forall (λ p : gmap string string * result Z, caught_exception p.2 = None)
    (zip wave (worker_reply env h <$> tasks)).
Proof.
  destruct works as (_ & Hworkers & _).
  revert tasks. induction wave as [|issue wave IH]; intros [|task tasks];
    cbn; constructor; [apply Hworkers|apply IH].
Qed.

Lemma run_waves_mergeable tier_issues results_dir (max_workers : Z)
    (starts : list Z) :
  (∀ issue, issue ∈ tier_issues → is_Some (issue !! "id")) →
  ∀ pr all_results h pr' all_results' h',
    Forall mergeable all_results.*2 →
    run_waves env tier_issues project_dir model results_dir max_workers starts
      pr all_results h = (ok (pr', all_results'), h') →
    Forall mergeable all_results'.*2.
Proof.
  intros Hids.
  induction starts as [|ws starts IH];
    intros pr all_results h pr' all_results' h' Hgood.
  { unfold_M. cbn. by intros [= _ <- _]. }
  set (wave := slice tier_issues ws max_workers).
  assert (∀ issue, issue ∈ wave → is_Some (issue !! "id")) as Hwave.
  { intros issue Hin. apply Hids. unfold wave, slice in Hin.
    by apply subseteq_take, subseteq_drop in Hin. }
  cbn [run_waves]. fold wave. unfold_M.
  destruct (setup_wave_works env project_dir model git_spawns_here
              worktree_add_works results_dir ws wave Hwave 0 pr all_results
              [] h) as (pr1 & tasks & new1 & -> & _ & _).
  cbn [app]. destruct tasks as [|task tasks]; [by apply IH|].
  unfold gather, request.
  destruct (collect_wave _ _ _ _ _ _ _ _ _) as [[e|[pr2 res2]] h2] eqn:Hcollect;
    [done|].
  apply IH. eapply collect_wave_mergeable; [|done..].
  apply zip_no_exceptions.
Qed.

(** A tier in which nothing goes wrong: the results hold a descriptor
    that can be merged for each of its issues, and for no other. *)
Lemma run_tier_parallel_mergeable (tier_issues : list (gmap string string))
    (max_workers : Z) (pr : ParallelProgress) (h : list event) :
  1 ≤ max_workers →
  (∀ issue, issue ∈ tier_issues → is_Some (issue !! "id")) →
  ∃ pr' results h',
    _run_tier_parallel env tier_issues project_dir model max_workers pr h
    = (ok (pr', results), h') ∧
    same_sets pr pr' ∧
    (∀ iid, iid ∈ results.*1 ↔ iid ∈ Scheduler.issue_id_list tier_issues) ∧
    Forall mergeable results.*2.
Proof.
  intros Hmw Hids.
  destruct (_run_tier_parallel env tier_issues project_dir model max_workers
              pr h) as [r h'] eqn:Hrun.
  pose proof (run_tier_parallel_any env tier_issues project_dir model
                max_workers pr _ _ _ Hrun) as [_ Hsets].
  revert Hrun. unfold _run_tier_parallel, Merge.mkdir_parents. unfold_M.
  destruct (waves_partition tier_issues max_workers Hmw)
    as (starts & -> & _ & Hconcat & _).
  destruct (run_waves_works env project_dir model git_spawns_here
              worktree_add_works tier_issues
              (Merge.get_results_dir project_dir) max_workers starts Hids pr []
              (h ++ [EvMkdir (Merge.get_results_dir project_dir)]))
    as (pr' & results & new & Hrun & Hkeys & _).
  rewrite Hrun. intros [= <- <-].
  rewrite Hconcat in Hkeys. cbn [fmap list_fmap] in Hkeys.
  destruct (foldl_add_key (Scheduler.issue_id_list tier_issues) [])
    as (_ & Hin & _); [constructor|].
  exists pr', results, ((h ++ [EvMkdir (Merge.get_results_dir project_dir)]) ++ new).
  split_and!; [done|by apply (Hsets (pr', results))| |].
  - intros iid. rewrite Hkeys, Hin, elem_of_nil. naive_solver.
  - eapply run_waves_mergeable; [done| |exact Hrun]. constructor.
Qed.

Lemma merge_phase_mergeable (issue_lookup : gmap string (gmap string string))
    (results : list (string * gmap string json)) :
  Forall mergeable results.*2 →
  ∀ st m h, ∃ st' m' h',
    merge_phase str_lower env project_dir issue_lookup results st m h
    = (ok (st', m'), h') ∧
    completed st' = list_to_set results.*1 ∪ completed st ∧
    completed_issues (progress st')
    = list_to_set results.*1 ∪ completed_issues (progress st) ∧
    failed_issues (progress st') = failed_issues (progress st) ∧
    requeued_issues (progress st') = requeued_issues (progress st) ∧
    requeued st' = requeued st.
Proof.
  induction results as [|[iid res] results IH]; intros Hgood st m h.
  { exists st, m, h. cbn. split_and!; [done|set_solver..|done|done|done]. }
  apply Forall_cons in Hgood as [Hres Hgood]. cbn [snd] in Hres.
  cbn [merge_phase merge_step]. unfold_M.
  destruct Hres as [Hsuccess Hbranch]. rewrite Hsuccess.
  destruct (mergeable_result_branch iid res (conj Hsuccess Hbranch))
    as [br ->].
  destruct works as (Hgit & _).
  unfold Merge.merge_branch, Merge._run_git. unfold_M.
  destruct (Hgit h (Merge.merge_args br)) as (out & err & ->).
  rewrite bool_decide_eq_true_2 by done. cbn [Merge.success].
  rewrite MergeFacts.delete_branch_total by apply git_spawns_here.
  edestruct (IH Hgood) as (st' & m' & h' & -> & Hc & Hp & Hf & Hr & Hq).
  exists st', m', h'. cbn in *.
  split_and!; [done| | |done..].
  - rewrite Hc. set_solver.
  - rewrite Hp. destruct (current_tier (progress st)); cbn; set_solver.
Qed.

(** The loop over the tiers when nothing goes wrong: every round
    completes the first tier that has work left, so as many rounds as
    there are tiers complete them all. *)
Lemma execute_tiers_all (plan : Scheduler.ParallelPlan) (max_workers : Z)
    (issue_lookup : gmap string (gmap string string)) :
  1 ≤ max_workers →
  map_Forall (λ iid issue, issue !! "id" = Some iid) issue_lookup →
  (∀ T iid, T ∈ Scheduler.tiers plan → iid ∈ Scheduler.issue_ids T →
            is_Some (issue_lookup !! iid)) →
  ∀ rounds (k : nat) st h,
    (length (Scheduler.tiers plan) ≤ k + length rounds)%nat →
    (∀ (i : nat) T, Scheduler.tiers plan !! i = Some T → (i < k)%nat →
       ∀ iid, iid ∈ Scheduler.issue_ids T → iid ∈ completed st) →
    ∃ st' h',
      execute_tiers str_lower env rounds plan project_dir model max_workers
        issue_lookup st h = (ok st', h') ∧
      (∀ T iid, T ∈ Scheduler.tiers plan → iid ∈ Scheduler.issue_ids T →
                iid ∈ completed st') ∧
      completed st ⊆ completed st' ∧
      (completed_issues (progress st) = completed st →
       completed_issues (progress st') = completed st') ∧
      failed_issues (progress st') = failed_issues (progress st) ∧
      requeued_issues (progress st') = requeued_issues (progress st) ∧
      requeued st' = requeued st.
Proof.
  intros Hmw Hkeyed Hcover.
  induction rounds as [|T0 rounds IH]; intros k st h Hlen Hinv.
  { exists st, h. split_and!; try done.
    intros T iid [i Hi]%list_elem_of_lookup. apply (Hinv i T Hi).
    apply lookup_lt_Some in Hi. cbn in Hlen. lia. }
  cbn [execute_tiers]. unfold Scheduler.get_ready_issues.
  pose proof (SchedulerFacts.get_ready_tiers_spec (Scheduler.tiers plan)
                (completed st)) as Hspec.
  destruct (Scheduler.get_ready_tiers (Scheduler.tiers plan) (completed st))
    as [ready [T|]].
  2:{ destruct Hspec as [-> Hall]. exists st, h.
      split_and!; [done| |done..]. intros T iid HT. by apply Hall. }
  destruct Hspec as (before & after & Htiers & Hbefore & Hready & Hne).
  destruct ready as [|r rs]; [done|]. cbv zeta. rewrite <- Hready.
  assert (T ∈ Scheduler.tiers plan) as HT by (rewrite Htiers; set_solver).
  destruct (lookup_issue_ids issue_lookup (r :: rs) Hkeyed) as [Hidl Hsome].
  { intros iid Hin. apply (Hcover T); [done|]. rewrite Hready in Hin.
    by apply list_elem_of_filter in Hin as [_ ?]. }
  destruct (omap (λ iid, issue_lookup !! iid) (r :: rs))
    as [|ti tis] eqn:Hissues; [done|].
  unfold_M.
  set (pr0 := set_current_tier _ (progress st)).
  set (run := if _ || _ then _ else _).
  assert (∃ pr' results h1,
            run h = (ok (pr', results), h1) ∧ same_sets pr0 pr' ∧
            (∀ iid, iid ∈ results.*1 ↔ iid ∈ r :: rs) ∧
            Forall mergeable results.*2)
    as (pr' & results & h1 & -> & Hsets & Hkeys & Hgood).
  { rewrite <- Hidl. unfold run.
    destruct (_ || _); [unfold _run_tier_sequential|];
      apply run_tier_parallel_mergeable; first [lia|done]. }
  destruct (merge_phase_mergeable issue_lookup results Hgood
              (mkCoord (completed st) pr' (requeued st)) [] h1)
    as (st2 & m2 & h2 & -> & Hc & Hp & Hf & Hr & Hq).
  cbn in Hc, Hp, Hf, Hr, Hq. destruct Hsets as (Hsc & Hsf & Hsr).
  cbn in Hsc, Hsf, Hsr.
  assert (length before ≥ k)%nat as Hk.
  { destruct (decide (length before < k)%nat) as [Hlt|]; [|lia].
    assert (Scheduler.tiers plan !! length before = Some T) as Hmid
      by (rewrite Htiers; apply list_lookup_middle; done).
    assert (filter (λ iid, iid ∉ completed st) (Scheduler.issue_ids T) = [])
      as Hnil.
    { apply SchedulerFacts.filter_not_completed_nil. by apply (Hinv _ _ Hmid). }
    by rewrite <- Hready in Hnil. }
  destruct (IH (S (length before)) (with_progress incr_tiers_completed st2) h2)
    as (st' & h' & -> & Hall & Hsub & Hprog & Hf' & Hr' & Hq').
  { apply (f_equal length) in Htiers. rewrite length_app in Htiers.
    cbn in Htiers, Hlen. lia. }
  { intros i T' Hi Hlt iid Hin. cbn. rewrite Hc. apply elem_of_union.
    destruct (decide (i < length before)%nat) as [Hlt'|].
    - right. rewrite Htiers, lookup_app_l in Hi by done.
      apply (Hbefore T'); [|done]. by eapply list_elem_of_lookup_2.
    - assert (i = length before) as -> by lia.
      rewrite Htiers, list_lookup_middle in Hi by done.
      injection Hi as <-.
      destruct (decide (iid ∈ completed st)) as [|Hout]; [by right|].
      left. apply elem_of_list_to_set, Hkeys. rewrite Hready.
      by apply list_elem_of_filter. }
  cbn in Hsub, Hprog, Hf', Hr', Hq'.
  exists st', h'. split_and!; [done|done| | |congruence..].
  - etrans; [|done]. rewrite Hc. set_solver.
  - intros Heq. apply Hprog. rewrite Hp, Hc, <- Hsc. cbn. by rewrite Heq.
Qed.

Variable splitlines : string → list string.
Variable path_text : string → string.

Lemma cleanup_worktrees_total (h : list event) :
  ∃ h', Merge.cleanup_worktrees env splitlines path_text project_dir h
        = (ok (), h').
Proof.
  unfold Merge.cleanup_worktrees, Merge.path_exists, Merge._run_git,
    Merge.try_rmtree.
  unfold_M. destruct (exists_reply env h _); cbn [negb]; [|by eexists].
  destruct (git_spawns_here (h ++ [EvExists (Merge.get_workers_dir project_dir)])
              ["worktree"; "list"; "--porcelain"]) as [[[rc out] err] ->].
  set (h1 := (h ++ _) ++ _).
  assert (∃ h2,
            (if bool_decide (rc = 0)
             then Merge.remove_listed env path_text project_dir (splitlines out)
             else (λ h, (ok (), h)) : M ()) h1 = (ok (), h2)) as [h2 ->].
  { case_bool_decide; [|by eexists].
    destruct (MergeFacts.remove_listed_total env path_text project_dir
                (splitlines out) h1 git_spawns_here) as [new ->].
    by eexists. }
  destruct (git_spawns_here h2 ["worktree"; "prune"]) as [r ->].
  by eexists.
Qed.

(** X22.  When nothing goes wrong, everything gets done.  In a world in
    which every git command exits with 0, no worker is handed back as
    an exception and every result file reports a success that can be
    merged, a first run (no plan file yet) with a valid bound on the
    workers, over issues that all carry an identifier and with a
    tracker whose sweep returns and whose state names are texts (so
    that the status summary can be printed), returns; it does not stop
    at the repository check; when it stops because all is done, the
    tracker reported every issue as closed; and otherwise it ends with
    every issue
    completed, in the local set and in the progress model, with
    nothing failed and nothing left re-queued. *)
Theorem run_parallel_agent_completes (issues : list (gmap string string))
    (max_workers : Z) (now : string) (fs : gmap string json)
    (t : LinearStatus.Tracker) (h : list event)
    (finished cancelled : gset string)
    (status_map : gmap string LinearStatus.IssueStatus) :
  1 ≤ max_workers ≤ 5 →
  (∀ issue, issue ∈ issues → is_Some (issue !! "id")) →
  Scheduler.load_plan project_dir fs = ok None →
  LinearStatus.check_issue_statuses t (Scheduler.issue_id_list issues)
    = ok (finished, cancelled, status_map) →
  (∀ k iid status,
     Scheduler.issue_id_list issues !! k = Some iid →
     LinearStatus.fetch_issue_status t k iid = ok status →
     ∃ s, LinearStatus.state_name status = JStr s) →
  ∃ outcome fs' h',
    run_parallel_agent str_lower env splitlines path_text issues project_dir
      model max_workers now fs t h = (ok (outcome, fs'), h') ∧
    match outcome with
    | NoIssues => issues = []
    | NotARepository => False
    | AllDone =>
        ∀ iid, iid ∈ Scheduler.issue_id_list issues →
               iid ∈ finished ∪ cancelled
    | Finished st =>
        (∀ iid, iid ∈ Scheduler.issue_id_list issues →
                iid ∈ completed st ∧ iid ∈ completed_issues (progress st)) ∧
        failed_issues (progress st) = ∅ ∧
        requeued_issues (progress st) = ∅ ∧
        requeued st = []
    end.
Proof.
  intros Hmw Hids Hnone Hsweep Hnames. unfold run_parallel_agent.
  rewrite bool_decide_eq_false_2 by lia.
  unfold Merge.mkdir_parents, Merge.ensure_git_initialized, Merge._run_git.
  unfold_M. destruct issues as [|issue0 issues0].
  { by eexists NoIssues, _, _. }
  remember (issue0 :: issues0) as issues eqn:Hissues in *. clear Hissues.
  pose proof works as (Hgit & _).
  destruct (Hgit (h ++ [EvMkdir project_dir]) ["rev-parse"; "--git-dir"])
    as (out & err & ->).
  rewrite bool_decide_eq_true_2 by done. cbn [negb].
  destruct (obtain_plan str_lower issues max_workers now project_dir fs)
    as [e|[plan fs1]] eqn:Hplan.
  { exfalso. unfold obtain_plan in Hplan. rewrite Hnone in Hplan.
    destruct (SchedulerFacts.build_plan_ok str_lower issues max_workers now
                Hids) as (g & _ & Hbuild).
    cbn in Hplan. by rewrite Hbuild in Hplan. }
  assert (Scheduler.build_plan str_lower issues max_workers now = ok plan)
    as Hbuild.
  { unfold obtain_plan in Hplan. rewrite Hnone in Hplan. cbn in Hplan.
    destruct (Scheduler.build_plan str_lower issues max_workers now);
      [done|]. cbn in Hplan. congruence. }
  apply SchedulerFacts.build_plan_total in Hbuild as (Htotal & Hperm & Hlen).
  destruct (make_issue_lookup_total issues Hids ∅)
    as (issue_lookup & -> & Hkeyed & _ & Hcover); [apply map_Forall_empty|].
  rewrite (traverse_issue_ids issues Hids), Hsweep.
  rewrite (LinearStatusFacts.sweep_summary t _ _ _ _ Hnames Hsweep).
  set (closed := finished ∪ cancelled).
  case_bool_decide as Hremaining.
  { eexists AllDone, _, _. split; [done|]. intros iid Hin.
    apply LinearStatusFacts.check_issue_statuses_sets in Hsweep as [Hc Hx].
    assert (closed ⊆ list_to_set (Scheduler.issue_id_list issues)) as Hsub.
    { intros iid' [(k & st & Hk & _)%Hc|(k & st & Hk & _)%Hx]%elem_of_union;
        apply elem_of_list_to_set; by eapply list_elem_of_lookup_2. }
    pose proof (size_list_to_set_le (Scheduler.issue_id_list issues)) as Hle.
    apply (set_subseteq_size_eq (C := gset string)) in Hsub; [|lia].
    rewrite Hsub. by apply elem_of_list_to_set. }
  destruct (execute_tiers_all plan max_workers issue_lookup ltac:(lia) Hkeyed)
    with (rounds := Scheduler.tiers plan) (k := 0%nat)
         (st := initial_state plan closed)
         (h := (h ++ [EvMkdir project_dir])
                 ++ [EvGit project_dir ["rev-parse"; "--git-dir"]])
    as (st1 & h1 & -> & Hall & Hsub & Hprog & Hf & Hr & Hq).
  { intros T iid HT Hin. apply Hcover. rewrite <- Hperm.
    apply elem_of_concat. exists (Scheduler.issue_ids T).
    split; [done|]. by apply list_elem_of_fmap_2. }
  { lia. }
  { intros i T _ Hlt. lia. }
  cbn in Hsub, Hprog, Hf, Hr, Hq.
  unfold sequential_retry. rewrite Hq. unfold_M.
  destruct (cleanup_worktrees_total h1) as [h2 ->].
  eexists (Finished st1), _, _. split; [done|]. split_and!; [|done..].
  intros iid Hin. rewrite <- Hperm in Hin.
  apply elem_of_concat in Hin as (ids & Hin & Hids').
  apply list_elem_of_fmap in Hids' as (T & -> & HT).
  pose proof (Hall T iid HT Hin) as Hdone. split; [done|].
  by rewrite Hprog.
Qed.

End NothingFails.

(** *** The scenarios *)

(** S4: five issues with at most two workers run in waves of 2, 2 and
    1, with worker indices 0, 1, then 2, 3, then 4. *)
Example s4_waves :
  waves_started
    (_run_tier_parallel Scenarios.working_env Scenarios.s4_issues "proj"
       "model" 2 (progress Scenarios.s3_start) []).2
  = [[0; 1]; [2; 3]; [4]].
Proof. vm_compute. reflexivity. Qed.

(** When the worktree of the first issue of a wave cannot be created,
    the outcomes of the workers that were started are paired with the
    issues of the wave from its head: the results of the wave hold an
    entry for F-1 and none for F-2, whose worker ran. *)
Example worktree_failure_in_wave :
  (λ out, out.2.*1) <$>
    (_run_tier_parallel Scenarios.no_worktree_for_f1
       (take 2 Scenarios.s4_issues) "proj" "model" 2
       (progress Scenarios.s3_start) []).1
  = ok ["F-1"].
Proof. vm_compute. reflexivity. Qed.

(** C6.  The merge phase passes over an issue of the wave whose worker
    reported success.  Two issues, F-1 and F-2, make up one tier; the
    worktree of F-1 cannot be created, the worker of F-2 is started,
    alone in its wave, and writes a result file that reports success.
    The run goes through all its phases, and at its end F-2 is in no
    set: not completed, although its worker reported success, and
    neither failed nor re-queued; no merge was attempted and the
    result file of F-2 was never read.  Pairing the issues of the wave
    with the outcomes of the workers that were started, from the head
    of both, gave the outcome of the worker of F-2 to F-1, whose result
    file does not exist: F-1 is failed, and the results of the tier
    hold no entry for F-2. *)
Theorem merge_phase_misses_worker :
  ∃ st fs' h',
    run_parallel_agent lower_ascii Scenarios.no_worktree_for_f1 lines_lf
      (λ p, p) Scenarios.f_issues "proj" "model" 2
      "2026-01-01T00:00:00+00:00" ∅ Scenarios.s2_tracker []
    = (ok (Finished st, fs'), h') ∧
    waves_awaited h' = [[("F-2", 1)]] ∧
    result_reply Scenarios.no_worktree_for_f1 h'
      "proj/.workers/results/F-2.json" = Some Scenarios.success_descriptor ∧
    reported_success Scenarios.success_descriptor = true ∧
    (EvLoadResult "proj/.workers/results/F-2.json" ∉ h') ∧
    EvLoadResult "proj/.workers/results/F-1.json" ∈ h' ∧
    merges_attempted h' = [] ∧
    completed st = ∅ ∧
    completed_issues (progress st) = ∅ ∧
    failed_issues (progress st) = {[ "F-1" ]} ∧
    requeued_issues (progress st) = ∅ ∧
    requeued st = [] ∧
    (λ out, out.2.*1) <$>
      (_run_tier_parallel Scenarios.no_worktree_for_f1 Scenarios.f_issues
         "proj" "model" 2 (progress Scenarios.s3_start) []).1
    = ok ["F-1"].
Proof.
  eexists _, _, _. split; [vm_compute; reflexivity|].
  split_and!; try (vm_compute; reflexivity).
  - intros Hin. by repeat (apply elem_of_cons in Hin as [?|Hin]; [done|]);
      apply elem_of_nil in Hin.
  - do 12 right. by left.
Qed.

Lemma run_tier_waves_witness :
  ∃ pr' results new,
    _run_tier_parallel Scenarios.working_env Scenarios.s4_issues "proj"
      "model" 2 (progress Scenarios.s3_start) []
    = (ok (pr', results), new) ∧
    waves_awaited new
    = [[("F-1", 0); ("F-2", 1)]; [("F-3", 2); ("F-4", 3)]; [("F-5", 4)]].
Proof.
  destruct (run_tier_waves Scenarios.working_env Scenarios.s4_issues 2)
    as (starts & Hrange & _ & _ & _ & _ & Hrun & _); [lia|].
  destruct (Hrun "proj" "model" (progress Scenarios.s3_start) [])
    as (pr' & results & new & Hrun' & Hawaited).
  - intros h' args. by eexists.
  - by intros h' br wt rc out err [= <- _ _].
  - apply Forall_forall. repeat constructor; by eexists.
  - exists pr', results, new. split; [exact Hrun'|].
    rewrite Hawaited. vm_compute in Hrange. injection Hrange as <-.
    vm_compute. reflexivity.
Defined.

(** S3: the merge of T-X meets a conflict, so T-X is re-queued; its
    retry merges, so T-X ends up completed and no longer re-queued. *)
Example s3_conflict_and_retry :
  ∃ st1 m1 h1 st2 h2,
    merge_phase lower_ascii Scenarios.s3_env "proj"
      {[ "T-X" := Scenarios.issue_tx ]}
      [("T-X", Scenarios.success_descriptor)] Scenarios.s3_start [] []
      = (ok (st1, m1), h1) ∧
    requeued_issues (progress st1) = {[ "T-X" ]} ∧
    requeued st1 = [Scenarios.issue_tx] ∧
    completed st1 = ∅ ∧
    sequential_retry lower_ascii Scenarios.s3_env "proj" "model" st1 h1
      = (ok st2, h2) ∧
    completed st2 = {[ "T-X" ]} ∧
    completed_issues (progress st2) = {[ "T-X" ]} ∧
    requeued_issues (progress st2) = ∅.
Proof.
  eexists _, _, _, _, _. split; [vm_compute; reflexivity|].
  split_and!; try (vm_compute; reflexivity).
Qed.

Lemma merge_phase_and_retry_witness :
  ∃ st' m' h',
    merge_phase lower_ascii Scenarios.s3_env "proj"
      {[ "T-X" := Scenarios.issue_tx ]}
      [("T-X", Scenarios.success_descriptor)] Scenarios.s3_start [] []
      = (ok (st', m'), h') ∧
    "T-X" ∈ requeued_issues (progress st').
Proof.
  destruct (merge_phase_and_retry lower_ascii Scenarios.s3_env "proj" "model"
              {[ "T-X" := Scenarios.issue_tx ]}) as (Hphase & _ & _).
  destruct (merge_phase lower_ascii Scenarios.s3_env "proj"
              {[ "T-X" := Scenarios.issue_tx ]}
              [("T-X", Scenarios.success_descriptor)] Scenarios.s3_start [] [])
    as [[e|[st' m']] h'] eqn:Hrun; [by vm_compute in Hrun|].
  exists st', m', h'. split; [done|].
  destruct (Hphase [] "T-X" Scenarios.success_descriptor [] Scenarios.s3_start
              [] [] st' m' h' Hrun)
    as (st1 & m1 & h1 & st2 & m2 & h2 & Hbefore & _ & _ & Hgrows & Hcase).
  injection Hbefore as <- <- <-.
  change (reported_success Scenarios.success_descriptor) with true in Hcase.
  destruct Hcase as (br & mr & hm & Hbr & Hmerge & Hcase).
  injection Hbr as <-. vm_compute in Hmerge. injection Hmerge as <- <-.
  cbn in Hcase. destruct Hcase as (_ & Hin & _).
  destruct Hgrows as (_ & _ & _ & Hsub & _). by apply Hsub.
Defined.

Lemma execute_tiers_barrier_witness :
  ∃ st' new,
    execute_tiers lower_ascii Scenarios.working_env
      (Scheduler.tiers Scenarios.s1_plan) Scenarios.s1_plan "proj" "model" 2
      Scenarios.s1_lookup (initial_state Scenarios.s1_plan {[ "T-1" ]}) []
    = (ok st', new) ∧
    Forall (tier_barrier Scenarios.s1_plan {[ "T-1" ]} (completed st')) new.
Proof.
  assert (∃ st' h',
            execute_tiers lower_ascii Scenarios.working_env
              (Scheduler.tiers Scenarios.s1_plan) Scenarios.s1_plan "proj"
              "model" 2 Scenarios.s1_lookup
              (initial_state Scenarios.s1_plan {[ "T-1" ]}) []
            = (ok st', h')) as (st' & h' & Hrun).
  { eexists _, _. vm_compute. reflexivity. }
  destruct (execute_tiers_barrier lower_ascii Scenarios.working_env
              (Scheduler.tiers Scenarios.s1_plan) Scenarios.s1_plan "proj"
              "model" 2 Scenarios.s1_lookup ltac:(lia) ltac:(compute_done)
              _ _ _ _ Hrun) as (new & Hh' & Hnew).
  exists st', new. split; [|exact Hnew].
  rewrite Hrun, Hh'. reflexivity.
Defined.

Lemma obtain_plan_reuse_witness :
  obtain_plan lower_ascii [] 5 "later" "proj"
    (Scheduler.save_plan Scenarios.s1_plan "proj" ∅).2
  = ok (Scenarios.s1_plan, (Scheduler.save_plan Scenarios.s1_plan "proj" ∅).2).
Proof.
  apply (obtain_plan_reuse lower_ascii Scenarios.s1_issues 2
           "2026-01-01T00:00:00+00:00" "proj" ∅).
  vm_compute. reflexivity.
Defined.

Lemma run_parallel_agent_completed_witness :
  ∃ st fs' h',
    run_parallel_agent lower_ascii Scenarios.working_env lines_lf (λ p, p)
      Scenarios.s1_issues "proj" "model" 2 "2026-01-01T00:00:00+00:00" ∅
      Scenarios.s2_tracker [] = (ok (Finished st, fs'), h') ∧
    "T-1" ∈ completed st ∧ "T-4" ∈ completed st.
Proof.
  assert (∃ st fs' h',
            run_parallel_agent lower_ascii Scenarios.working_env lines_lf
              (λ p, p) Scenarios.s1_issues "proj" "model" 2
              "2026-01-01T00:00:00+00:00" ∅ Scenarios.s2_tracker []
            = (ok (Finished st, fs'), h')) as (st & fs' & h' & Hrun).
  { eexists _, _, _. vm_compute. reflexivity. }
  destruct (run_parallel_agent_completed lower_ascii Scenarios.working_env
              lines_lf (λ p, p) _ _ _ _ _ _ _ _ _ _ _ Hrun) as [_ Hall].
  exists st, fs', h'. split; [exact Hrun|]. split.
  - apply Hall. exists 0%nat, (Scenarios.issue "T-1" "setup"). eexists.
    split_and!; [reflexivity|by left|reflexivity|vm_compute; reflexivity
                |by left].
  - apply Hall. exists 3%nat, (Scenarios.issue "T-4" "frontend"). eexists.
    split_and!; [reflexivity|do 3 right; by left|reflexivity
                |vm_compute; reflexivity|by right].
Defined.


Lemma run_tier_parallel_results_witness :
  ∃ pr' results new,
    _run_tier_parallel Scenarios.working_env Scenarios.s4_issues "proj"
      "model" 2 (progress Scenarios.s3_start) []
    = (ok (pr', results), new) ∧
    results.*1 = ["F-1"; "F-2"; "F-3"; "F-4"; "F-5"] ∧
    workers_started new = ["F-1"; "F-2"; "F-3"; "F-4"; "F-5"].
Proof.
  assert (∀ h args,
            ∃ r, git_reply Scenarios.working_env h "proj" args = ok r)
    as Hgit.
  { intros h args. by eexists. }
  assert (∀ h br wt rc out err,
            git_reply Scenarios.working_env h "proj"
              ["worktree"; "add"; "-b"; br; wt] = ok (rc, out, err) →
            rc = 0) as Hadd.
  { by intros h br wt rc out err [= <- _ _]. }
  assert (∀ issue, issue ∈ Scenarios.s4_issues → is_Some (issue !! "id"))
    as Hids.
  { apply Forall_forall. repeat constructor; by eexists. }
  destruct (run_tier_parallel_results Scenarios.working_env "proj" "model"
              Hgit Hadd Scenarios.s4_issues 2 (progress Scenarios.s3_start) []
              ltac:(lia) Hids)
    as (pr' & results & new & Hrun & Hstarted & _ & _ & Hkeys).
  exists pr', results, new. split; [exact Hrun|].
  split; [apply Hkeys; compute_done|exact Hstarted].
Defined.

Lemma run_parallel_agent_exit_codes_witness :
  run_parallel_agent lower_ascii
    (with_worker_reply (λ _ _, ok 1) Scenarios.working_env) lines_lf (λ p, p)
    Scenarios.s1_issues "proj" "model" 2 "2026-01-01T00:00:00+00:00" ∅
    Scenarios.s2_tracker []
  = run_parallel_agent lower_ascii Scenarios.working_env lines_lf (λ p, p)
      Scenarios.s1_issues "proj" "model" 2 "2026-01-01T00:00:00+00:00" ∅
      Scenarios.s2_tracker [].
Proof.
  apply run_parallel_agent_exit_codes. intros h task. reflexivity.
Defined.

Lemma run_parallel_agent_completes_witness :
  ∃ st fs' h',
    run_parallel_agent lower_ascii Scenarios.working_env lines_lf (λ p, p)
      Scenarios.s1_issues "proj" "model" 2 "2026-01-01T00:00:00+00:00" ∅
      Scenarios.s2_tracker [] = (ok (Finished st, fs'), h') ∧
    ∀ iid, iid ∈ Scheduler.issue_id_list Scenarios.s1_issues →
           iid ∈ completed st.
Proof.
  assert (everything_works Scenarios.working_env "proj") as Hworks.
  { split_and!.
    - intros h args. by eexists _, _.
    - done.
    - intros h path. exists Scenarios.success_descriptor. by split. }
  assert (∀ issue, issue ∈ Scenarios.s1_issues → is_Some (issue !! "id"))
    as Hids.
  { apply Forall_forall. repeat constructor; by eexists. }
  assert (∃ status_map,
            LinearStatus.check_issue_statuses Scenarios.s2_tracker
              (Scheduler.issue_id_list Scenarios.s1_issues)
            = ok ({[ "T-1" ]}, {[ "T-4" ]}, status_map))
    as [status_map Hsweep].
  { eexists. vm_compute. reflexivity. }
  assert (Scheduler.load_plan "proj" ∅ = ok None) as Hnone by reflexivity.
  assert (∀ k iid status,
            Scheduler.issue_id_list Scenarios.s1_issues !! k = Some iid →
            LinearStatus.fetch_issue_status Scenarios.s2_tracker k iid
              = ok status →
            ∃ s, LinearStatus.state_name status = JStr s) as Hnames.
  { intros k iid status Hk%list_elem_of_lookup_2.
    change (Scheduler.issue_id_list Scenarios.s1_issues)
      with ["T-1"; "T-2"; "T-3"; "T-4"; "T-5"; "T-6"] in Hk.
    repeat (apply elem_of_cons in Hk as [->|Hk];
            [vm_compute; intros Heq;
             first [discriminate | injection Heq as <-; by eexists]|]).
    by apply elem_of_nil in Hk. }
  destruct (run_parallel_agent_completes lower_ascii Scenarios.working_env
              "proj" "model" Hworks lines_lf (λ p, p) Scenarios.s1_issues 2
              "2026-01-01T00:00:00+00:00" ∅ Scenarios.s2_tracker []
              {[ "T-1" ]} {[ "T-4" ]} status_map ltac:(lia) Hids Hnone
              Hsweep Hnames) as (outcome & fs' & h' & Hrun & Hpost).
  assert (∃ st, outcome = Finished st) as [st ->].
  { assert (∃ st fs2 h2,
              run_parallel_agent lower_ascii Scenarios.working_env lines_lf
                (λ p, p) Scenarios.s1_issues "proj" "model" 2
                "2026-01-01T00:00:00+00:00" ∅ Scenarios.s2_tracker []
              = (ok (Finished st, fs2), h2)) as (st & fs2 & h2 & Hrun2).
    { eexists _, _, _. vm_compute. reflexivity. }
    rewrite Hrun2 in Hrun. injection Hrun as <- _ _. by exists st. }
  exists st, fs', h'. split; [exact Hrun|].
  intros iid Hin. by apply Hpost.
Defined.

End ParallelFacts.
